(** * douyin-down: the video-link resolution pipeline of [server.ts]

    A shallow embedding of the server's pure helpers ([generateMsToken],
    [extractVideoId], [normalizeVideoUrl], [findVideoInObject]), of
    [resolveShortUrl], of the [POST /api/parse] and [GET /api/proxy]
    handlers, of the parse handler of the compiled [server.js] and of the
    history of the front end, followed by the properties the specification
    states about them and by further properties of the code.

    Conventions.
    - A JavaScript string is a [string]: a sequence of code units below 256.
    - A regular expression of the source is a matcher: a function that, given
      the text at a position, says whether the expression matches there and
      how many characters the match spans.  Each expression embedded here is
      deterministic (every greedy class is followed by a character outside
      the class), so backtracking never finds a second match at a position.
    - What lies outside the process (the network, [cheerio], [JSON.parse],
      [decodeURIComponent], the WHATWG URL parser, the embedded-data patterns
      run over fetched pages) is an [Env]: a record of oracles the handler
      consults.  The theorems hold for every [Env]; the sample ones at the
      end of the definitions serve the worked instances. *)

From Stdlib Require Import String Ascii List ZArith QArith Lia Bool Arith.
From Stdlib Require Strings.Byte.
Import ListNotations.
Close Scope Q_scope.
Local Open Scope string_scope.

(* ================================================================= *)
(** ** JavaScript strings *)

Module Str.

(** [s.slice(n)] *)
Fixpoint drop (n : nat) (s : string) : string :=
  match n, s with
  | 0, _ => s
  | S _, "" => ""
  | S k, String _ t => drop k t
  end.

(** [s.startsWith(p)] *)
Fixpoint startsWith (s p : string) : bool :=
  match p, s with
  | "", _ => true
  | String _ _, "" => false
  | String a p', String b s' => Ascii.eqb a b && startsWith s' p'
  end.

(** [s.includes(p)] *)
Fixpoint includes (s p : string) : bool :=
  startsWith s p
  || match s with
     | "" => false
     | String _ t => includes t p
     end.

(** [s.replace(pat, rep)] with a string pattern: only the leftmost
    occurrence is replaced. *)
Fixpoint replace_first (pat rep s : string) : string :=
  if startsWith s pat then rep ++ drop (String.length pat) s
  else match s with
       | "" => ""
       | String c t => String c (replace_first pat rep t)
       end.

(** The longest prefix of [s] whose characters all satisfy [p]: what a greedy
    character class consumes. *)
Fixpoint take_while (p : ascii -> bool) (s : string) : string :=
  match s with
  | "" => ""
  | String c t => if p c then String c (take_while p t) else ""
  end.

Fixpoint all (p : ascii -> bool) (s : string) : bool :=
  match s with
  | "" => true
  | String c t => p c && all p t
  end.

End Str.

(* ================================================================= *)
(** ** Regular expressions as matchers *)

Module Re.

(** A matcher answers, for the text at the current position, the length of
    the match that starts there. *)
Definition matcher := string -> option nat.

(** [\d] *)
Definition is_digit (c : ascii) : bool :=
  let n := nat_of_ascii c in ((48 <=? n) && (n <=? 57))%nat.

(** [[a-z]] *)
Definition is_lower (c : ascii) : bool :=
  let n := nat_of_ascii c in ((97 <=? n) && (n <=? 122))%nat.

(** [\s] on code units below 256: tab, line feed, vertical tab, form feed,
    carriage return, space, no-break space. *)
Definition is_space (c : ascii) : bool :=
  let n := nat_of_ascii c in
  (((9 <=? n) && (n <=? 13)) || (n =? 32) || (n =? 160))%nat.

(** The expressions of the rewrite table are sequences of literals and
    greedy one-or-more classes. *)
Inductive atom : Type :=
| Lit (p : string)
| Plus (cls : ascii -> bool).

Definition regex : Type := list atom.

(** The match of [re] that starts at the head of [s], by its length.  A
    class takes the longest run it can; where a literal follows that starts
    outside the class, or nothing follows, no shorter run leads to a match
    either. *)
Fixpoint exec (re : regex) (s : string) : option nat :=
  match re with
  | [] => Some 0
  | Lit p :: rest =>
      if Str.startsWith s p then
        match exec rest (Str.drop (String.length p) s) with
        | Some n => Some (String.length p + n)
        | None => None
        end
      else None
  | Plus cls :: rest =>
      match Str.take_while cls s with
      | "" => None
      | run =>
          match exec rest (Str.drop (String.length run) s) with
          | Some n => Some (String.length run + n)
          | None => None
          end
      end
  end.

(** [s.match(re)] without the [g] flag: the leftmost position at which the
    expression matches. *)
Fixpoint search {A : Type} (m : string -> option A) (s : string) : option A :=
  match m s with
  | Some a => Some a
  | None => match s with
            | "" => None
            | String _ t => search m t
            end
  end.

(** [s.replace(re, rep)] with the [g] flag: scan from the left; at a match
    emit [rep] and resume after the match, otherwise copy one character.
    [skip] counts the characters of the current match still to be passed.
    (No expression replaced here matches the empty string; an empty match
    is treated as none.) *)
Fixpoint replace_from (m : matcher) (rep : string) (skip : nat) (s : string)
  : string :=
  match s with
  | "" => ""
  | String c t =>
      match skip with
      | S k => replace_from m rep k t
      | 0 => match m s with
             | Some (S n) => rep ++ replace_from m rep n t
             | _ => String c (replace_from m rep 0 t)
             end
      end
  end.

Definition replace_all (m : matcher) (rep s : string) : string :=
  replace_from m rep 0 s.

(** [lit(\d+)]: the capture group of [/\/video\/(\d+)/] and its siblings, at
    one position. *)
Definition digits_after (p : string) (s : string) : option string :=
  if Str.startsWith s p then
    match Str.take_while is_digit (Str.drop (String.length p) s) with
    | "" => None
    | d => Some d
    end
  else None.

(** [/(https?:\/\/[^\s]+)/] at one position: the whole match. *)
Definition http_url (s : string) : option string :=
  let body scheme :=
    match Str.take_while (fun c => negb (is_space c))
                         (Str.drop (String.length scheme) s) with
    | "" => None
    | b => Some (scheme ++ b)
    end in
  if Str.startsWith s "http://" then body "http://"
  else if Str.startsWith s "https://" then body "https://"
  else None.

(** The class of the generic media pattern: any character but a double
    quote, a single quote, white space and a backslash. *)
Definition is_url_char (c : ascii) : bool :=
  let n := nat_of_ascii c in
  negb (is_space c || ((n =? 34) || (n =? 39) || (n =? 92))%nat).

(** The generic media pattern at one position: [https?://], one or more
    class characters, [.mp4], then any number of class characters; the
    whole match.  Both classes are the same, so a match spans the whole run
    of class characters after the scheme, and exists when [.mp4] occurs in
    the run after its first character. *)
Definition mp4_url (s : string) : option string :=
  let body scheme :=
    match Str.take_while is_url_char (Str.drop (String.length scheme) s) with
    | String c t => if Str.includes t ".mp4" then Some (scheme ++ String c t)
                    else None
    | "" => None
    end in
  if Str.startsWith s "http://" then body "http://"
  else if Str.startsWith s "https://" then body "https://"
  else None.

End Re.

(* ================================================================= *)
(** ** [generateMsToken] *)

(** [s[i]] as [+=] appends it: the character at [i], or the text of
    [undefined] where [i] is not an index of [s]. *)
Definition char_at (s : string) (i : nat) : string :=
  match String.get i s with
  | Some c => String c ""
  | None => "undefined"
  end.

Definition MS_TOKEN_CHARS : string :=
  "ABCDEFGHIJKLMNOPQRSTUVWXYZabcdefghijklmnopqrstuvwxyz0123456789-_".

(** [chars[bytes[i] % chars.length]], as [+=] appends it.  Past the end of
    the buffer [bytes[i]] is [undefined], the remainder is [NaN] and the
    character is [undefined]. *)
Definition token_char (chars : string) (bytes : list Byte.byte) (i : nat) : string :=
  match nth_error bytes i with
  | Some b => char_at chars (Byte.to_nat b mod String.length chars)
  | None => "undefined"
  end.

(** Generate a random msToken-like string.  [randomBytes] is
    [crypto.randomBytes]; [length] is absent where the caller passes none,
    as the handler does. *)
Definition generateMsToken (randomBytes : nat -> list Byte.byte)
    (length : option nat) : string :=
  let length := match length with
                | Some n => n
                | None => 107
                end in
  let chars := MS_TOKEN_CHARS in
  let bytes := randomBytes length in
  fold_left (fun result i => result ++ token_char chars bytes i) (seq 0 length) "".

(* ================================================================= *)
(** ** [extractVideoId] and [normalizeVideoUrl] *)

(** Extract video ID (aweme_id) from any Douyin URL. *)
Definition extractVideoId (url : string) : option string :=
  match Re.search (Re.digits_after "/video/") url with
  | Some id => Some id
  | None =>
      match Re.search (Re.digits_after "/note/") url with
      | Some id => Some id
      | None => Re.search (Re.digits_after "modal_id=") url
      end
  end.

(** Inaccessible CDN domains and their accessible alternatives. *)
Definition DOMAIN_REPLACEMENTS : list (Re.regex * string) :=
  [ ([Re.Lit "aweme.snssdk.com"], "www.douyin.com");
    ([Re.Lit "api-h2.amemv.com"], "www.douyin.com");
    ([Re.Lit "api.amemv.com"], "www.douyin.com");
    ([Re.Lit "v"; Re.Plus Re.is_digit; Re.Lit "-"; Re.Plus Re.is_lower;
      Re.Lit ".douyinvod.com"], "www.douyin.com") ].

(** Replace inaccessible CDN domains with accessible alternatives. *)
Definition normalizeVideoUrl (url : string) : string :=
  fold_left (fun normalized rule =>
               Re.replace_all (Re.exec (fst rule)) (snd rule) normalized)
            DOMAIN_REPLACEMENTS url.

(* ================================================================= *)
(** ** JavaScript values *)

(** Errors a JavaScript operation can throw.  An [AxiosError] carries what
    the handlers read from it: [err.response] and
    [err.request?.res?.responseUrl]. *)
Inductive exn (R : Type) : Type :=
| TypeError
| RangeError
| SyntaxError
| URIError
| AxiosError (response : option R) (requestUrl : option string).

Arguments TypeError {R}.
Arguments RangeError {R}.
Arguments SyntaxError {R}.
Arguments URIError {R}.
Arguments AxiosError {R} response requestUrl.

(** One layer of a JavaScript value, as [typeof], truthiness and property
    access see it.  [V] is the type of the nested values: a JSON tree holds
    trees, an object graph holds addresses.  [NObj] lists the own properties
    in [Object.keys] order (keys are distinct in a JavaScript object; a
    lookup reads the first binding). *)
Inductive Node (V : Type) : Type :=
| NUndef
| NNull
| NBool (b : bool)
| NNum (q : Q)
| NStr (s : string)
| NArr (elems : list V)
| NObj (fields : list (string * V)).

Arguments NUndef {V}.
Arguments NNull {V}.
Arguments NBool {V} b.
Arguments NNum {V} q.
Arguments NStr {V} s.
Arguments NArr {V} elems.
Arguments NObj {V} fields.

(** A value as [JSON.parse] builds it: a finite tree. *)
#[warnings="-register-all"]
Inductive json : Type :=
| J (n : Node json).

Definition view_tree (t : json) : Node json :=
  match t with J n => n end.



Fixpoint height (t : json) : nat :=
  match t with
  | J (NArr elems) =>
      S (fold_right (fun c acc => Nat.max (height c) acc) 0 elems)
  | J (NObj fields) =>
      S (fold_right (fun kv acc => Nat.max (height (snd kv)) acc) 0 fields)
  | J _ => 0
  end.

Definition is_nullish {V : Type} (n : Node V) : bool :=
  match n with
  | NUndef | NNull => true
  | _ => false
  end.

(** [typeof n === 'object'] *)
Definition typeof_object {V : Type} (n : Node V) : bool :=
  match n with
  | NNull | NArr _ | NObj _ => true
  | _ => false
  end.

(** ToBoolean *)
Definition truthy {V : Type} (n : Node V) : bool :=
  match n with
  | NUndef | NNull => false
  | NBool b => b
  | NNum q => negb (Qeq_bool q 0)
  | NStr s => negb (s =? "")
  | NArr _ | NObj _ => true
  end.

(** [a || b] *)
Definition or_else {V : Type} (a b : Node V) : Node V :=
  if truthy a then a else b.

Fixpoint assoc {A : Type} (k : string) (l : list (string * A)) : option A :=
  match l with
  | [] => None
  | (k', v) :: rest => if k =? k' then Some v else assoc k rest
  end.

Definition of_nat {V : Type} (n : nat) : Node V :=
  NNum (inject_Z (Z.of_nat n)).

(** The values a [for (const key of Object.keys(obj))] loop reads as
    [obj[key]], in order. *)
Definition children {V : Type} (n : Node V) : list V :=
  match n with
  | NObj fields => map snd fields
  | NArr elems => elems
  | _ => []
  end.

(** Outcome of an operation that may throw. *)
Inductive result (E A : Type) : Type :=
| Ok (a : A)
| Raise (e : E).

Arguments Ok {E A} a.
Arguments Raise {E A} e.

(* ================================================================= *)
(** ** [findVideoInObject]: deep search of an object for video info *)

Section Search.

Context {V E : Type}.

(** How nested values are read. *)
Variable view : V -> Node V.

(** What a failed method call or conversion throws. *)
Variable type_error : E.

(** [x > 0] for an operand that is a string, an array or an object: the
    runtime converts it (ToPrimitive, then ToNumber), which may throw. *)
Variable coerce_gt0 : Node V -> result E bool.

(** The record [{ videoSrc, coverSrc, desc }].  The fields hold whatever the
    searched data holds there: the annotation [string] is not checked at run
    time. *)
Record VideoInfo : Type := {
  videoSrc : Node V;
  coverSrc : Node V;
  desc : Node V
}.

(** [n[k]] for [n] neither [null] nor [undefined], for the keys the source
    reads: property names, [length] and index [0]. *)
Definition own (n : Node V) (k : string) : Node V :=
  match n with
  | NObj fields =>
      match assoc k fields with
      | Some v => view v
      | None => NUndef
      end
  | NArr elems =>
      if k =? "length" then of_nat (List.length elems)
      else if k =? "0" then
        match elems with
        | v :: _ => view v
        | [] => NUndef
        end
      else NUndef
  | NStr s =>
      if k =? "length" then of_nat (String.length s)
      else if k =? "0" then
        match s with
        | String c _ => NStr (String c "")
        | "" => NUndef
        end
      else NUndef
  | _ => NUndef
  end.

(** [n.k]: reading a property of [null] or [undefined] throws. *)
Definition get (n : Node V) (k : string) : result E (Node V) :=
  if is_nullish n then Raise type_error else Ok (own n k).

(** [n?.k] *)
Definition get_opt (n : Node V) (k : string) : Node V :=
  if is_nullish n then NUndef else own n k.

(** [n > 0] *)
Definition gt_zero (n : Node V) : result E bool :=
  match n with
  | NUndef | NNull => Ok false
  | NBool b => Ok b
  | NNum q => Ok (negb (Qle_bool q 0))
  | _ => coerce_gt0 n
  end.

(** [s.replace(pat, rep)]: a method of strings only. *)
Definition call_replace (n : Node V) (pat rep : string) : result E (Node V) :=
  match n with
  | NStr s => Ok (NStr (Str.replace_first pat rep s))
  | _ => Raise type_error
  end.

(** [video?.cover?.<list>?.[0]] *)
Definition first_url (video : Node V) (image list_key : string) : Node V :=
  get_opt (get_opt (get_opt video image) list_key) "0".

(** [obj.<addr> && obj.<addr>.url_list?.length > 0], for [video] truthy. *)
Definition has_url_list (video : Node V) (addr : string) : result E bool :=
  match get video addr with
  | Raise e => Raise e
  | Ok a =>
      if truthy a then
        match get a "url_list" with
        | Raise e => Raise e
        | Ok l => gt_zero (get_opt l "length")
        end
      else Ok false
  end.

(** Check for playApi (newer format). *)
Definition shape_playApi (obj : Node V) : result E (option VideoInfo) :=
  match get obj "video" with
  | Raise e => Raise e
  | Ok video =>
      if truthy video then
        match get video "playApi" with
        | Raise e => Raise e
        | Ok playApi =>
            if truthy playApi then
              match playApi with
              | NStr p =>
                  Ok (Some {|
                    videoSrc := NStr (if Str.startsWith p "http" then p
                                      else "https:" ++ p);
                    coverSrc := or_else (first_url video "cover" "urlList")
                                  (or_else (first_url video "dynamicCover" "urlList")
                                           (NStr ""));
                    desc := or_else (own obj "desc") (NStr "") |})
              | _ => Raise type_error
              end
            else Ok None
        end
      else Ok None
  end.

(** Check for play_addr (older format). *)
Definition shape_play_addr (obj : Node V) : result E (option VideoInfo) :=
  match get obj "video" with
  | Raise e => Raise e
  | Ok video =>
      if truthy video then
        match has_url_list video "play_addr" with
        | Raise e => Raise e
        | Ok true =>
            (* the condition has just found each object on the path truthy *)
            match call_replace (own (own (own video "play_addr") "url_list") "0")
                               "playwm" "play" with
            | Raise e => Raise e
            | Ok src =>
                Ok (Some {|
                  videoSrc := src;
                  coverSrc := or_else (first_url video "cover" "url_list") (NStr "");
                  desc := or_else (own obj "desc") (NStr "") |})
            end
        | Ok false => Ok None
        end
      else Ok None
  end.

(** Check for download_addr. *)
Definition shape_download_addr (obj : Node V) : result E (option VideoInfo) :=
  match get obj "video" with
  | Raise e => Raise e
  | Ok video =>
      if truthy video then
        match has_url_list video "download_addr" with
        | Raise e => Raise e
        | Ok true =>
            Ok (Some {|
              videoSrc := own (own (own video "download_addr") "url_list") "0";
              coverSrc := or_else (first_url video "cover" "url_list") (NStr "");
              desc := or_else (own obj "desc") (NStr "") |})
        | Ok false => Ok None
        end
      else Ok None
  end.

(** The three [if] statements, in the order of the source: the first shape
    that matches returns. *)
Definition match_shapes (obj : Node V) : result E (option VideoInfo) :=
  match shape_playApi obj with
  | Ok None =>
      match shape_play_addr obj with
      | Ok None => shape_download_addr obj
      | r => r
      end
  | r => r
  end.

(** [if (result && result.videoSrc)] *)
Definition usable (r : option VideoInfo) : bool :=
  match r with
  | Some info => truthy (videoSrc info)
  | None => false
  end.

(** Recurse into children: the loop over [Object.keys(obj)], given the
    recursive call.  [None] when a call does not return. *)
Fixpoint first_usable (find : V -> option (result E (option VideoInfo)))
    (cs : list V) : option (result E (option VideoInfo)) :=
  match cs with
  | [] => Some (Ok None)
  | c :: rest =>
      match find c with
      | None => None
      | Some (Raise e) => Some (Raise e)
      | Some (Ok r) => if usable r then Some (Ok r) else first_usable find rest
      end
  end.

(** [findVideoInObject(obj)], with [fuel] bounding the depth of the calls:
    [None] when the search needs deeper calls than [fuel] allows. *)
Fixpoint findVideoInObject (fuel : nat) (obj : Node V)
  : option (result E (option VideoInfo)) :=
  match fuel with
  | 0 => None
  | S fuel' =>
      if negb (truthy obj) || negb (typeof_object obj) then Some (Ok None)
      else
        match match_shapes obj with
        | Raise e => Some (Raise e)
        | Ok (Some info) => Some (Ok (Some info))
        | Ok None =>
            first_usable (fun c => findVideoInObject fuel' (view c)) (children obj)
        end
  end.

End Search.

Arguments videoSrc {V} v.
Arguments coverSrc {V} v.
Arguments desc {V} v.

(* ================================================================= *)
(** ** The network and the libraries *)

Inductive Method : Type := GET | HEAD.

(** An [axios] call: method, URL and the [maxRedirects] option (5, the
    default of axios, where the source passes none).  Headers (user agent,
    cookies with freshly generated tokens) and timeouts are not
    represented: the reply is an arbitrary function of the request and of
    everything requested before. *)
Record Request : Type := {
  method : Method;
  url : string;
  maxRedirects : nat
}.

(** What the handlers read of a response: [status], [headers['location']],
    the effective URL [request.res.responseUrl || request.responseURL], and
    [data]. *)
Record Response : Type := {
  status : Z;
  location : option string;
  responseUrl : option string;
  data : Node json
}.

Abbreviation error := (exn Response).

(** The settled promise of an [axios] call. *)
Inductive Settled : Type :=
| Fulfilled (r : Response)
| Rejected (response : option Response) (requestUrl : option string).

(** What [cheerio] finds in a page: the inner HTML of [#RENDER_DATA] (when
    the element exists) and of every [script] element, in document order,
    each already defaulted by [|| '']. *)
Record Dom : Type := {
  render_data : option string;
  scripts : list string
}.

Record Env : Type := {
  (** the reply to a request, given the requests issued before it *)
  axios : list Request -> Request -> Settled;
  (** [new URL(location, base).href] *)
  new_URL : string -> string -> result error string;
  (** [x > 0] on a string, array or object operand *)
  to_number_gt0 : Node json -> result error bool;
  (** [cheerio.load(html)] and the two selections *)
  cheerio_load : Node json -> result error Dom;
  decodeURIComponent : string -> result error string;
  JSON_parse : string -> result error (Node json);
  (** capture group 1 of [/window\._ROUTER_DATA\s*=\s*(\{.+\})\s*;?\s*$/ms] *)
  match_ROUTER_DATA : string -> option string;
  (** capture group 1 of [/self\.__next_f\.push\(\[.*?"(\{.*?\})"\]/s] *)
  match_next_f : string -> option string;
  (** capture group 1 of the three media-URL key patterns of the mobile page *)
  match_playApi : string -> option string;
  match_play_addr : string -> option string;
  match_playAddr : string -> option string
}.

(** [if (s)] for a value that is a string or absent. *)
Definition present (o : option string) : bool :=
  match o with
  | Some s => negb (s =? "")
  | None => false
  end.

(** [a || b] for such values. *)
Definition or_str (a b : option string) : option string :=
  if present a then a else b.

(* ================================================================= *)
(** ** Effects: state and exceptions *)

(** A computation over a state [W] that returns or throws.  The state as it
    is when an exception is thrown survives the throw: an assignment made
    before it stays made. *)
Definition M (W A : Type) : Type := W -> result error A * W.

Definition ret {W A : Type} (a : A) : M W A :=
  fun s => (Ok a, s).

Definition raise {W A : Type} (e : error) : M W A :=
  fun s => (Raise e, s).

Definition bind {W A B : Type} (m : M W A) (k : A -> M W B) : M W B :=
  fun s =>
    match m s with
    | (Ok a, s') => k a s'
    | (Raise e, s') => (Raise e, s')
    end.

(** [try { m } catch (err) { handler(err) }] *)
Definition try_catch {W A : Type} (m : M W A) (handler : error -> M W A) : M W A :=
  fun s =>
    match m s with
    | (Ok a, s') => (Ok a, s')
    | (Raise e, s') => handler e s'
    end.

Definition lift {W A : Type} (r : result error A) : M W A :=
  fun s => (r, s).

Declare Scope js_scope.
Delimit Scope js_scope with js.
Notation "x <- c1 ;; c2" := (bind c1 (fun x => c2))
  (at level 61, c1 at next level, right associativity) : js_scope.
Notation "c1 ;;; c2" := (bind c1 (fun _ => c2))
  (at level 61, right associativity) : js_scope.
Local Open Scope js_scope.

(** The requests issued so far, oldest first. *)
Definition Net : Type := list Request.

(** [await axios.get(...)] / [await axios.head(...)] *)
Definition request (env : Env) (r : Request) : M Net Response :=
  fun log =>
    match axios env log r with
    | Fulfilled resp => (Ok resp, (log ++ [r])%list)
    | Rejected resp u => (Raise (AxiosError resp u), (log ++ [r])%list)
    end.

(* ================================================================= *)
(** ** [resolveShortUrl] *)

Record Resolved : Type := {
  finalUrl : string;
  videoId : option string
}.

(** How one turn of the [for] loop ends. *)
Inductive Step : Type :=
| Return (r : Resolved)
| Continue (nextUrl : string)
| Break.

(** The [try] block of a turn: the request, then the 2xx branch. *)
Definition hop_try (env : Env) (currentUrl : string) : M Net Step :=
  resp <- request env {| method := GET; url := currentUrl; maxRedirects := 0 |} ;;
  let videoId := extractVideoId currentUrl in
  if present videoId then ret (Return {| finalUrl := currentUrl; videoId := videoId |})
  else
    match responseUrl resp with
    | Some respUrl =>
        if present (Some respUrl) then
          let idFromResp := extractVideoId respUrl in
          if present idFromResp
          then ret (Return {| finalUrl := respUrl; videoId := idFromResp |})
          else ret (Return {| finalUrl := currentUrl; videoId := None |})
        else ret (Return {| finalUrl := currentUrl; videoId := None |})
    | None => ret (Return {| finalUrl := currentUrl; videoId := None |})
    end.

(** The [catch] block of a turn.  Nothing encloses it: what it throws leaves
    [resolveShortUrl]. *)
Definition hop_catch (env : Env) (currentUrl : string) (err : error) : M Net Step :=
  match err with
  | AxiosError (Some response) _ =>
      let st := status response in
      if negb (st =? 0)%Z && (300 <=? st)%Z && (st <? 400)%Z then
        match location response with
        | Some loc =>
            if present (Some loc) then
              nextUrl <- (if Str.startsWith loc "http" then ret loc
                          else lift (new_URL env loc currentUrl)) ;;
              let videoId := extractVideoId nextUrl in
              if present videoId
              then ret (Return {| finalUrl := nextUrl; videoId := videoId |})
              else ret (Continue nextUrl)
            else ret Break
        | None => ret Break
        end
      else ret Break
  | _ => ret Break
  end.

(** Manually follow redirects, checking for a video ID at each step:
    [turns] turns of the loop are left.  [None]: the loop was left
    without a [return]. *)
Fixpoint chase (env : Env) (turns : nat) (currentUrl : string)
  : M Net (option Resolved) :=
  match turns with
  | 0 => ret None
  | S turns' =>
      step <- try_catch (hop_try env currentUrl) (hop_catch env currentUrl) ;;
      match step with
      | Return r => ret (Some r)
      | Continue nextUrl => chase env turns' nextUrl
      | Break => ret None
      end
  end.

(** Fallback: let axios follow all redirects automatically. *)
Definition auto_follow (env : Env) (shortUrl : string) : M Net Resolved :=
  try_catch
    (resp <- request env {| method := GET; url := shortUrl; maxRedirects := 10 |} ;;
     let finalUrl := match or_str (responseUrl resp) (Some shortUrl) with
                     | Some u => u
                     | None => shortUrl
                     end in
     ret {| finalUrl := finalUrl; videoId := extractVideoId finalUrl |})
    (fun err =>
       let reported :=
         match err with
         | AxiosError response requestUrl =>
             or_str requestUrl
                    (match response with
                     | Some r => location r
                     | None => None
                     end)
         | _ => None
         end in
       let finalUrl := match or_str reported (Some shortUrl) with
                       | Some u => u
                       | None => shortUrl
                       end in
       ret {| finalUrl := finalUrl; videoId := extractVideoId finalUrl |}).

(** Follow short URL redirects to get the final URL and video ID. *)
Definition resolveShortUrl (env : Env) (shortUrl : string) : M Net Resolved :=
  let directId := extractVideoId shortUrl in
  if present directId then ret {| finalUrl := shortUrl; videoId := directId |}
  else
    r <- chase env 10 shortUrl ;;
    match r with
    | Some resolved => ret resolved
    | None => auto_follow env shortUrl
    end.

(* ================================================================= *)
(** ** [POST /api/parse] *)

(** [findVideoInObject] on parsed JSON.  On a tree of height [h] calls
    nested [h + 1] deep suffice (lemma [findVideoInObject_tree_returns]), so
    the last branch is never taken; it stands for what an engine does with
    calls that nest without end. *)
Definition findVideoInTree (env : Env) (obj : Node json)
  : result error (option (VideoInfo (V := json))) :=
  match findVideoInObject view_tree TypeError (to_number_gt0 env)
                          (S (height (J obj))) obj with
  | Some r => r
  | None => Raise RangeError
  end.

(** The handler's local variables [videoSrc], [coverSrc] and [desc]. *)
Record Vars : Type := {
  var_videoSrc : Node json;
  var_coverSrc : Node json;
  var_desc : Node json
}.

Definition initial_vars : Vars :=
  {| var_videoSrc := NStr ""; var_coverSrc := NStr ""; var_desc := NStr "" |}.

(** The state of the handler while the strategies run. *)
Definition St : Type := (Vars * Net)%type.

Definition read_vars : M St Vars :=
  fun s => (Ok (fst s), s).

Definition write_vars (v : Vars) : M St unit :=
  fun s => (Ok tt, (v, snd s)).

Definition on_net {A : Type} (m : M Net A) : M St A :=
  fun s =>
    match m (snd s) with
    | (r, log) => (r, (fst s, log))
    end.

(** [videoSrc = result.videoSrc; coverSrc = result.coverSrc;
    desc = result.desc;] *)
Definition assign (info : VideoInfo (V := json)) : M St unit :=
  write_vars {| var_videoSrc := videoSrc info;
                var_coverSrc := coverSrc info;
                var_desc := desc info |}.

(** [if (result && result.videoSrc) { ... }]: says whether it assigned. *)
Definition keep_if_usable (result : option (VideoInfo (V := json))) : M St bool :=
  match result with
  | Some info => if truthy (videoSrc info) then assign info ;;; ret true
                 else ret false
  | None => ret false
  end.

(** [if (!videoSrc) { m }] *)
Definition unless_found (m : M St unit) : M St unit :=
  v <- read_vars ;;
  if truthy (var_videoSrc v) then ret tt else m.

(** [$('script').each(cb)] *)
Fixpoint each (cb : string -> M St unit) (contents : list string) : M St unit :=
  match contents with
  | [] => ret tt
  | content :: rest => cb content ;;; each cb rest
  end.

Definition tget (n : Node json) (k : string) : result error (Node json) :=
  get view_tree TypeError n k.

Definition tget_opt (n : Node json) (k : string) : Node json :=
  get_opt view_tree n k.

(** Strategy 1: Douyin Web API. *)
Definition strategy1 (env : Env) (videoId : string) : M St unit :=
  try_catch
    (let apiUrl := "https://www.douyin.com/aweme/v1/web/aweme/detail/?aweme_id="
                   ++ videoId
                   ++ "&aid=6383&cookie_enabled=true&platform=PC&downlink=10" in
     apiRes <- on_net (request env {| method := GET; url := apiUrl; maxRedirects := 5 |}) ;;
     let detail := tget_opt (data apiRes) "aweme_detail" in
     if truthy detail then
       result <- lift (findVideoInTree env detail) ;;
       keep_if_usable result ;;; ret tt
     else ret tt)
    (fun _ => ret tt).

(** The loop over the embedded-JSON patterns inside one script: [true] when
    the callback returned after an assignment. *)
Fixpoint try_patterns (env : Env) (captures : list (option string)) : M St bool :=
  match captures with
  | [] => ret false
  | None :: rest => try_patterns env rest
  | Some text :: rest =>
      found <- try_catch
                 (parsed <- lift (JSON_parse env text) ;;
                  result <- lift (findVideoInTree env parsed) ;;
                  keep_if_usable result)
                 (fun _ => ret false) ;;
      if found then ret true else try_patterns env rest
  end.

(** Strategy 2: fetch the page with a desktop user agent, parse RENDER_DATA,
    then _ROUTER_DATA or SSR hydrated data. *)
Definition strategy2 (env : Env) (videoId : string) : M St unit :=
  unless_found
    (try_catch
       (let pageUrl := "https://www.douyin.com/video/" ++ videoId in
        pageRes <- on_net (request env {| method := GET; url := pageUrl; maxRedirects := 5 |}) ;;
        dom <- lift (cheerio_load env (data pageRes)) ;;
        match render_data dom with
        | Some inner =>
            decoded <- lift (decodeURIComponent env inner) ;;
            renderData <- lift (JSON_parse env decoded) ;;
            result <- lift (findVideoInTree env renderData) ;;
            keep_if_usable result ;;; ret tt
        | None => ret tt
        end ;;;
        unless_found
          (each (fun content =>
                   unless_found
                     (try_patterns env [match_ROUTER_DATA env content;
                                        match_next_f env content] ;;; ret tt))
                (scripts dom)))
       (fun _ => ret tt)).

(** The escapes of a slash inside a script: backslash, u, 0, 0, 2, F and
    backslash, slash. *)
Definition escaped_unicode_slash : string := String (ascii_of_nat 92) "u002F".
Definition escaped_slash : string := String (ascii_of_nat 92) "/".

(** [m[1]] with both escapes replaced by a slash, each by a global
    replacement, in this order. *)
Definition unescape_slashes (s : string) : string :=
  Re.replace_all (Re.exec [Re.Lit escaped_slash]) "/"
    (Re.replace_all (Re.exec [Re.Lit escaped_unicode_slash]) "/" s).

(** [src.startsWith('//') ? 'https:' + src
     : src.startsWith('http') ? src : 'https:' + src] *)
Definition with_scheme (src : string) : string :=
  if Str.startsWith src "//" then "https:" ++ src
  else if Str.startsWith src "http" then src
  else "https:" ++ src.

(** The first pattern [p] with [m && m[1]]. *)
Fixpoint first_capture (captures : list (option string)) : option string :=
  match captures with
  | [] => None
  | c :: rest => if present c then c else first_capture rest
  end.

(** What the mobile-page callback stores for a capture [m[1]]. *)
Definition mobile_src (capture : string) : string :=
  Str.replace_first "playwm" "play" (with_scheme (unescape_slashes capture)).

Definition set_videoSrc (src : Node json) : M St unit :=
  v <- read_vars ;;
  write_vars {| var_videoSrc := src;
                var_coverSrc := var_coverSrc v;
                var_desc := var_desc v |}.

Definition mobile_script (env : Env) (content : string) : M St unit :=
  unless_found
    (if Str.includes content "playAddr" || Str.includes content "play_addr"
        || Str.includes content "playApi"
     then
       match first_capture [match_playApi env content;
                            match_play_addr env content;
                            match_playAddr env content] with
       | Some capture => set_videoSrc (NStr (mobile_src capture))
       | None => ret tt
       end
     else ret tt).

(** Strategy 3: mobile page scraping. *)
Definition strategy3 (env : Env) (videoId : string) : M St unit :=
  unless_found
    (try_catch
       (let mobileUrl := "https://m.douyin.com/share/video/" ++ videoId in
        pageRes <- on_net (request env {| method := GET; url := mobileUrl; maxRedirects := 5 |}) ;;
        let html := data pageRes in
        dom <- lift (cheerio_load env html) ;;
        each (mobile_script env) (scripts dom) ;;;
        unless_found
          match html with
          | NStr text =>
              match Re.search Re.mp4_url text with
              | Some whole => set_videoSrc (NStr whole)
              | None => ret tt
              end
          | _ => raise TypeError
          end)
       (fun _ => ret tt)).

(** Strategy 4: iesdouyin API. *)
Definition strategy4 (env : Env) (videoId : string) : M St unit :=
  unless_found
    (try_catch
       (let apiUrl := "https://www.iesdouyin.com/web/api/v2/aweme/iteminfo/?item_ids="
                      ++ videoId in
        apiRes <- on_net (request env {| method := GET; url := apiUrl; maxRedirects := 5 |}) ;;
        let itemList := tget_opt (data apiRes) "item_list" in
        if truthy itemList then
          nonempty <- lift (gt_zero (to_number_gt0 env) (own view_tree itemList "length")) ;;
          if (nonempty : bool) then
            item <- lift (tget itemList "0") ;;
            video <- lift (tget item "video") ;;
            let first := tget_opt (tget_opt (tget_opt video "play_addr") "url_list") "0" in
            if truthy first then
              src <- lift (call_replace TypeError first "playwm" "play") ;;
              desc <- lift (tget item "desc") ;;
              write_vars {| var_videoSrc := src;
                            var_coverSrc := or_else (first_url view_tree video "cover" "url_list")
                                                    (NStr "");
                            var_desc := or_else desc (NStr "") |}
            else ret tt
          else ret tt
        else ret tt)
       (fun _ => ret tt)).

(** Strategy 5: construct a direct CDN URL and probe it. *)
Definition strategy5 (env : Env) (videoId : string) : M St unit :=
  unless_found
    (try_catch
       (let cdnUrl := "https://www.douyin.com/aweme/v1/play/?video_id=" ++ videoId
                      ++ "&ratio=720p&line=0" in
        headRes <- on_net (request env {| method := HEAD; url := cdnUrl; maxRedirects := 3 |}) ;;
        if (status headRes =? 200)%Z then set_videoSrc (NStr cdnUrl) else ret tt)
       (fun _ => ret tt)).

(** The strategies in the order the handler runs them. *)
Definition strategies (env : Env) (videoId : string) : list (M St unit) :=
  [strategy1 env videoId; strategy2 env videoId; strategy3 env videoId;
   strategy4 env videoId; strategy5 env videoId].

Fixpoint run (ms : list (M St unit)) : M St unit :=
  match ms with
  | [] => ret tt
  | m :: rest => m ;;; run rest
  end.

(** The error texts of the handler, by name. *)
Inductive Message : Type :=
| UrlRequired
| NoVideoId
| AllStrategiesFailed
| Unhandled (e : error).

(** The [data] object of a success payload. *)
Record VideoData : Type := {
  data_url : Node json;
  data_cover : Node json;
  data_desc : Node json;
  data_isDemo : option bool
}.

(** The JSON payloads: [{ error }], [{ success: false, error }] and
    [{ success: true, data }]. *)
Inductive Body : Type :=
| BError (error : Message)
| BFailure (error : Message)
| BSuccess (data : VideoData).

Record HttpReply : Type := {
  code : Z;
  body : Body
}.

(** The description sent when the strategies found none. *)
Definition DEFAULT_DESC : string := "抖音视频".

(** The end of the handler: the strategies have run and left [v]. *)
Definition respond (v : Vars) : M Net HttpReply :=
  if negb (truthy (var_videoSrc v))
  then ret {| code := 200; body := BFailure AllStrategiesFailed |}
  else
    match var_videoSrc v with
    | NStr src =>
        ret {| code := 200;
               body := BSuccess {| data_url := NStr (normalizeVideoUrl src);
                                   data_cover := var_coverSrc v;
                                   data_desc := or_else (var_desc v) (NStr DEFAULT_DESC);
                                   data_isDemo := None |} |}
    | _ => raise TypeError
    end.

(** The strategies run on the handler's fresh variables; the requests they
    issue join the log. *)
Definition extract (env : Env) (videoId : string) : M Net Vars :=
  fun log =>
    match run (strategies env videoId) (initial_vars, log) with
    | (Ok _, (v, log')) => (Ok v, log')
    | (Raise e, (_, log')) => (Raise e, log')
    end.

(** [url.match(/(https?:\/\/[^\s]+)/)]: the URL inside pasted text, or the
    text itself. *)
Definition target_of (text : string) : string :=
  match Re.search Re.http_url text with
  | Some m => m
  | None => text
  end.

(** The [try] block of the handler, given [req.body]. *)
Definition parse_body (env : Env) (req_body : Node json) : M Net HttpReply :=
  url <- lift (tget req_body "url") ;;
  if negb (truthy url) then ret {| code := 400; body := BError UrlRequired |}
  else
    match url with
    | NStr text =>
        resolved <- resolveShortUrl env (target_of text) ;;
        match videoId resolved with
        | Some id =>
            if present (Some id) then
              v <- extract env id ;;
              respond v
            else ret {| code := 400; body := BError NoVideoId |}
        | None => ret {| code := 400; body := BError NoVideoId |}
        end
    | _ => raise TypeError
    end.

(** [app.post('/api/parse', ...)] *)
Definition parse (env : Env) (req_body : Node json) : M Net HttpReply :=
  try_catch (parse_body env req_body)
            (fun e => ret {| code := 500; body := BError (Unhandled e) |}).

(** *** The compiled handler [server.js]

    Its last statements, given the variables its own strategies left. *)
Definition DEMO : VideoData :=
  {| data_url := NStr "https://interactive-examples.mdn.mozilla.net/media/cc0-videos/flower.mp4";
     data_cover := NStr "https://picsum.photos/seed/douyin/400/600";
     data_desc := NStr "解析失败（服务器 IP 可能被限制）。展示示例视频供预览。";
     data_isDemo := Some true |}.

Definition compiled_respond (videoSrc coverSrc desc : Node json) : HttpReply :=
  if negb (truthy videoSrc)
  then {| code := 200; body := BSuccess DEMO |}
  else {| code := 200;
          body := BSuccess {| data_url := videoSrc;
                              data_cover := coverSrc;
                              data_desc := desc;
                              data_isDemo := None |} |}.

(** The rest of the compiled handler.  It fetches the link itself and
    searches the page it gets; [findVideoInfo] is a closure that assigns to
    the handler's variables instead of returning a record. *)

Definition set_coverSrc (cover : Node json) : M St unit :=
  v <- read_vars ;;
  write_vars {| var_videoSrc := var_videoSrc v;
                var_coverSrc := cover;
                var_desc := var_desc v |}.

Definition set_desc (description : Node json) : M St unit :=
  v <- read_vars ;;
  write_vars {| var_videoSrc := var_videoSrc v;
                var_coverSrc := var_coverSrc v;
                var_desc := description |}.

(** The class of the compiled media pattern: any character but a double
    quote and a single quote. *)
Definition is_unquoted (c : ascii) : bool :=
  let n := nat_of_ascii c in negb ((n =? 34) || (n =? 39))%nat.

(** The longest prefix of [s] that ends with [suffix]: where a greedy class
    followed by the literal [suffix] stops, when every character of [s] is of
    the class. *)
Fixpoint longest_ending (suffix s : string) : option string :=
  match s with
  | "" => None
  | String c t =>
      match longest_ending suffix t with
      | Some p => Some (String c p)
      | None => if Str.startsWith s suffix then Some suffix else None
      end
  end.

(** The generic media pattern of the compiled handler at one position:
    [https?://], one or more characters other than quotes, [.mp4]; the whole
    match.  The class takes the whole run of unquoted characters and gives
    back as few as it must: the match ends with the last [.mp4] of the run
    that has a character of the run before it. *)
Definition compiled_mp4_url (s : string) : option string :=
  let body scheme :=
    match Str.take_while is_unquoted (Str.drop (String.length scheme) s) with
    | String c t =>
        match longest_ending ".mp4" t with
        | Some p => Some (scheme ++ String c p)
        | None => None
        end
    | "" => None
    end in
  if Str.startsWith s "http://" then body "http://"
  else if Str.startsWith s "https://" then body "https://"
  else None.

(** The replies of the compiled handler: [res.status(code).json({ error })]
    and the [res.json(...)] of its last statements. *)
Inductive CompiledReply : Type :=
| CompiledError (code : Z) (error : string)
| CompiledJson (reply : HttpReply).

Definition URL_REQUIRED : string := "URL is required".
Definition CHECK_THE_LINK : string := "解析视频失败，请检查链接是否正确".

Section Compiled.

Variable env : Env.

(** The text of a value that is not a string, as [+] converts it. *)
Variable to_text : Node json -> string.

(** Capture group 1 of the pattern that finds the [playAddr] list in a
    script: the key, a colon, white space, then a bracketed list of
    objects, as short as possible. *)
Variable match_playAddr_list : string -> option string.

(** ['https:' + x] *)
Definition https_plus (x : Node json) : Node json :=
  NStr ("https:" ++ match x with
                    | NStr s => s
                    | _ => to_text x
                    end).

(** [desc = obj.desc || desc;] *)
Definition keep_desc (obj : Node json) : M St unit :=
  v <- read_vars ;;
  set_desc (or_else (own view_tree obj "desc") (var_desc v)).

(** [if (video.cover && video.cover.<list>) coverSrc = video.cover.<list>[0] || '';]
    for [video] truthy. *)
Definition keep_cover (video : Node json) (list_key : string) : M St unit :=
  let cover := own view_tree video "cover" in
  if truthy cover && truthy (own view_tree cover list_key)
  then set_coverSrc (or_else (own view_tree (own view_tree cover list_key) "0")
                             (NStr ""))
  else ret tt.

(** The closure [findVideoInfo]: the two shapes, then the children in key
    order until [videoSrc] is truthy.  Each condition reads properties of
    values it has just found truthy, so none of them throws. *)
Fixpoint findVideoInfo (t : json) : M St unit :=
  match t with
  | J obj =>
      if negb (truthy obj) || negb (typeof_object obj) then ret tt
      else
        let video := own view_tree obj "video" in
        if truthy video && truthy (own view_tree video "playApi") then
          set_videoSrc (https_plus (own view_tree video "playApi")) ;;;
          keep_desc obj ;;;
          keep_cover video "urlList"
        else if truthy video && truthy (own view_tree video "play_addr")
                && truthy (own view_tree (own view_tree video "play_addr") "url_list")
        then
          let first := or_else (own view_tree
                                  (own view_tree (own view_tree video "play_addr")
                                       "url_list") "0")
                               (NStr "") in
          set_videoSrc first ;;;
          replaced <- lift (call_replace TypeError first "playwm" "play") ;;
          set_videoSrc replaced ;;;
          keep_desc obj ;;;
          keep_cover video "url_list"
        else
          match obj with
          | NObj fields =>
              (fix loop (fs : list (string * json)) : M St unit :=
                 match fs with
                 | [] => ret tt
                 | (_, c) :: rest =>
                     findVideoInfo c ;;;
                     v <- read_vars ;;
                     if truthy (var_videoSrc v) then ret tt else loop rest
                 end) fields
          | NArr elems =>
              (fix loop (cs : list json) : M St unit :=
                 match cs with
                 | [] => ret tt
                 | c :: rest =>
                     findVideoInfo c ;;;
                     v <- read_vars ;;
                     if truthy (var_videoSrc v) then ret tt else loop rest
                 end) elems
          | _ => ret tt
          end
  end.

(** Strategy 1 of the compiled handler: parse the RENDER_DATA script. *)
Definition compiled_strategy1 (dom : Dom) : M St unit :=
  match render_data dom with
  | Some inner =>
      try_catch
        (decoded <- lift (decodeURIComponent env inner) ;;
         renderData <- lift (JSON_parse env decoded) ;;
         findVideoInfo (J renderData))
        (fun _ => ret tt)
  | None => ret tt
  end.

(** The callback of strategy 2, for one script. *)
Definition compiled_script (content : string) : M St unit :=
  if Str.includes content "playAddr" then
    match match_playAddr_list content with
    | Some capture =>
        if present (Some capture) then
          try_catch
            (json <- lift (JSON_parse env capture) ;;
             first <- lift (tget json "0") ;;
             let src := tget_opt first "src" in
             if truthy src then
               match src with
               | NStr s =>
                   let prefixed := if Str.startsWith s "//" then "https:" ++ s else s in
                   set_videoSrc (NStr prefixed) ;;;
                   set_videoSrc (NStr (Str.replace_first "playwm" "play" prefixed))
               | _ => raise TypeError
               end
             else ret tt)
            (fun _ => ret tt)
        else ret tt
    | None => ret tt
    end
  else ret tt.

(** Strategy 2: search the script tags for playAddr.  Every script is
    visited: a later one overwrites what an earlier one stored. *)
Definition compiled_strategy2 (dom : Dom) : M St unit :=
  unless_found (each compiled_script (scripts dom)).

(** Strategy 3: the old API, when the final URL showed an identifier. *)
Definition compiled_strategy3 (videoId : option string) : M St unit :=
  v <- read_vars ;;
  match videoId with
  | Some id =>
      if negb (truthy (var_videoSrc v)) && present (Some id) then
        try_catch
          (let apiUrl := "https://www.iesdouyin.com/web/api/v2/aweme/iteminfo/?item_ids="
                         ++ id in
           apiRes <- on_net (request env {| method := GET; url := apiUrl;
                                            maxRedirects := 5 |}) ;;
           itemList <- lift (tget (data apiRes) "item_list") ;;
           if truthy itemList then
             nonempty <- lift (gt_zero (to_number_gt0 env)
                                       (own view_tree itemList "length")) ;;
             if (nonempty : bool) then
               let item := own view_tree itemList "0" in
               video <- lift (tget item "video") ;;
               play_addr <- lift (tget video "play_addr") ;;
               url_list <- lift (tget play_addr "url_list") ;;
               first <- lift (tget url_list "0") ;;
               set_videoSrc first ;;;
               replaced <- lift (call_replace TypeError first "playwm" "play") ;;
               set_videoSrc replaced ;;;
               cover <- lift (tget video "cover") ;;
               cover_list <- lift (tget cover "url_list") ;;
               cover0 <- lift (tget cover_list "0") ;;
               set_coverSrc cover0 ;;;
               set_desc (own view_tree item "desc")
             else ret tt
           else ret tt)
          (fun _ => ret tt)
      else ret tt
  | None => ret tt
  end.

(** Strategy 4: the generic media pattern over the page.  Nothing catches
    what [html.match] throws when the page is not text. *)
Definition compiled_strategy4 (html : Node json) : M St unit :=
  unless_found
    match html with
    | NStr text =>
        match Re.search compiled_mp4_url text with
        | Some whole => set_videoSrc (NStr whole)
        | None => ret tt
        end
    | _ => raise TypeError
    end.

Definition compiled_strategies (dom : Dom) (videoId : option string)
    (html : Node json) : list (M St unit) :=
  [compiled_strategy1 dom; compiled_strategy2 dom; compiled_strategy3 videoId;
   compiled_strategy4 html].

(** The [try] block of the compiled handler, given [req.body]. *)
Definition compiled_parse_body (req_body : Node json) : M Net CompiledReply :=
  url <- lift (tget req_body "url") ;;
  if negb (truthy url) then ret (CompiledError 400 URL_REQUIRED)
  else
    match url with
    | NStr text =>
        let targetUrl := target_of text in
        response <- request env {| method := GET; url := targetUrl;
                                   maxRedirects := 5 |} ;;
        let finalUrl := match or_str (responseUrl response) (Some targetUrl) with
                        | Some u => u
                        | None => targetUrl
                        end in
        let videoId := Re.search (Re.digits_after "/video/") finalUrl in
        let html := data response in
        dom <- lift (cheerio_load env html) ;;
        fun log =>
          match run (compiled_strategies dom videoId html) (initial_vars, log) with
          | (Ok _, (v, log')) =>
              (Ok (CompiledJson (compiled_respond (var_videoSrc v) (var_coverSrc v)
                                                  (var_desc v))), log')
          | (Raise e, (_, log')) => (Raise e, log')
          end
    | _ => raise TypeError
    end.

(** [app.post('/api/parse', ...)] of [server.js] *)
Definition compiled_parse (req_body : Node json) : M Net CompiledReply :=
  try_catch (compiled_parse_body req_body)
            (fun _ => ret (CompiledError 500 CHECK_THE_LINK)).

End Compiled.

(* ================================================================= *)
(** ** [GET /api/proxy] *)

(** What the proxy reads of the upstream response: the two headers it
    forwards and the stream it pipes to the client. *)
Record Upstream : Type := {
  content_type : option string;
  content_length : option string;
  stream : string
}.

(** The settled promise of the streaming request. *)
Inductive Download : Type :=
| Streaming (response : Upstream)
| Refused.

(** The reply of the proxy: an error payload [{ error }] with its status,
    or the headers set on the response, in order, and the stream piped
    into it. *)
Inductive ProxyReply : Type :=
| ProxyError (code : Z) (error : string)
| ProxyStream (headers : list (string * string)) (payload : string).

Definition URL_PARAMETER_REQUIRED : string := "URL parameter is required".
Definition DOWNLOAD_FAILED : string := "视频下载失败，请稍后重试".

(** [attachment; filename=...], the file name between double quotes. *)
Definition ATTACHMENT : string :=
  "attachment; filename=" ++ String (ascii_of_nat 34) "douyin_video.mp4"
  ++ String (ascii_of_nat 34) "".

(** [typeof n === 'string'] *)
Definition typeof_string {V : Type} (n : Node V) : bool :=
  match n with
  | NStr _ => true
  | _ => false
  end.

(** The request of the proxy for a URL. *)
Definition proxy_request (normalizedUrl : string) : Request :=
  {| method := GET; url := normalizedUrl; maxRedirects := 10 |}.

(** [app.get('/api/proxy', ...)], given [req.query.url] (a string, an array
    or an object as the query parser builds them, or [undefined]) and the
    requests issued so far.  [download] answers the streaming request. *)
Definition proxy (download : Net -> Request -> Download) (query_url : Node json)
    (log : Net) : ProxyReply * Net :=
  if negb (truthy query_url) || negb (typeof_string query_url)
  then (ProxyError 400 URL_PARAMETER_REQUIRED, log)
  else
    match query_url with
    | NStr url =>
        let normalizedUrl := normalizeVideoUrl url in
        match download log (proxy_request normalizedUrl) with
        | Streaming response =>
            let contentType :=
              match or_str (content_type response) (Some "video/mp4") with
              | Some t => t
              | None => "video/mp4"
              end in
            (ProxyStream
               ([("Content-Type", contentType); ("Content-Disposition", ATTACHMENT)]
                ++ match content_length response with
                   | Some contentLength =>
                       if present (Some contentLength)
                       then [("Content-Length", contentLength)]
                       else []
                   | None => []
                   end)
               (stream response),
             (log ++ [proxy_request normalizedUrl])%list)
        | Refused =>
            (ProxyError 500 DOWNLOAD_FAILED, (log ++ [proxy_request normalizedUrl])%list)
        end
    | _ => (ProxyError 400 URL_PARAMETER_REQUIRED, log)
    end.

(* ================================================================= *)
(** ** The front end: the history of [App.tsx] *)

(** A [VideoData] of the front end, as the history reads it: [url] is a
    string, as the handler sends it; the other fields are carried along. *)
Record Entry : Type := {
  entry_url : string;
  entry_cover : Node json;
  entry_desc : Node json;
  entry_isDemo : option bool
}.

(** [saveToHistory(data)], given the [history] it reads: the new history,
    which it sets as state and stores. *)
Definition saveToHistory (history : list Entry) (data : Entry) : list Entry :=
  firstn 20 (data :: filter (fun h => negb (entry_url h =? entry_url data)) history).

(* ================================================================= *)
(** ** Vocabulary of the properties *)

(** [r] is [u] with its leftmost watermark marker [playwm] replaced by
    [play]. *)
Definition unwatermarked (u r : string) : Prop :=
  exists pre post,
    u = pre ++ "playwm" ++ post
    /\ (forall k, k < String.length pre ->
                  Str.startsWith (Str.drop k u) "playwm" = false)
    /\ r = pre ++ "play" ++ post.

(** The positions of [s] at which the pattern [re] matches. *)
Definition match_positions (re : Re.regex) (s : string) : list nat :=
  filter (fun k => match Re.exec re (Str.drop k s) with
                   | Some _ => true
                   | None => false
                   end)
         (seq 0 (S (String.length s))).


(** The requests of the five strategies for an identifier, in the order
    the handler issues them. *)
Definition requests_of_strategies (videoId : string) : Net :=
  [ {| method := GET;
       url := "https://www.douyin.com/aweme/v1/web/aweme/detail/?aweme_id="
              ++ videoId
              ++ "&aid=6383&cookie_enabled=true&platform=PC&downlink=10";
       maxRedirects := 5 |};
    {| method := GET; url := "https://www.douyin.com/video/" ++ videoId;
       maxRedirects := 5 |};
    {| method := GET; url := "https://m.douyin.com/share/video/" ++ videoId;
       maxRedirects := 5 |};
    {| method := GET;
       url := "https://www.iesdouyin.com/web/api/v2/aweme/iteminfo/?item_ids="
              ++ videoId;
       maxRedirects := 5 |};
    {| method := HEAD;
       url := "https://www.douyin.com/aweme/v1/play/?video_id=" ++ videoId
              ++ "&ratio=720p&line=0";
       maxRedirects := 3 |} ].

(** A value as [x || ''] leaves it: truthy, or the empty string. *)
Definition defaulted {V : Type} (n : Node V) : Prop :=
  truthy n = true \/ n = NStr "".



(** The ways a call of the handler can go: its reply and the requests
    issued by then. *)
Inductive Course (env : Env) (req_body : Node json) (log : Net)
  : HttpReply -> Net -> Prop :=
| body_unreadable (e : error) :
    tget req_body "url" = Raise e ->
    Course env req_body log {| code := 500; body := BError (Unhandled e) |} log
| url_missing (url : Node json) :
    tget req_body "url" = Ok url ->
    truthy url = false ->
    Course env req_body log {| code := 400; body := BError UrlRequired |} log
| url_not_text (url : Node json) :
    tget req_body "url" = Ok url ->
    truthy url = true ->
    (forall text, url <> NStr text) ->
    Course env req_body log {| code := 500; body := BError (Unhandled TypeError) |} log
| resolver_raised (text : string) (e : error) (log1 : Net) :
    tget req_body "url" = Ok (NStr text) ->
    text <> "" ->
    resolveShortUrl env (target_of text) log = (Raise e, log1) ->
    Course env req_body log {| code := 500; body := BError (Unhandled e) |} log1
| no_identifier (text : string) (r : Resolved) (log1 : Net) :
    tget req_body "url" = Ok (NStr text) ->
    text <> "" ->
    resolveShortUrl env (target_of text) log = (Ok r, log1) ->
    present (videoId r) = false ->
    Course env req_body log {| code := 400; body := BError NoVideoId |} log1
| all_failed (text : string) (r : Resolved) (log1 : Net) (id : string)
    (v : Vars) (log2 : Net) :
    tget req_body "url" = Ok (NStr text) ->
    text <> "" ->
    resolveShortUrl env (target_of text) log = (Ok r, log1) ->
    videoId r = Some id ->
    id <> "" ->
    extract env id log1 = (Ok v, log2) ->
    truthy (var_videoSrc v) = false ->
    Course env req_body log {| code := 200; body := BFailure AllStrategiesFailed |} log2
| source_not_text (text : string) (r : Resolved) (log1 : Net) (id : string)
    (v : Vars) (log2 : Net) :
    tget req_body "url" = Ok (NStr text) ->
    text <> "" ->
    resolveShortUrl env (target_of text) log = (Ok r, log1) ->
    videoId r = Some id ->
    id <> "" ->
    extract env id log1 = (Ok v, log2) ->
    truthy (var_videoSrc v) = true ->
    (forall src, var_videoSrc v <> NStr src) ->
    Course env req_body log {| code := 500; body := BError (Unhandled TypeError) |} log2
| served (text : string) (r : Resolved) (log1 : Net) (id : string)
    (v : Vars) (log2 : Net) (src : string) :
    tget req_body "url" = Ok (NStr text) ->
    text <> "" ->
    resolveShortUrl env (target_of text) log = (Ok r, log1) ->
    videoId r = Some id ->
    id <> "" ->
    extract env id log1 = (Ok v, log2) ->
    var_videoSrc v = NStr src ->
    src <> "" ->
    Course env req_body log
           {| code := 200;
              body := BSuccess {| data_url := NStr (normalizeVideoUrl src);
                                  data_cover := var_coverSrc v;
                                  data_desc := or_else (var_desc v) (NStr DEFAULT_DESC);
                                  data_isDemo := None |} |}
           log2.

(** The manual request for a URL. *)
Definition hop_request (u : string) : Request :=
  {| method := GET; url := u; maxRedirects := 0 |}.

(** The network redirects the manual requests along [chain]: the request
    for [current] is answered 3xx with a [Location] that names, as it is or
    resolved against [current], the first URL of the chain, and so on from
    there. *)
Fixpoint redirects (env : Env) (log : Net) (current : string) (chain : list string)
  : Prop :=
  match chain with
  | [] => True
  | next :: rest =>
      (exists response requestUrl loc,
          axios env log (hop_request current) = Rejected (Some response) requestUrl
          /\ (300 <= status response < 400)%Z
          /\ location response = Some loc
          /\ loc <> ""
          /\ (if Str.startsWith loc "http" then loc = next
              else new_URL env loc current = Ok next))
      /\ redirects env (log ++ [hop_request current])%list next rest
  end.

(** A step of the handler that always completes. *)
Definition never_raises (m : M St unit) : Prop :=
  forall st, exists st', m st = (Ok tt, st').

(** [{ success: true, data: { ..., isDemo: true } }] *)
Definition is_demo_success (b : Body) : bool :=
  match b with
  | BSuccess d =>
      match data_isDemo d with
      | Some true => true
      | _ => false
      end
  | _ => false
  end.

(* ================================================================= *)
(** ** Sample inputs *)

(** No request gets through. *)
Definition offline : Env :=
  {| axios := fun _ _ => Rejected None None;
     new_URL := fun _ _ => Raise TypeError;
     to_number_gt0 := fun _ => Ok false;
     cheerio_load := fun _ => Ok {| render_data := None; scripts := [] |};
     decodeURIComponent := fun s => Ok s;
     JSON_parse := fun _ => Raise SyntaxError;
     match_ROUTER_DATA := fun _ => None;
     match_next_f := fun _ => None;
     match_playApi := fun _ => None;
     match_play_addr := fun _ => None;
     match_playAddr := fun _ => None |}.

(** Only the existence probe gets through, and reports success. *)
Definition probe_only : Env :=
  {| axios := fun _ r =>
       match method r with
       | HEAD => Fulfilled {| status := 200; location := None;
                              responseUrl := None; data := NStr "" |}
       | GET => Rejected None None
       end;
     new_URL := new_URL offline;
     to_number_gt0 := to_number_gt0 offline;
     cheerio_load := cheerio_load offline;
     decodeURIComponent := decodeURIComponent offline;
     JSON_parse := JSON_parse offline;
     match_ROUTER_DATA := match_ROUTER_DATA offline;
     match_next_f := match_next_f offline;
     match_playApi := match_playApi offline;
     match_play_addr := match_play_addr offline;
     match_playAddr := match_playAddr offline |}.

(** The short link answers with a redirect whose [Location] is a
    scheme-relative reference with an unterminated IPv6 host, which the URL
    parser rejects. *)
Definition broken_location : Env :=
  {| axios := fun _ _ =>
       Rejected (Some {| status := 302; location := Some "//[";
                         responseUrl := None; data := NStr "" |})
                None;
     new_URL := fun loc _ => if loc =? "//[" then Raise TypeError else Ok loc;
     to_number_gt0 := to_number_gt0 offline;
     cheerio_load := cheerio_load offline;
     decodeURIComponent := decodeURIComponent offline;
     JSON_parse := JSON_parse offline;
     match_ROUTER_DATA := match_ROUTER_DATA offline;
     match_next_f := match_next_f offline;
     match_playApi := match_playApi offline;
     match_play_addr := match_play_addr offline;
     match_playAddr := match_playAddr offline |}.

(** Every hop redirects once more, never to a URL with an identifier. *)
Definition endless_redirects : Env :=
  {| axios := fun _ r =>
       match maxRedirects r with
       | 0 => Rejected (Some {| status := 302;
                                location := Some (url r ++ "x");
                                responseUrl := None; data := NStr "" |})
                       None
       | _ => Rejected None None
       end;
     new_URL := new_URL offline;
     to_number_gt0 := to_number_gt0 offline;
     cheerio_load := cheerio_load offline;
     decodeURIComponent := decodeURIComponent offline;
     JSON_parse := JSON_parse offline;
     match_ROUTER_DATA := match_ROUTER_DATA offline;
     match_next_f := match_next_f offline;
     match_playApi := match_playApi offline;
     match_play_addr := match_play_addr offline;
     match_playAddr := match_playAddr offline |}.

Definition jstr (s : string) : json := J (NStr s).
Definition jobj (fields : list (string * json)) : json := J (NObj fields).
Definition jarr (elems : list json) : json := J (NArr elems).

(** [{ url }] *)
Definition body_of (text : string) : Node json :=
  NObj [("url", jstr text)].

(** A page URL that shows its identifier, and a short link that does not. *)
Definition page_url : string := "https://www.douyin.com/video/123".
Definition short_url : string := "https://v.douyin.com/abc/".

(** The short link redirects to a relative location, and that page to the
    page URL. *)
Definition share_url : string := "https://v.douyin.com/share/x".

Definition two_hops : Env :=
  {| axios := fun _ r =>
       if url r =? short_url
       then Rejected (Some {| status := 302; location := Some "/share/x";
                              responseUrl := None; data := NStr "" |})
                     None
       else if url r =? share_url
       then Rejected (Some {| status := 301; location := Some page_url;
                              responseUrl := None; data := NStr "" |})
                     None
       else Rejected None None;
     new_URL := fun loc _ => if loc =? "/share/x" then Ok share_url
                             else Raise TypeError;
     to_number_gt0 := to_number_gt0 offline;
     cheerio_load := cheerio_load offline;
     decodeURIComponent := decodeURIComponent offline;
     JSON_parse := JSON_parse offline;
     match_ROUTER_DATA := match_ROUTER_DATA offline;
     match_next_f := match_next_f offline;
     match_playApi := match_playApi offline;
     match_play_addr := match_play_addr offline;
     match_playAddr := match_playAddr offline |}.

(** The short link answers 200 at once and reports the page URL as the
    URL of the response. *)
Definition landing : Env :=
  {| axios := fun _ _ =>
       Fulfilled {| status := 200; location := None;
                    responseUrl := Some page_url; data := NStr "" |};
     new_URL := new_URL offline;
     to_number_gt0 := to_number_gt0 offline;
     cheerio_load := cheerio_load offline;
     decodeURIComponent := decodeURIComponent offline;
     JSON_parse := JSON_parse offline;
     match_ROUTER_DATA := match_ROUTER_DATA offline;
     match_next_f := match_next_f offline;
     match_playApi := match_playApi offline;
     match_play_addr := match_play_addr offline;
     match_playAddr := match_playAddr offline |}.

(** The requests of the five strategies for the identifier [123]. *)
Definition strategy_requests : Net :=
  [ {| method := GET;
       url := "https://www.douyin.com/aweme/v1/web/aweme/detail/?aweme_id=123&aid=6383&cookie_enabled=true&platform=PC&downlink=10";
       maxRedirects := 5 |};
    {| method := GET; url := "https://www.douyin.com/video/123"; maxRedirects := 5 |};
    {| method := GET; url := "https://m.douyin.com/share/video/123"; maxRedirects := 5 |};
    {| method := GET;
       url := "https://www.iesdouyin.com/web/api/v2/aweme/iteminfo/?item_ids=123";
       maxRedirects := 5 |};
    {| method := HEAD;
       url := "https://www.douyin.com/aweme/v1/play/?video_id=123&ratio=720p&line=0";
       maxRedirects := 3 |} ].

(** What the handler serves when only the probed URL is found. *)
Definition probed : VideoData :=
  {| data_url := NStr "https://www.douyin.com/aweme/v1/play/?video_id=123&ratio=720p&line=0";
     data_cover := NStr "";
     data_desc := NStr DEFAULT_DESC;
     data_isDemo := None |}.

(** A legacy-shape record whose first play address is the empty string. *)
Definition empty_legacy : json :=
  jobj [("video", jobj [("play_addr", jobj [("url_list", jarr [jstr ""])])])].

(** A modern-shape record. *)
Definition modern : json :=
  jobj [("video", jobj [("playApi", jstr "//v.example/x.mp4")])].

(** The two as siblings, the empty one first. *)
Definition siblings : Node json :=
  NObj [("a", empty_legacy); ("b", modern)].

(** A watermarked play address, plain and as a script escapes it. *)
Definition watermarked_url : string :=
  "https://aweme.snssdk.com/aweme/v1/playwm/?video_id=v1".

Definition watermarked_capture : string :=
  "https:" ++ escaped_slash ++ escaped_slash ++ "aweme.snssdk.com"
  ++ escaped_unicode_slash ++ "aweme" ++ escaped_unicode_slash ++ "v1"
  ++ escaped_slash ++ "playwm" ++ escaped_slash ++ "?video_id=v1".

(** A legacy-shape record with the watermarked play address. *)
Definition watermarked_legacy : Node json :=
  NObj [("video",
         jobj [("play_addr", jobj [("url_list", jarr [jstr watermarked_url])])]);
        ("desc", jstr "hi")].

(** A mobile page whose scripts carry the escaped address under
    [play_addr]. *)
Definition mobile_page : Env :=
  {| axios := axios offline;
     new_URL := new_URL offline;
     to_number_gt0 := to_number_gt0 offline;
     cheerio_load := cheerio_load offline;
     decodeURIComponent := decodeURIComponent offline;
     JSON_parse := JSON_parse offline;
     match_ROUTER_DATA := match_ROUTER_DATA offline;
     match_next_f := match_next_f offline;
     match_playApi := fun _ => None;
     match_play_addr := fun _ => Some watermarked_capture;
     match_playAddr := fun _ => None |}.

(** The detail API answers with a legacy-shape record: a watermarked play
    address and a cover, both on a host of the rewrite table, and an empty
    description.  Nothing else gets through. *)
Definition detail_body : Node json :=
  NObj [("aweme_detail",
         jobj [("video",
                jobj [("play_addr", jobj [("url_list", jarr [jstr watermarked_url])]);
                      ("cover",
                       jobj [("url_list",
                              jarr [jstr "https://aweme.snssdk.com/cover.jpg"])])]);
               ("desc", jstr "")])].

Definition detail_request : Request :=
  {| method := GET;
     url := "https://www.douyin.com/aweme/v1/web/aweme/detail/?aweme_id=123&aid=6383&cookie_enabled=true&platform=PC&downlink=10";
     maxRedirects := 5 |}.

Definition detail_api : Env :=
  {| axios := fun _ r =>
       if url r =? url detail_request
       then Fulfilled {| status := 200; location := None;
                         responseUrl := None; data := detail_body |}
       else Rejected None None;
     new_URL := new_URL offline;
     to_number_gt0 := to_number_gt0 offline;
     cheerio_load := cheerio_load offline;
     decodeURIComponent := decodeURIComponent offline;
     JSON_parse := JSON_parse offline;
     match_ROUTER_DATA := match_ROUTER_DATA offline;
     match_next_f := match_next_f offline;
     match_playApi := match_playApi offline;
     match_play_addr := match_play_addr offline;
     match_playAddr := match_playAddr offline |}.

(** What the handler serves from that answer. *)
Definition detailed : VideoData :=
  {| data_url := NStr "https://www.douyin.com/aweme/v1/play/?video_id=v1";
     data_cover := NStr "https://aweme.snssdk.com/cover.jpg";
     data_desc := NStr DEFAULT_DESC;
     data_isDemo := None |}.

(** The oracles of the compiled handler, for pages without scripts. *)
Definition no_text : Node json -> string := fun _ => "".
Definition no_list : string -> option string := fun _ => None.

(** The requests of the compiled handler for the short link, when the
    response URL is the page URL: the link itself, then the old API. *)
Definition compiled_requests : Net :=
  [ {| method := GET; url := short_url; maxRedirects := 5 |};
    {| method := GET;
       url := "https://www.iesdouyin.com/web/api/v2/aweme/iteminfo/?item_ids=123";
       maxRedirects := 5 |} ].

(** A source of bytes that yields the byte 42 over and over. *)
Definition constant_bytes (n : nat) : list Byte.byte := repeat Byte.x2a n.

(** An upstream that streams three bytes and names neither type nor
    length, and one that refuses every request. *)
Definition bare_upstream : Net -> Request -> Download :=
  fun _ _ => Streaming {| content_type := None; content_length := None;
                          stream := "abc" |}.

Definition no_upstream : Net -> Request -> Download :=
  fun _ _ => Refused.

(** History entries. *)
Definition entry (u : string) : Entry :=
  {| entry_url := u; entry_cover := NStr ""; entry_desc := NStr "";
     entry_isDemo := None |}.



(* ================================================================= *)
(** ** Vocabulary of the proofs *)

(** No position of [s] starts a match of [m]. *)
Definition free (m : Re.matcher) (s : string) : Prop :=
  forall k, m (Str.drop k s) = None.

(** Inserting [rep] into a text cannot complete a match of [m]: no match
    starts inside [rep], none runs from the text before into [rep], and a
    match is decided by the characters it spans. *)
Record inert (rep : string) (m : Re.matcher) : Prop := {
  inert_inside : forall k z, k < String.length rep -> m (Str.drop k rep ++ z) = None;
  inert_cross : forall x z n, m (x ++ rep ++ z) = Some n -> n <= String.length x;
  inert_local : forall u v v' n,
      m (u ++ v) = Some n -> n <= String.length u -> m (u ++ v') = Some n;
  inert_empty : m "" = None
}.

Arguments inert_inside {rep m} _ k z _.
Arguments inert_cross {rep m} _ x z n _.
Arguments inert_local {rep m} _ u v v' n _ _.
Arguments inert_empty {rep m} _.

(** One of the two is a prefix of the other. *)
Definition compat (a b : string) : bool :=
  Str.startsWith a b || Str.startsWith b a.

(** No non-empty suffix of [p] can run into [rep]. *)
Fixpoint suffixes_clash (rep p : string) : bool :=
  match p with
  | "" => true
  | String _ t => negb (compat p rep) && suffixes_clash rep t
  end.

(** No match of [re] runs from the text before [rep] into [rep]. *)
Fixpoint cross_ok (rep : string) (re : Re.regex) : bool :=
  match re with
  | [] => true
  | Re.Lit p :: rest => suffixes_clash rep p && cross_ok rep rest
  | Re.Plus cls :: rest =>
      negb (Str.all cls rep)
      && match rest with
         | Re.Lit q :: _ =>
             negb (compat q (Str.drop (String.length (Str.take_while cls rep)) rep))
             && cross_ok rep rest
         | _ => false
         end
  end.

(** A match of [re] is decided by the characters it spans. *)
Fixpoint local_ok (re : Re.regex) : bool :=
  match re with
  | [] => true
  | Re.Lit _ :: rest => local_ok rest
  | Re.Plus _ :: rest =>
      match rest with
      | Re.Lit (String _ _) :: _ => local_ok rest
      | _ => false
      end
  end.

(** No match of [re] starts inside [rep]; [re] starts with a character. *)
Definition inside_ok (rep : string) (re : Re.regex) : bool :=
  match re with
  | Re.Lit (String c p) :: _ =>
      forallb (fun k => negb (compat (String c p) (Str.drop k rep)))
              (seq 0 (String.length rep))
  | _ => false
  end.

Definition inert_ok (rep : string) (re : Re.regex) : bool :=
  inside_ok rep re && cross_ok rep re && local_ok re.

(** One turn of the loop of [normalizeVideoUrl]. *)
Definition rewrite_step (normalized : string) (rule : Re.regex * string) : string :=
  Re.replace_all (Re.exec (fst rule)) (snd rule) normalized.

(** No replacement of the table completes a pattern of the table. *)
Definition table_inert (table : list (Re.regex * string)) : bool :=
  forallb (fun rule => forallb (fun rule' => inert_ok (snd rule') (fst rule)) table)
          table.

(** A step leaves the variables as they are or leaves a truthy
    [videoSrc]. *)
Definition keeps {A : Type} (m : M St A) : Prop :=
  forall v log r v' log',
    m (v, log) = (r, (v', log')) ->
    v' = v \/ truthy (var_videoSrc v') = true.

(** A step that does nothing once [videoSrc] is truthy. *)
Definition guarded (m : M St unit) : Prop :=
  forall v log, truthy (var_videoSrc v) = true -> m (v, log) = (Ok tt, (v, log)).

(** A computation that issues no request. *)
Definition quiet {A : Type} (m : M Net A) : Prop :=
  forall log r log', m log = (r, log') -> log' = log.

(** The request of the fallback. *)
Definition fallback_request (u : string) : Request :=
  {| method := GET; url := u; maxRedirects := 10 |}.

(** A step whose every run relates the state before it to the state after
    it by [R]. *)
Definition respects (R : St -> St -> Prop) {A : Type} (m : M St A) : Prop :=
  forall st r st', m st = (r, st') -> R st st'.

(** The state after holds the requests of the state before, and no other. *)
Definition same_log (before after : St) : Prop := snd after = snd before.

(** The cover and the description are as [x || ''] leaves them. *)
Definition tidy (v : Vars) : Prop :=
  defaulted (var_coverSrc v) /\ defaulted (var_desc v).

Definition stays_tidy (before after : St) : Prop :=
  tidy (fst before) -> tidy (fst after).

(** A step that, run while [videoSrc] is falsy, issues the request [q] and
    no other. *)
Definition issues (m : M St unit) (q : Request) : Prop :=
  forall v log r v' log',
    truthy (var_videoSrc v) = false ->
    m (v, log) = (r, (v', log')) -> log' = (log ++ [q])%list.

(* ================================================================= *)
(** * Properties *)

Example extractVideoId_video :
  extractVideoId "https://www.douyin.com/video/7123456789?x=1" = Some "7123456789".
Proof. reflexivity. Qed.

Example extractVideoId_modal :
  extractVideoId "https://www.douyin.com/user/a?modal_id=42" = Some "42".
Proof. reflexivity. Qed.

Example extractVideoId_none :
  extractVideoId "https://v.douyin.com/iRNBho6/" = None.
Proof. reflexivity. Qed.

Example normalizeVideoUrl_vod :
  normalizeVideoUrl "https://v26-web.douyinvod.com/a/b.mp4?h=api.amemv.com"
  = "https://www.douyin.com/a/b.mp4?h=www.douyin.com".
Proof. reflexivity. Qed.

(** The patterns are tried in the order of the source, not of the text. *)
Example extractVideoId_priority :
  extractVideoId "https://www.douyin.com/note/5?from=/video/7" = Some "7".
Proof. reflexivity. Qed.

Example normalizeVideoUrl_untouched :
  normalizeVideoUrl "https://www.douyin.com/aweme/v1/play/?video_id=v1"
  = "https://www.douyin.com/aweme/v1/play/?video_id=v1".
Proof. reflexivity. Qed.

Example target_of_pasted_text :
  target_of "7.43 look https://v.douyin.com/abc/ copy this" = "https://v.douyin.com/abc/".
Proof. reflexivity. Qed.

Example findVideoInTree_legacy :
  findVideoInTree offline watermarked_legacy
  = Ok (Some {| videoSrc := NStr "https://aweme.snssdk.com/aweme/v1/play/?video_id=v1";
                coverSrc := NStr ""; desc := NStr "hi" |}).
Proof. vm_compute. reflexivity. Qed.

Example mobile_src_escaped :
  mobile_src watermarked_capture
  = "https://aweme.snssdk.com/aweme/v1/play/?video_id=v1".
Proof. vm_compute. reflexivity. Qed.

(* ================================================================= *)
(** ** Strings *)

Lemma append_assoc (a b c : string) : (a ++ b) ++ c = a ++ (b ++ c).
Proof. induction a as [|x a IH]; simpl; [reflexivity | now rewrite IH]. Qed.

Lemma append_empty_r (a : string) : a ++ "" = a.
Proof. induction a as [|x a IH]; simpl; [reflexivity | now rewrite IH]. Qed.

Lemma length_append (a b : string) :
  String.length (a ++ b) = String.length a + String.length b.
Proof. induction a as [|x a IH]; simpl; [reflexivity | now rewrite IH]. Qed.

Lemma drop_empty (k : nat) : Str.drop k "" = "".
Proof. now destruct k. Qed.

Lemma drop_drop (j k : nat) (s : string) :
  Str.drop j (Str.drop k s) = Str.drop (k + j) s.
Proof.
  revert s; induction k as [|k IH]; intros s; simpl; [reflexivity|].
  destruct s as [|c s]; [apply drop_empty | apply IH].
Qed.

Lemma drop_append (a b : string) : Str.drop (String.length a) (a ++ b) = b.
Proof. induction a as [|x a IH]; simpl; [reflexivity | exact IH]. Qed.

Lemma drop_append_le (k : nat) (a b : string) :
  k <= String.length a -> Str.drop k (a ++ b) = Str.drop k a ++ b.
Proof.
  revert a; induction k as [|k IH]; intros a Hk; [reflexivity|].
  destruct a as [|x a]; simpl in *; [lia | apply IH; lia].
Qed.

Lemma drop_append_ge (k : nat) (a b : string) :
  String.length a <= k -> Str.drop k (a ++ b) = Str.drop (k - String.length a) b.
Proof.
  revert k; induction a as [|x a IH]; intros k Hk; simpl in *.
  - now rewrite Nat.sub_0_r.
  - destruct k as [|k]; [lia | simpl; apply IH; lia].
Qed.

Lemma length_drop (k : nat) (s : string) :
  String.length (Str.drop k s) = String.length s - k.
Proof.
  revert s; induction k as [|k IH]; intros s; simpl; [lia|].
  destruct s as [|c s]; simpl; [reflexivity | apply IH].
Qed.

Lemma startsWith_append (p r : string) : Str.startsWith (p ++ r) p = true.
Proof.
  induction p as [|x p IH]; simpl; [now destruct r|].
  now rewrite Ascii.eqb_refl.
Qed.

Lemma startsWith_split (s p : string) :
  Str.startsWith s p = true -> s = p ++ Str.drop (String.length p) s.
Proof.
  revert s; induction p as [|x p IH]; intros s H; simpl in *; [reflexivity|].
  destruct s as [|c s]; [discriminate|].
  apply andb_true_iff in H as [Hc Hs].
  apply Ascii.eqb_eq in Hc; subst c. simpl. f_equal. now apply IH.
Qed.

Lemma startsWith_length (s p : string) :
  Str.startsWith s p = true -> String.length p <= String.length s.
Proof.
  intros H. rewrite (startsWith_split _ _ H), length_append. lia.
Qed.

(** A prefix test looks at no more than the prefix. *)
Lemma startsWith_local (u v v' p : string) :
  String.length p <= String.length u ->
  Str.startsWith (u ++ v') p = Str.startsWith (u ++ v) p.
Proof.
  revert u; induction p as [|x p IH]; intros u Hl; simpl.
  - now destruct (u ++ v'), (u ++ v).
  - destruct u as [|c u]; simpl in *; [lia|].
    f_equal. apply IH. lia.
Qed.

Lemma take_while_all (p : ascii -> bool) (s : string) :
  Str.all p (Str.take_while p s) = true.
Proof.
  induction s as [|c s IH]; simpl; [reflexivity|].
  destruct (p c) eqn:Hc; simpl; [now rewrite Hc | reflexivity].
Qed.

Lemma take_while_append (p : ascii -> bool) (a b : string) :
  Str.take_while p (a ++ b)
  = if Str.all p a then a ++ Str.take_while p b else Str.take_while p a.
Proof.
  induction a as [|x a IH]; simpl; [reflexivity|].
  destruct (p x); simpl; [|reflexivity].
  rewrite IH. now destruct (Str.all p a).
Qed.

Lemma take_while_length (p : ascii -> bool) (s : string) :
  String.length (Str.take_while p s) <= String.length s.
Proof.
  induction s as [|c s IH]; simpl; [lia|].
  destruct (p c); simpl; lia.
Qed.

Lemma take_while_short (p : ascii -> bool) (s : string) :
  Str.all p s = false -> String.length (Str.take_while p s) < String.length s.
Proof.
  induction s as [|c s IH]; simpl; [discriminate|].
  destruct (p c); simpl; intros H; [apply IH in H; lia | lia].
Qed.


(* ================================================================= *)
(** ** Global replacement *)

Section Rewrite.

Variable rep : string.

Lemma free_tail (m : Re.matcher) (c : ascii) (s : string) :
  free m (String c s) -> free m s.
Proof. intros H k. exact (H (S k)). Qed.

Lemma free_drop (m : Re.matcher) (j : nat) (s : string) :
  free m s -> free m (Str.drop j s).
Proof. intros H k. rewrite drop_drop. apply H. Qed.

Lemma replace_from_skip (m : Re.matcher) (k : nat) (s : string) :
  Re.replace_from m rep k s = Re.replace_all m rep (Str.drop k s).
Proof.
  revert s; induction k as [|k IH]; intros s; [reflexivity|].
  destruct s as [|c s]; [reflexivity|]. simpl. apply IH.
Qed.

Lemma replace_all_match (m : Re.matcher) (c : ascii) (s : string) (n : nat) :
  m (String c s) = Some (S n) ->
  Re.replace_all m rep (String c s) = rep ++ Re.replace_all m rep (Str.drop n s).
Proof.
  intros H. unfold Re.replace_all at 1. simpl. rewrite H.
  now rewrite replace_from_skip.
Qed.

Lemma replace_all_copy (m : Re.matcher) (c : ascii) (s : string) :
  (forall n, m (String c s) <> Some (S n)) ->
  Re.replace_all m rep (String c s) = String c (Re.replace_all m rep s).
Proof.
  intros H. unfold Re.replace_all. simpl.
  destruct (m (String c s)) as [[|n]|] eqn:E; try reflexivity.
  now elim (H n).
Qed.

(** A text free of [m] is left as it is. *)
Lemma replace_all_free (m : Re.matcher) (s : string) :
  free m s -> Re.replace_all m rep s = s.
Proof.
  induction s as [|c s IH]; intros H; [reflexivity|].
  rewrite replace_all_copy.
  - f_equal. apply IH. eapply free_tail, H.
  - intros n E. specialize (H 0). simpl in H. congruence.
Qed.

(** The output is the input, or the input up to its first match with [rep]
    in the place of the match. *)
Lemma replace_all_shape (m : Re.matcher) (s : string) :
  Re.replace_all m rep s = s
  \/ exists x y o, s = x ++ y /\ Re.replace_all m rep s = x ++ rep ++ o.
Proof.
  induction s as [|c s IH]; [now left|].
  destruct (m (String c s)) as [[|n]|] eqn:E.
  - rewrite replace_all_copy by (intros n; congruence).
    destruct IH as [-> | (x & y & o & -> & ->)]; [now left|].
    right. now exists (String c x), y, o.
  - right. exists "", (String c s), (Re.replace_all m rep (Str.drop n s)).
    split; [reflexivity|]. now apply replace_all_match.
  - rewrite replace_all_copy by (intros n; congruence).
    destruct IH as [-> | (x & y & o & -> & ->)]; [now left|].
    right. now exists (String c x), y, o.
Qed.

(** Replacing the matches of [m] leaves no match of [m'], provided the input
    has matches of [m'] only where the scan replaces. *)
Lemma replace_all_keeps_free (m m' : Re.matcher) :
  inert rep m' ->
  forall s,
    (forall k, (forall n, m (Str.drop k s) <> Some (S n)) -> m' (Str.drop k s) = None) ->
    free m' (Re.replace_all m rep s).
Proof.
  intros Hm' s.
  remember (String.length s) as len eqn:Hlen.
  assert (Hle : String.length s <= len) by lia. clear Hlen.
  revert s Hle; induction len as [|len IH]; intros s Hle H.
  - destruct s; [|simpl in Hle; lia].
    intros k. cbn. rewrite drop_empty. apply (inert_empty Hm').
  - destruct s as [|c s].
    { intros k. cbn. rewrite drop_empty. apply (inert_empty Hm'). }
    simpl in Hle.
    assert (Hcopy : (forall n, m (String c s) <> Some (S n)) ->
                    free m' (Re.replace_all m rep (String c s))).
    { intros Hno. rewrite replace_all_copy by exact Hno.
      assert (Hs : free m' (Re.replace_all m rep s)).
      { apply IH; [lia|]. intros k. apply (H (S k)). }
      assert (H0 : m' (String c s) = None) by (apply (H 0); exact Hno).
      intros [|k]; [|apply Hs]. simpl.
      destruct (replace_all_shape m s) as [-> | (x & y & o & Hxy & ->)]; [exact H0|].
      destruct (m' (String c (x ++ rep ++ o))) as [n'|] eqn:E'; [|reflexivity].
      assert (Hn : n' <= String.length (String c x))
        by (apply (inert_cross Hm' (String c x) o n'); exact E').
      pose proof (inert_local Hm' (String c x) (rep ++ o) y n' E' Hn) as Hl.
      simpl in Hl. rewrite <- Hxy in Hl. congruence. }
    destruct (m (String c s)) as [[|n]|] eqn:E;
      [apply Hcopy; intros n; congruence | | apply Hcopy; intros n; congruence].
    rewrite (replace_all_match _ _ _ _ E).
    assert (Hs : free m' (Re.replace_all m rep (Str.drop n s))).
    { apply IH; [rewrite length_drop; lia|].
      intros k. rewrite drop_drop. apply (H (S (n + k))). }
    intros k. destruct (Nat.lt_ge_cases k (String.length rep)) as [Hk|Hk].
    + rewrite drop_append_le by lia. now apply (inert_inside Hm').
    + rewrite drop_append_ge by lia. apply Hs.
Qed.

End Rewrite.


(* ================================================================= *)
(** ** Expressions that a replacement text cannot complete *)

Section Inert.

Variable rep : string.

Lemma compat_prefix (a z q : string) :
  Str.startsWith (a ++ z) q = true -> compat q a = true.
Proof.
  unfold compat. revert q; induction a as [|c a IH]; intros q H.
  - destruct q; reflexivity.
  - destruct q as [|d q]; [reflexivity|]. simpl in *.
    apply andb_true_iff in H as [Hc Hq]. apply IH in Hq.
    rewrite Hc. rewrite Ascii.eqb_sym in Hc. now rewrite Hc.
Qed.

Lemma literal_stays_out (p x z : string) :
  suffixes_clash rep p = true ->
  Str.startsWith (x ++ rep ++ z) p = true ->
  String.length p <= String.length x.
Proof.
  revert p; induction x as [|c x IH]; intros p Hp H.
  - destruct p as [|a p]; [simpl; lia|].
    simpl in Hp. apply andb_true_iff in Hp as [Hp _].
    simpl append in H. apply (compat_prefix rep z) in H.
    rewrite H in Hp. discriminate.
  - destruct p as [|a p]; [simpl; lia|].
    simpl in Hp. apply andb_true_iff in Hp as [_ Hp].
    simpl in H. apply andb_true_iff in H as [_ H].
    specialize (IH p Hp H). simpl. lia.
Qed.

Lemma exec_lit (p : string) (rest : Re.regex) (s : string) (n : nat) :
  Re.exec (Re.Lit p :: rest) s = Some n ->
  Str.startsWith s p = true
  /\ exists n0, Re.exec rest (Str.drop (String.length p) s) = Some n0
                /\ n = String.length p + n0.
Proof.
  cbn [Re.exec]. destruct (Str.startsWith s p); [|discriminate].
  destruct (Re.exec rest _) as [n0|]; [|discriminate].
  intros [= <-]. split; [reflexivity|]. now exists n0.
Qed.

Lemma exec_plus (cls : ascii -> bool) (rest : Re.regex) (s : string) (n : nat) :
  Re.exec (Re.Plus cls :: rest) s = Some n ->
  Str.take_while cls s <> ""
  /\ exists n0, Re.exec rest (Str.drop (String.length (Str.take_while cls s)) s) = Some n0
                /\ n = String.length (Str.take_while cls s) + n0.
Proof.
  cbn [Re.exec]. destruct (Str.take_while cls s) as [|c r] eqn:E; [discriminate|].
  destruct (Re.exec rest _) as [n0|]; [|discriminate].
  intros [= <-]. split; [discriminate|]. now exists n0.
Qed.

Lemma exec_plus_intro (cls : ascii -> bool) (rest : Re.regex) (s : string) (n0 : nat) :
  Str.take_while cls s <> "" ->
  Re.exec rest (Str.drop (String.length (Str.take_while cls s)) s) = Some n0 ->
  Re.exec (Re.Plus cls :: rest) s = Some (String.length (Str.take_while cls s) + n0).
Proof.
  intros Hne H0. cbn [Re.exec].
  destruct (Str.take_while cls s) as [|c r] eqn:E; [congruence|].
  now rewrite H0.
Qed.

Lemma exec_cross (re : Re.regex) :
  cross_ok rep re = true ->
  forall x z n, Re.exec re (x ++ rep ++ z) = Some n -> n <= String.length x.
Proof.
  induction re as [|[p|cls] rest IH]; intros Hok x z n H.
  - simpl in H. injection H as <-. lia.
  - simpl in Hok. apply andb_true_iff in Hok as [Hp Hrest].
    apply exec_lit in H as (Hs & n0 & H0 & ->).
    pose proof (literal_stays_out _ _ _ Hp Hs) as Hl.
    rewrite drop_append_le in H0 by exact Hl.
    apply IH in H0; [|exact Hrest]. rewrite length_drop in H0. lia.
  - simpl in Hok. apply andb_true_iff in Hok as [Hall Hq].
    apply negb_true_iff in Hall.
    destruct rest as [|[q|?] rest']; try discriminate.
    apply andb_true_iff in Hq as [Hq Hrest]. apply negb_true_iff in Hq.
    apply exec_plus in H as (Hne & n0 & H0 & ->).
    rewrite take_while_append in H0, Hne |- *.
    destruct (Str.all cls x) eqn:Hx.
    + exfalso.
      rewrite take_while_append, Hall in H0.
      rewrite (drop_append_ge _ x) in H0 by (rewrite length_append; lia).
      rewrite length_append in H0.
      replace (String.length x + String.length (Str.take_while cls rep) - String.length x)
        with (String.length (Str.take_while cls rep)) in H0 by lia.
      rewrite drop_append_le in H0 by apply take_while_length.
      apply exec_lit in H0 as [Hs _].
      apply compat_prefix in Hs. congruence.
    + pose proof (take_while_length cls x) as Hl.
      rewrite drop_append_le in H0 by exact Hl.
      apply IH in H0; [|exact Hrest]. rewrite length_drop in H0. lia.
Qed.

Lemma exec_lit_length (p : string) (rest : Re.regex) (s : string) (n : nat) :
  Re.exec (Re.Lit p :: rest) s = Some n -> String.length p <= n.
Proof. intros H. apply exec_lit in H as (_ & n0 & _ & ->). lia. Qed.

Lemma exec_local (re : Re.regex) :
  local_ok re = true ->
  forall u v v' n,
    Re.exec re (u ++ v) = Some n -> n <= String.length u ->
    Re.exec re (u ++ v') = Some n.
Proof.
  induction re as [|[p|cls] rest IH]; intros Hok u v v' n H Hn.
  - exact H.
  - simpl in Hok.
    apply exec_lit in H as (Hs & n0 & H0 & ->).
    assert (Hp : String.length p <= String.length u) by lia.
    rewrite drop_append_le in H0 by exact Hp.
    simpl. rewrite (startsWith_local u v v' p Hp), Hs.
    rewrite drop_append_le by exact Hp.
    rewrite (IH Hok _ _ v' _ H0); [reflexivity|]. rewrite length_drop. lia.
  - simpl in Hok.
    destruct rest as [|[[|c q]|?] rest']; try discriminate.
    apply exec_plus in H as (Hne & n0 & H0 & ->).
    pose proof (exec_lit_length _ _ _ _ H0) as Hq. simpl in Hq.
    rewrite take_while_append in H0, Hne, Hn |- *.
    destruct (Str.all cls u) eqn:Hu.
    { rewrite length_append in Hn. lia. }
    pose proof (take_while_length cls u) as Hl.
    rewrite drop_append_le in H0 by exact Hl.
    assert (Ht : Str.take_while cls (u ++ v') = Str.take_while cls u)
      by (now rewrite take_while_append, Hu).
    rewrite <- Ht. apply exec_plus_intro; rewrite Ht; [exact Hne|].
    rewrite drop_append_le by exact Hl.
    apply (IH Hok _ v); [exact H0|]. rewrite length_drop. lia.
Qed.

Lemma exec_inside (re : Re.regex) :
  inside_ok rep re = true ->
  forall k z, k < String.length rep -> Re.exec re (Str.drop k rep ++ z) = None.
Proof.
  intros Hok k z Hk.
  destruct re as [|[[|c p]|?] rest]; try discriminate.
  unfold inside_ok in Hok. rewrite forallb_forall in Hok.
  specialize (Hok k). rewrite in_seq in Hok.
  assert (Hc : negb (compat (String c p) (Str.drop k rep)) = true) by (apply Hok; lia).
  apply negb_true_iff in Hc.
  destruct (Re.exec (Re.Lit (String c p) :: rest) (Str.drop k rep ++ z)) as [n|] eqn:E;
    [|reflexivity].
  apply exec_lit in E as [Hs _]. apply compat_prefix in Hs. congruence.
Qed.

Lemma exec_nonempty (re : Re.regex) (s : string) :
  inside_ok rep re = true -> forall n, Re.exec re s = Some n -> n <> 0.
Proof.
  intros Hok n H.
  destruct re as [|[[|c p]|?] rest]; try discriminate.
  apply exec_lit_length in H. simpl in H. lia.
Qed.

Lemma exec_inert (re : Re.regex) :
  inert_ok rep re = true -> inert rep (Re.exec re).
Proof.
  unfold inert_ok. intros H.
  apply andb_true_iff in H as [H Hl]. apply andb_true_iff in H as [Hi Hc].
  split.
  - now apply exec_inside.
  - now apply exec_cross.
  - now apply exec_local.
  - destruct (Re.exec re "") as [n|] eqn:E; [|reflexivity].
    destruct re as [|[[|c p]|?] rest]; discriminate.
Qed.

End Inert.


(* ================================================================= *)
(** ** A rewrite table whose replacements complete no pattern *)

Section Table.

Variable table : list (Re.regex * string).
Hypothesis table_ok : table_inert table = true.

Lemma table_pair (rule rule' : Re.regex * string) :
  In rule table -> In rule' table -> inert_ok (snd rule') (fst rule) = true.
Proof.
  intros H H'. unfold table_inert in table_ok.
  rewrite forallb_forall in table_ok. specialize (table_ok _ H).
  rewrite forallb_forall in table_ok. exact (table_ok _ H').
Qed.

Lemma step_keeps_free (rule rule' : Re.regex * string) (s : string) :
  In rule table -> In rule' table ->
  free (Re.exec (fst rule)) s ->
  free (Re.exec (fst rule)) (rewrite_step s rule').
Proof.
  intros H H' Hs. unfold rewrite_step.
  apply replace_all_keeps_free.
  - apply exec_inert. now apply table_pair.
  - intros k _. apply Hs.
Qed.

Lemma step_makes_free (rule : Re.regex * string) (s : string) :
  In rule table -> free (Re.exec (fst rule)) (rewrite_step s rule).
Proof.
  intros H. unfold rewrite_step.
  pose proof (table_pair _ _ H H) as Hok.
  apply replace_all_keeps_free.
  - now apply exec_inert.
  - intros k Hk.
    destruct (Re.exec (fst rule) (Str.drop k s)) as [[|n]|] eqn:E; [|now elim (Hk n)|reflexivity].
    unfold inert_ok in Hok. apply andb_true_iff in Hok as [Hok _].
    apply andb_true_iff in Hok as [Hok _].
    now elim (exec_nonempty _ _ _ Hok _ E).
Qed.

Lemma fold_keeps_free (rules : list (Re.regex * string)) :
  incl rules table ->
  forall rule s, In rule table ->
    free (Re.exec (fst rule)) s ->
    free (Re.exec (fst rule)) (fold_left rewrite_step rules s).
Proof.
  induction rules as [|r rules IH]; intros Hin rule s Hr Hs; [exact Hs|].
  simpl. apply IH; [intros x Hx; apply Hin; now right | exact Hr|].
  apply step_keeps_free; [exact Hr | apply Hin; now left | exact Hs].
Qed.

Lemma fold_makes_free (rules : list (Re.regex * string)) :
  incl rules table ->
  forall rule s, In rule rules ->
    free (Re.exec (fst rule)) (fold_left rewrite_step rules s).
Proof.
  induction rules as [|r rules IH]; intros Hin rule s Hr; [destruct Hr|].
  assert (Hrules : incl rules table) by (intros x Hx; apply Hin; now right).
  simpl. destruct Hr as [<- | Hr].
  - apply fold_keeps_free; [exact Hrules | apply Hin; now left|].
    apply step_makes_free. apply Hin; now left.
  - now apply IH.
Qed.

Lemma fold_fixed (rules : list (Re.regex * string)) (s : string) :
  (forall rule, In rule rules -> free (Re.exec (fst rule)) s) ->
  fold_left rewrite_step rules s = s.
Proof.
  induction rules as [|r rules IH]; intros H; [reflexivity|].
  simpl. unfold rewrite_step at 2.
  rewrite replace_all_free by (apply H; now left).
  apply IH. intros rule Hr. apply H. now right.
Qed.

Lemma fold_idempotent (s : string) :
  fold_left rewrite_step table (fold_left rewrite_step table s)
  = fold_left rewrite_step table s.
Proof.
  apply fold_fixed. intros rule Hr.
  apply fold_makes_free; [apply incl_refl | exact Hr].
Qed.

End Table.

Lemma DOMAIN_REPLACEMENTS_inert : table_inert DOMAIN_REPLACEMENTS = true.
Proof. vm_compute. reflexivity. Qed.

(** C7. [normalizeVideoUrl] is idempotent: normalizing a normalized URL
    changes nothing, because no pattern of [DOMAIN_REPLACEMENTS] matches
    anywhere in a normalized URL: a replacement host completes none of
    them. *)
Theorem normalizeVideoUrl_idempotent (u : string) :
  normalizeVideoUrl (normalizeVideoUrl u) = normalizeVideoUrl u
  /\ Forall (fun rule => forall k, Re.exec (fst rule) (Str.drop k (normalizeVideoUrl u)) = None)
            DOMAIN_REPLACEMENTS.
Proof.
  split.
  - apply (fold_idempotent _ DOMAIN_REPLACEMENTS_inert).
  - apply Forall_forall. intros rule Hr.
    apply (fold_makes_free _ DOMAIN_REPLACEMENTS_inert); [apply incl_refl | exact Hr].
Qed.


(* ================================================================= *)
(** ** The deep search *)

Section SearchFacts.

Context {V E : Type}.
Variable view : V -> Node V.
Variable type_error : E.
Variable coerce_gt0 : Node V -> result E bool.

Local Abbreviation find := (findVideoInObject view type_error coerce_gt0).
Local Abbreviation outcome := (option (result E (option (VideoInfo (V := V))))).

Lemma first_usable_mono (f g : V -> outcome) (cs : list V) (r : result E (option VideoInfo)) :
  (forall c r', In c cs -> f c = Some r' -> g c = Some r') ->
  first_usable f cs = Some r -> first_usable g cs = Some r.
Proof.
  induction cs as [|c cs IH]; intros Hfg H; [exact H|].
  simpl in *. destruct (f c) as [[o|e]|] eqn:Ef; [| |discriminate].
  - rewrite (Hfg c _ (or_introl eq_refl) Ef).
    destruct (usable o); [exact H|]. apply IH; [|exact H].
    intros c' r' Hc'. apply Hfg. now right.
  - now rewrite (Hfg c _ (or_introl eq_refl) Ef).
Qed.

Lemma first_usable_ext (f g : V -> outcome) (cs : list V) :
  (forall c, In c cs -> f c = g c) -> first_usable f cs = first_usable g cs.
Proof.
  induction cs as [|c cs IH]; intros Hfg; [reflexivity|].
  simpl. rewrite (Hfg c (or_introl eq_refl)).
  destruct (g c) as [[o|e]|]; try reflexivity.
  destruct (usable o); [reflexivity|]. apply IH. intros c' Hc'. apply Hfg. now right.
Qed.

(** More fuel does not change an answer. *)
Lemma find_step (n : nat) (obj : Node V) (r : result E (option VideoInfo)) :
  find n obj = Some r -> find (S n) obj = Some r.
Proof.
  revert obj r; induction n as [|n IH]; intros obj r H; [discriminate|].
  cbn [findVideoInObject] in H |- *.
  destruct (negb (truthy obj) || negb (typeof_object obj)); [exact H|].
  destruct (match_shapes view type_error coerce_gt0 obj) as [[info|]|e]; try exact H.
  revert H. apply first_usable_mono. intros c r' _. apply IH.
Qed.

Lemma find_mono (n m : nat) (obj : Node V) (r : result E (option VideoInfo)) :
  n <= m -> find n obj = Some r -> find m obj = Some r.
Proof.
  induction 1 as [|m _ IH]; intros H; [exact H|]. apply find_step, IH, H.
Qed.




End SearchFacts.

(** *** On JSON trees *)

Lemma view_tree_J (t : json) : J (view_tree t) = t.
Proof. now destruct t. Qed.

Lemma height_child (obj : Node json) (c : json) :
  In c (children obj) -> height c < height (J obj).
Proof.
  destruct obj as [| | | | |elems|fields]; simpl; try tauto.
  - induction elems as [|x elems IH]; simpl; [tauto|].
    intros [-> | H]; [lia|]. apply IH in H. lia.
  - induction fields as [|[k x] fields IH]; simpl; [tauto|].
    intros [-> | H]; [lia|]. apply IH in H. lia.
Qed.

Section TreeSearch.

Variable env : Env.

Local Abbreviation find := (findVideoInObject view_tree TypeError (to_number_gt0 env)).

(** On a tree the search returns, and calls no deeper than the tree is
    high. *)
Lemma findVideoInObject_tree_returns (n : nat) (obj : Node json) :
  height (J obj) < n -> exists r, find n obj = Some r.
Proof.
  revert obj; induction n as [|n IH]; intros obj Hn; [lia|].
  cbn [findVideoInObject].
  destruct (negb (truthy obj) || negb (typeof_object obj)); [eauto|].
  destruct (match_shapes _ _ _ obj) as [[info|]|e]; eauto.
  assert (Hc : forall c, In c (children obj) -> exists r, find n (view_tree c) = Some r).
  { intros c Hc. apply IH. rewrite view_tree_J.
    apply height_child in Hc. lia. }
  induction (children obj) as [|c cs IHcs]; simpl; [eauto|].
  destruct (Hc c (or_introl eq_refl)) as [[o|e] ->]; [|eauto].
  destruct (usable o); [eauto|]. apply IHcs. intros c' Hc'. apply Hc. now right.
Qed.

Lemma find_tree (n : nat) (obj : Node json) :
  height (J obj) < n -> find n obj = Some (findVideoInTree env obj).
Proof.
  intros Hn. unfold findVideoInTree.
  destruct (findVideoInObject_tree_returns (S (height (J obj))) obj) as [r Hr]; [lia|].
  rewrite Hr. apply (find_mono _ _ _ (S (height (J obj)))); [lia | exact Hr].
Qed.

(** The search on a tree, one node at a time. *)
Lemma findVideoInTree_unfold (obj : Node json) :
  findVideoInTree env obj
  = if negb (truthy obj) || negb (typeof_object obj) then Ok None
    else match match_shapes view_tree TypeError (to_number_gt0 env) obj with
         | Raise e => Raise e
         | Ok (Some info) => Ok (Some info)
         | Ok None =>
             match first_usable (fun c => Some (findVideoInTree env (view_tree c)))
                                (children obj) with
             | Some r => r
             | None => Raise RangeError
             end
         end.
Proof.
  unfold findVideoInTree at 1. cbn [findVideoInObject].
  destruct (negb (truthy obj) || negb (typeof_object obj)); [reflexivity|].
  destruct (match_shapes _ _ _ obj) as [[info|]|e]; try reflexivity.
  rewrite (first_usable_ext _
             (fun c => Some (findVideoInTree env (view_tree c)))); [reflexivity|].
  intros c Hc. apply find_tree. rewrite view_tree_J. now apply height_child.
Qed.

End TreeSearch.


(* ================================================================= *)
(** ** The leftmost marker *)

Lemma replace_first_leftmost (pat rep u : string) :
  Str.includes u pat = true ->
  exists pre post,
    u = pre ++ pat ++ post
    /\ (forall k, k < String.length pre -> Str.startsWith (Str.drop k u) pat = false)
    /\ Str.replace_first pat rep u = pre ++ rep ++ post.
Proof.
  induction u as [|c u IH]; cbn [Str.includes Str.replace_first]; intros H.
  - rewrite orb_false_r in H. rewrite H.
    exists "", (Str.drop (String.length pat) "").
    split; [now apply startsWith_split|]. split; [simpl; lia | reflexivity].
  - destruct (Str.startsWith (String c u) pat) eqn:E.
    + exists "", (Str.drop (String.length pat) (String c u)).
      split; [now apply startsWith_split|]. split; [simpl; lia | reflexivity].
    + simpl in H. destruct (IH H) as (pre & post & Hu & Hleft & Hr).
      exists (String c pre), post. split; [simpl; now f_equal|]. split.
      * intros [|k] Hk; [exact E|]. simpl in Hk |- *. apply Hleft. lia.
      * simpl. now f_equal.
Qed.

Lemma replace_first_unwatermarked (u : string) :
  Str.includes u "playwm" = true ->
  unwatermarked u (Str.replace_first "playwm" "play" u).
Proof.
  intros H. destruct (replace_first_leftmost "playwm" "play" u H) as (pre & post & ? & ? & ?).
  now exists pre, post.
Qed.

(** ** The deep search on parsed JSON *)

Section Claims.

Variable env : Env.

Local Abbreviation find := (findVideoInTree env).
Local Abbreviation playApi := (shape_playApi view_tree (E := error) TypeError).
Local Abbreviation play_addr := (shape_play_addr view_tree TypeError (to_number_gt0 env)).
Local Abbreviation download_addr := (shape_download_addr view_tree TypeError (to_number_gt0 env)).
Local Abbreviation shapes := (match_shapes view_tree TypeError (to_number_gt0 env)).

Lemma shape_needs_object (o : Node json) (info : VideoInfo) :
  shapes o = Ok (Some info) -> negb (truthy o) || negb (typeof_object o) = false.
Proof.
  destruct o as [| | | | |elems|fields]; try reflexivity;
    unfold match_shapes, shape_playApi, shape_play_addr, shape_download_addr, get;
    simpl; discriminate.
Qed.

Lemma find_shape (o : Node json) (info : VideoInfo) :
  shapes o = Ok (Some info) -> find o = Ok (Some info).
Proof.
  intros H. rewrite findVideoInTree_unfold, (shape_needs_object _ _ H), H. reflexivity.
Qed.




(** C8. A media URL [u] that contains the watermark marker [playwm] comes
    back with its leftmost marker replaced by [play], both when [u] is the
    first play address of a legacy-shape record found by the deep search
    and when [u] is what the mobile-page callback makes of a pattern
    capture. *)
Theorem watermark_marker_replaced (u : string) :
  Str.includes u "playwm" = true ->
  (forall o video,
      tget o "video" = Ok video ->
      truthy video = true ->
      playApi o = Ok None ->
      has_url_list view_tree TypeError (to_number_gt0 env) video "play_addr" = Ok true ->
      own view_tree (own view_tree (own view_tree video "play_addr") "url_list") "0"
      = NStr u ->
      exists info s,
        find o = Ok (Some info) /\ videoSrc info = NStr s /\ unwatermarked u s)
  /\ (forall content capture v log,
      truthy (var_videoSrc v) = false ->
      Str.includes content "playAddr" || Str.includes content "play_addr"
      || Str.includes content "playApi" = true ->
      first_capture [match_playApi env content; match_play_addr env content;
                     match_playAddr env content] = Some capture ->
      with_scheme (unescape_slashes capture) = u ->
      exists s,
        mobile_script env content (v, log)
        = (Ok tt, ({| var_videoSrc := NStr s;
                      var_coverSrc := var_coverSrc v;
                      var_desc := var_desc v |}, log))
        /\ unwatermarked u s).
Proof.
  intros Hu. split.
  - intros o video Hget Hvideo Hmodern Hlist Hfirst.
    eexists. exists (Str.replace_first "playwm" "play" u).
    split; [|split; [|now apply replace_first_unwatermarked]].
    + apply find_shape. unfold match_shapes. rewrite Hmodern.
      unfold shape_play_addr. unfold tget in Hget. rewrite Hget, Hvideo, Hlist, Hfirst.
      cbn [call_replace]. reflexivity.
    + reflexivity.
  - intros content capture v log Hv Hguard Hcap <-.
    exists (mobile_src capture). split; [|now apply replace_first_unwatermarked].
    unfold mobile_script, unless_found, bind, read_vars. cbn [fst].
    rewrite Hv, Hguard, Hcap. reflexivity.
Qed.


End Claims.




Lemma watermark_marker_replaced_witness :
  Str.includes watermarked_url "playwm" = true
  /\ (exists info s,
        findVideoInTree offline watermarked_legacy = Ok (Some info)
        /\ videoSrc info = NStr s /\ unwatermarked watermarked_url s)
  /\ (exists s,
        mobile_script mobile_page "play_addr" (initial_vars, [])
        = (Ok tt, ({| var_videoSrc := NStr s;
                      var_coverSrc := var_coverSrc initial_vars;
                      var_desc := var_desc initial_vars |}, []))
        /\ unwatermarked watermarked_url s).
Proof.
  split; [reflexivity|]. split.
  - apply (proj1 (watermark_marker_replaced offline watermarked_url eq_refl)
                 watermarked_legacy
                 (view_tree (jobj [("play_addr",
                                    jobj [("url_list", jarr [jstr watermarked_url])])])));
      reflexivity.
  - apply (proj2 (watermark_marker_replaced mobile_page watermarked_url eq_refl)
                 "play_addr" watermarked_capture initial_vars []); reflexivity.
Defined.



(* ================================================================= *)
(** ** Non-empty strings stay non-empty *)

Lemma append_nonempty_l (a b : string) : a <> "" -> a ++ b <> "".
Proof. destruct a; [congruence | discriminate]. Qed.

Lemma replace_first_nonempty (pat rep s : string) :
  rep <> "" -> s <> "" -> Str.replace_first pat rep s <> "".
Proof.
  intros Hrep Hs. destruct s as [|c s]; [congruence|].
  cbn [Str.replace_first]. destruct (Str.startsWith (String c s) pat).
  - now apply append_nonempty_l.
  - discriminate.
Qed.

Lemma replace_all_nonempty (m : Re.matcher) (rep s : string) :
  rep <> "" -> s <> "" -> Re.replace_all m rep s <> "".
Proof.
  intros Hrep Hs. destruct s as [|c s]; [congruence|].
  destruct (m (String c s)) as [[|n]|] eqn:E.
  - rewrite replace_all_copy by (intros n; congruence). discriminate.
  - rewrite (replace_all_match _ _ _ _ _ E). now apply append_nonempty_l.
  - rewrite replace_all_copy by (intros n; congruence). discriminate.
Qed.

Lemma normalizeVideoUrl_nonempty (u : string) :
  u <> "" -> normalizeVideoUrl u <> "".
Proof.
  intros H. unfold normalizeVideoUrl, DOMAIN_REPLACEMENTS. cbn [fold_left fst snd].
  repeat apply replace_all_nonempty; (discriminate || exact H).
Qed.

Lemma truthy_NStr {V : Type} (s : string) :
  truthy (NStr s : Node V) = true <-> s <> "".
Proof.
  simpl. rewrite negb_true_iff. apply String.eqb_neq.
Qed.

Lemma present_Some (s : string) : present (Some s) = true <-> s <> "".
Proof.
  simpl. rewrite negb_true_iff. apply String.eqb_neq.
Qed.

(** ** Matches found by a search *)

Lemma search_found {A : Type} (m : string -> option A) (s : string) (a : A) :
  Re.search m s = Some a -> exists k, m (Str.drop k s) = Some a.
Proof.
  induction s as [|c s IH]; cbn [Re.search].
  - destruct (m "") eqn:E; [|discriminate]. intros [= <-]. now exists 0.
  - destruct (m (String c s)) eqn:E.
    + intros [= <-]. now exists 0.
    + intros H. destruct (IH H) as [k Hk]. now exists (S k).
Qed.

Lemma digits_after_nonempty (p s d : string) :
  Re.digits_after p s = Some d -> d <> "".
Proof.
  unfold Re.digits_after. destruct (Str.startsWith s p); [|discriminate].
  destruct (Str.take_while _ _); [discriminate|]. intros [= <-]. discriminate.
Qed.

(** An extracted identifier is a non-empty string, hence truthy. *)
Lemma extractVideoId_present (u : string) :
  present (extractVideoId u) = true <-> extractVideoId u <> None.
Proof.
  unfold extractVideoId.
  destruct (Re.search (Re.digits_after "/video/") u) as [d|] eqn:E1.
  { apply search_found in E1 as [k Hk]. apply digits_after_nonempty in Hk.
    rewrite present_Some. split; [discriminate | intros _; exact Hk]. }
  destruct (Re.search (Re.digits_after "/note/") u) as [d|] eqn:E2.
  { apply search_found in E2 as [k Hk]. apply digits_after_nonempty in Hk.
    rewrite present_Some. split; [discriminate | intros _; exact Hk]. }
  destruct (Re.search (Re.digits_after "modal_id=") u) as [d|] eqn:E3.
  { apply search_found in E3 as [k Hk]. apply digits_after_nonempty in Hk.
    rewrite present_Some. split; [discriminate | intros _; exact Hk]. }
  simpl. split; [discriminate | congruence].
Qed.

Lemma mp4_url_nonempty (s w : string) : Re.mp4_url s = Some w -> w <> "".
Proof.
  unfold Re.mp4_url.
  destruct (Str.startsWith s "http://").
  { destruct (Str.take_while _ _); [discriminate|].
    destruct (Str.includes _ _); [|discriminate]. intros [= <-]. discriminate. }
  destruct (Str.startsWith s "https://"); [|discriminate].
  destruct (Str.take_while _ _); [discriminate|].
  destruct (Str.includes _ _); [|discriminate]. intros [= <-]. discriminate.
Qed.

Lemma mobile_src_nonempty (capture : string) : mobile_src capture <> "".
Proof.
  unfold mobile_src. apply replace_first_nonempty; [discriminate|].
  unfold with_scheme.
  destruct (Str.startsWith _ "//"); [discriminate|].
  destruct (Str.startsWith (unescape_slashes capture) "http") eqn:E; [|discriminate].
  intros H. rewrite H in E. discriminate.
Qed.

(** ** Steps of the handler and its variables *)

Lemma keeps_ret {A : Type} (a : A) : keeps (ret a).
Proof. intros v log r v' log' [= _ <- _]. now left. Qed.

Lemma keeps_raise {A : Type} (e : error) : keeps (raise (A := A) e).
Proof. intros v log r v' log' [= _ <- _]. now left. Qed.

Lemma keeps_lift {A : Type} (x : result error A) : keeps (lift x).
Proof. intros v log r v' log' [= _ <- _]. now left. Qed.

Lemma keeps_read_vars : keeps read_vars.
Proof. intros v log r v' log' [= _ <- _]. now left. Qed.

Lemma keeps_on_net {A : Type} (m : M Net A) : keeps (on_net m).
Proof.
  intros v log r v' log'. unfold on_net. simpl.
  destruct (m log) as [r0 log0]. intros [= _ <- _]. now left.
Qed.

Lemma keeps_write_vars (w : Vars) :
  truthy (var_videoSrc w) = true -> keeps (write_vars w).
Proof. intros H v log r v' log' [= _ <- _]. now right. Qed.

Lemma keeps_bind {A B : Type} (m : M St A) (k : A -> M St B) :
  keeps m -> (forall a, keeps (k a)) -> keeps (bind m k).
Proof.
  intros Hm Hk v log r v' log'. unfold bind.
  destruct (m (v, log)) as [[a|e] [v1 log1]] eqn:E.
  - intros H. apply Hm in E. apply Hk in H.
    destruct H as [-> | H]; [exact E | now right].
  - intros [= _ <- _]. now apply Hm in E.
Qed.

Lemma keeps_try_catch {A : Type} (m : M St A) (h : error -> M St A) :
  keeps m -> (forall e, keeps (h e)) -> keeps (try_catch m h).
Proof.
  intros Hm Hh v log r v' log'. unfold try_catch.
  destruct (m (v, log)) as [[a|e] [v1 log1]] eqn:E.
  - intros [= _ <- _]. now apply Hm in E.
  - intros H. apply Hm in E. apply Hh in H.
    destruct H as [-> | H]; [exact E | now right].
Qed.

Lemma keeps_unless_found (m : M St unit) : keeps m -> keeps (unless_found m).
Proof.
  intros Hm. unfold unless_found. apply keeps_bind; [apply keeps_read_vars|].
  intros v. destruct (truthy (var_videoSrc v)); [apply keeps_ret | exact Hm].
Qed.

Lemma keeps_each (cb : string -> M St unit) (contents : list string) :
  (forall c, keeps (cb c)) -> keeps (each cb contents).
Proof.
  intros H. induction contents as [|c cs IH]; simpl; [apply keeps_ret|].
  apply keeps_bind; [apply H | intros _; exact IH].
Qed.

Lemma keeps_keep_if_usable (r : option (VideoInfo (V := json))) : keeps (keep_if_usable r).
Proof.
  unfold keep_if_usable. destruct r as [info|]; [|apply keeps_ret].
  destruct (truthy (videoSrc info)) eqn:E; [|apply keeps_ret].
  apply keeps_bind; [|intros _; apply keeps_ret].
  unfold assign. now apply keeps_write_vars.
Qed.

Lemma keeps_set_videoSrc (s : string) : s <> "" -> keeps (set_videoSrc (NStr s)).
Proof.
  intros H. unfold set_videoSrc. apply keeps_bind; [apply keeps_read_vars|].
  intros v. apply keeps_write_vars. now apply truthy_NStr.
Qed.

Lemma keeps_bind_lift {A B : Type} (x : result error A) (k : A -> M St B) :
  (forall a, x = Ok a -> keeps (k a)) -> keeps (bind (lift x) k).
Proof.
  intros Hk v log r v' log'. unfold bind, lift.
  destruct x as [a|e]; [apply (Hk a eq_refl)|].
  intros [= _ <- _]. now left.
Qed.

Create HintDb keeps.
#[local] Hint Resolve keeps_ret keeps_raise keeps_lift keeps_read_vars keeps_on_net
  keeps_keep_if_usable : keeps.

(** Walks through a step of the handler along its syntax. *)
Ltac keeps_step :=
  match goal with
  | |- keeps (bind (lift _) _) => apply keeps_bind_lift; intros ? ?
  | |- keeps (bind _ _) => apply keeps_bind; [|intros ?]
  | |- keeps (try_catch _ _) => apply keeps_try_catch; [|intros ?]
  | |- keeps (unless_found _) => apply keeps_unless_found
  | |- keeps (each _ _) => apply keeps_each; intros ?
  | |- keeps (if ?b then _ else _) => destruct b eqn:?
  | |- keeps (match ?x with _ => _ end) => destruct x eqn:?
  | |- keeps _ => solve [auto with keeps]
  end.

Lemma keeps_try_patterns (env : Env) (captures : list (option string)) :
  keeps (try_patterns env captures).
Proof.
  induction captures as [|[text|] rest IH]; cbn [try_patterns]; [auto with keeps| |exact IH].
  repeat keeps_step.
Qed.

Lemma keeps_strategy1 (env : Env) (id : string) : keeps (strategy1 env id).
Proof. unfold strategy1. repeat keeps_step. Qed.

Lemma keeps_strategy2 (env : Env) (id : string) : keeps (strategy2 env id).
Proof. unfold strategy2. repeat keeps_step. apply keeps_try_patterns. Qed.

Lemma keeps_mobile_script (env : Env) (content : string) : keeps (mobile_script env content).
Proof.
  unfold mobile_script. repeat keeps_step.
  apply keeps_set_videoSrc, mobile_src_nonempty.
Qed.

Lemma keeps_strategy3 (env : Env) (id : string) : keeps (strategy3 env id).
Proof.
  unfold strategy3. repeat keeps_step.
  - apply keeps_mobile_script.
  - apply keeps_set_videoSrc.
    match goal with H : Re.search Re.mp4_url _ = Some _ |- _ =>
      apply search_found in H as [k Hk]; now apply mp4_url_nonempty in Hk end.
Qed.

Lemma keeps_strategy4 (env : Env) (id : string) : keeps (strategy4 env id).
Proof.
  unfold strategy4. repeat keeps_step.
  apply keeps_write_vars. cbn [var_videoSrc].
  match goal with H : call_replace _ ?f _ _ = Ok _ |- _ =>
    destruct f; try discriminate; injection H as <- end.
  apply truthy_NStr, replace_first_nonempty; [discriminate|].
  match goal with H : truthy (NStr _) = true |- _ => now apply truthy_NStr in H end.
Qed.

Lemma keeps_strategy5 (env : Env) (id : string) : keeps (strategy5 env id).
Proof.
  unfold strategy5. repeat keeps_step.
  apply keeps_set_videoSrc. discriminate.
Qed.


(* ================================================================= *)
(** ** The strategies, one after the other *)

Lemma never_raises_caught (m : M St unit) :
  never_raises (try_catch m (fun _ => ret tt)).
Proof.
  intros st. unfold try_catch, ret. destruct (m st) as [[[]|e] st']; eauto.
Qed.

Lemma never_raises_unless_found (m : M St unit) :
  never_raises m -> never_raises (unless_found m).
Proof.
  intros H [v log]. unfold unless_found, bind, read_vars. cbn [fst].
  destruct (truthy (var_videoSrc v)); [unfold ret; eauto | apply H].
Qed.

Lemma guarded_unless_found (m : M St unit) : guarded (unless_found m).
Proof.
  intros v log H. unfold unless_found, bind, read_vars. cbn [fst]. now rewrite H.
Qed.

Lemma strategies_never_raise (env : Env) (id : string) :
  Forall never_raises (strategies env id).
Proof.
  unfold strategies.
  repeat apply Forall_cons; [..|apply Forall_nil];
    first [apply never_raises_caught
          | apply never_raises_unless_found, never_raises_caught].
Qed.

Lemma strategies_keep (env : Env) (id : string) :
  Forall (keeps (A := unit)) (strategies env id).
Proof.
  unfold strategies. repeat apply Forall_cons; [..|apply Forall_nil].
  - apply keeps_strategy1.
  - apply keeps_strategy2.
  - apply keeps_strategy3.
  - apply keeps_strategy4.
  - apply keeps_strategy5.
Qed.

Lemma strategies_guarded (env : Env) (id : string) :
  Forall guarded (tl (strategies env id)).
Proof.
  unfold strategies. cbn [tl].
  repeat apply Forall_cons; [..|apply Forall_nil]; apply guarded_unless_found.
Qed.

Lemma run_guarded (ms : list (M St unit)) (v : Vars) (log : Net) :
  Forall guarded ms -> truthy (var_videoSrc v) = true ->
  run ms (v, log) = (Ok tt, (v, log)).
Proof.
  intros Hg Hv. induction Hg as [|m ms Hm _ IH]; [reflexivity|].
  cbn [run]. unfold bind. now rewrite (Hm v log Hv).
Qed.

(** Running the steps either changes nothing or stops changing at the first
    step that leaves a truthy [videoSrc]. *)
Lemma run_first_success (ms : list (M St unit)) :
  Forall never_raises ms -> Forall (keeps (A := unit)) ms -> Forall guarded (tl ms) ->
  forall v log,
  exists v' log',
    run ms (v, log) = (Ok tt, (v', log'))
    /\ (v' = v
        \/ exists pre s post log1,
             ms = (pre ++ s :: post)%list
             /\ run pre (v, log) = (Ok tt, (v, log1))
             /\ s (v, log1) = (Ok tt, (v', log'))
             /\ truthy (var_videoSrc v') = true
             /\ run post (v', log') = (Ok tt, (v', log'))).
Proof.
  induction ms as [|m ms IH]; intros Hn Hk Hg v log.
  { exists v, log. split; [reflexivity | now left]. }
  inversion Hn as [|? ? Hm Hn']; subst. inversion Hk as [|? ? Hkm Hk']; subst.
  cbn [tl] in Hg.
  destruct (Hm (v, log)) as [[v1 log1] E1].
  cbn [run]. unfold bind. rewrite E1.
  destruct (truthy (var_videoSrc v1)) eqn:Hv1.
  - rewrite (run_guarded ms v1 log1 Hg Hv1).
    exists v1, log1. split; [reflexivity|]. right.
    exists [], m, ms, log. repeat split; try assumption.
    now apply run_guarded.
  - destruct (Hkm _ _ _ _ _ E1) as [-> | Habs]; [|congruence].
    assert (Hg' : Forall guarded (tl ms)) by (destruct Hg; [constructor | assumption]).
    destruct (IH Hn' Hk' Hg' v log1) as (v' & log' & Hrun & Hcase).
    exists v', log'. split; [exact Hrun|].
    destruct Hcase as [-> | (pre & s & post & log2 & -> & Hpre & Hs & Hv' & Hpost)];
      [now left|].
    right. exists (m :: pre), s, post, log2. repeat split; try assumption.
    cbn [run]. unfold bind. now rewrite E1.
Qed.

Lemma run_strategies (env : Env) (id : string) (log : Net) :
  exists v log',
    run (strategies env id) (initial_vars, log) = (Ok tt, (v, log'))
    /\ (v = initial_vars
        \/ exists pre s post log1,
             strategies env id = (pre ++ s :: post)%list
             /\ run pre (initial_vars, log) = (Ok tt, (initial_vars, log1))
             /\ s (initial_vars, log1) = (Ok tt, (v, log'))
             /\ truthy (var_videoSrc v) = true
             /\ run post (v, log') = (Ok tt, (v, log'))).
Proof.
  apply run_first_success.
  - apply strategies_never_raise.
  - apply strategies_keep.
  - apply strategies_guarded.
Qed.

Lemma extract_run (env : Env) (id : string) (log : Net) (v : Vars) (log' : Net) :
  run (strategies env id) (initial_vars, log) = (Ok tt, (v, log')) ->
  extract env id log = (Ok v, log').
Proof. intros H. unfold extract. now rewrite H. Qed.

Lemma extract_returns (env : Env) (id : string) (log : Net) :
  exists v log', extract env id log = (Ok v, log').
Proof.
  destruct (run_strategies env id log) as (v & log' & H & _).
  exists v, log'. now apply extract_run.
Qed.

(** ** The handler, path by path *)

Lemma parse_course (env : Env) (req_body : Node json) (log : Net) :
  exists reply log',
    parse env req_body log = (Ok reply, log')
    /\ Course env req_body log reply log'.
Proof.
  unfold parse, try_catch, parse_body, bind, lift.
  destruct (tget req_body "url") as [url|e] eqn:Eurl.
  2:{ do 2 eexists. split; [reflexivity|]. now apply body_unreadable. }
  destruct (truthy url) eqn:Htruthy; cbn [negb].
  2:{ do 2 eexists. split; [reflexivity|]. now apply (url_missing _ _ _ url). }
  destruct url as [| | | |text| |];
    try (do 2 eexists; split; [reflexivity|];
         eapply url_not_text; [eassumption | assumption | intros ?; discriminate]).
  assert (Htext : text <> "") by now apply truthy_NStr in Htruthy.
  destruct (resolveShortUrl env (target_of text) log) as [[r|e] log1] eqn:Eres.
  2:{ do 2 eexists. split; [reflexivity|]. now apply (resolver_raised _ _ _ text). }
  destruct (videoId r) as [id|] eqn:Eid.
  2:{ do 2 eexists. split; [reflexivity|].
      apply (no_identifier _ _ _ text r); try assumption. now rewrite Eid. }
  destruct (present (Some id)) eqn:Hid.
  2:{ do 2 eexists. split; [reflexivity|].
      apply (no_identifier _ _ _ text r); try assumption. now rewrite Eid. }
  apply present_Some in Hid.
  destruct (extract_returns env id log1) as (v & log2 & Eex). rewrite Eex.
  unfold respond.
  destruct (truthy (var_videoSrc v)) eqn:Hv; cbn [negb].
  2:{ do 2 eexists. split; [reflexivity|].
      now apply (all_failed _ _ _ text r log1 id v). }
  destruct (var_videoSrc v) as [| | | |src| |] eqn:Esrc;
    try (do 2 eexists; split; [reflexivity|];
         eapply (source_not_text _ _ _ text r log1 id v); try eassumption;
         [now rewrite Esrc | rewrite Esrc; intros ?; discriminate]).
  do 2 eexists. split; [reflexivity|].
  apply (served _ _ _ text r log1 id v log2 src); try assumption.
  now apply truthy_NStr in Hv.
Qed.


(* ================================================================= *)
(** ** Requests of [resolveShortUrl] *)

Lemma quiet_ret {A : Type} (a : A) : quiet (ret a).
Proof. now intros log r log' [= _ <-]. Qed.

Lemma quiet_lift {A : Type} (x : result error A) : quiet (lift x).
Proof. now intros log r log' [= _ <-]. Qed.

Lemma quiet_bind {A B : Type} (m : M Net A) (k : A -> M Net B) :
  quiet m -> (forall a, quiet (k a)) -> quiet (bind m k).
Proof.
  intros Hm Hk log r log'. unfold bind.
  destruct (m log) as [[a|e] log1] eqn:E; apply Hm in E; subst log1.
  - apply Hk.
  - now intros [= _ <-].
Qed.

Ltac quiet_step :=
  match goal with
  | |- quiet (ret _) => apply quiet_ret
  | |- quiet (lift _) => apply quiet_lift
  | |- quiet (bind _ _) => apply quiet_bind; [|intros ?]
  | |- quiet (if ?b then _ else _) => destruct b
  | |- quiet (match ?x with _ => _ end) => destruct x
  end.

Lemma quiet_hop_catch (env : Env) (u : string) (e : error) : quiet (hop_catch env u e).
Proof. unfold hop_catch. repeat quiet_step. Qed.

Lemma hop_requests (env : Env) (u : string) (log : Net) (r : result error Step) (log' : Net) :
  try_catch (hop_try env u) (hop_catch env u) log = (r, log') ->
  log' = (log ++ [hop_request u])%list.
Proof.
  unfold try_catch, hop_try, bind, request. fold (hop_request u).
  destruct (axios env log (hop_request u)) as [resp|resp ru].
  - destruct (present (extractVideoId u)); [now intros [= _ <-]|].
    destruct (responseUrl resp) as [respUrl|]; [|now intros [= _ <-]].
    destruct (present (Some respUrl)); [|now intros [= _ <-]].
    destruct (present (extractVideoId respUrl)); now intros [= _ <-].
  - apply quiet_hop_catch.
Qed.

Lemma chase_requests (env : Env) (turns : nat) :
  forall u log r log',
    chase env turns u log = (r, log') ->
    exists hops,
      log' = (log ++ hops)%list
      /\ List.length hops <= turns
      /\ Forall (fun q => method q = GET /\ maxRedirects q = 0) hops.
Proof.
  induction turns as [|turns IH]; intros u log r log'; cbn [chase].
  - intros [= _ <-]. exists []. rewrite app_nil_r. repeat split; [simpl; lia | constructor].
  - unfold bind.
    destruct (try_catch (hop_try env u) (hop_catch env u) log) as [[step|e] log1] eqn:E;
      apply hop_requests in E; subst log1.
    + assert (Hone : exists hops,
                 (log ++ [hop_request u])%list = (log ++ hops)%list
                 /\ List.length hops <= S turns
                 /\ Forall (fun q => method q = GET /\ maxRedirects q = 0) hops).
      { exists [hop_request u]. repeat split; [simpl; lia|]. now repeat constructor. }
      destruct step as [res|nextUrl|]; try (intros [= _ <-]; exact Hone).
      intros H. apply IH in H as (hops & -> & Hlen & Hall).
      exists (hop_request u :: hops). rewrite <- app_assoc. repeat split.
      * simpl. lia.
      * constructor; [now split | exact Hall].
    + intros [= _ <-]. exists [hop_request u].
      repeat split; [simpl; lia|]. now repeat constructor.
Qed.

(** The fallback issues its one request and never throws. *)
Lemma auto_follow_returns (env : Env) (u : string) (log : Net) :
  exists r, auto_follow env u log = (Ok r, (log ++ [fallback_request u])%list).
Proof.
  unfold auto_follow, try_catch, bind, request. fold (fallback_request u).
  destruct (axios env log (fallback_request u)) as [resp|resp ru]; unfold ret; eauto.
Qed.

(** ** The claims on [resolveShortUrl] and the handler *)

(** C3. When [extractVideoId] finds an identifier in the input URL,
    [resolveShortUrl] returns that URL and that identifier, and issues no
    request: the log of requests is unchanged, whatever the network would
    answer. *)
Theorem resolveShortUrl_direct (env : Env) (shortUrl id : string) (log : Net) :
  extractVideoId shortUrl = Some id ->
  resolveShortUrl env shortUrl log
  = (Ok {| finalUrl := shortUrl; videoId := Some id |}, log).
Proof.
  intros H. unfold resolveShortUrl.
  assert (Hp : present (extractVideoId shortUrl) = true)
    by (apply extractVideoId_present; congruence).
  rewrite Hp, H. reflexivity.
Qed.

Lemma resolveShortUrl_direct_witness :
  extractVideoId page_url = Some "123"
  /\ resolveShortUrl offline page_url []
     = (Ok {| finalUrl := page_url; videoId := Some "123" |}, []).
Proof.
  split; [reflexivity|].
  apply (resolveShortUrl_direct offline page_url "123" []). reflexivity.
Defined.

(** C2. In every success payload the media URL is a non-empty string. *)
Theorem success_has_media_url (env : Env) (req_body : Node json) (log : Net)
    (reply : HttpReply) (log' : Net) (d : VideoData) :
  parse env req_body log = (Ok reply, log') ->
  body reply = BSuccess d ->
  exists s, data_url d = NStr s /\ s <> "".
Proof.
  intros Hparse Hbody.
  destruct (parse_course env req_body log) as (reply0 & log0 & H0 & Hcourse).
  rewrite H0 in Hparse. injection Hparse as <- <-.
  destruct Hcourse; cbn [body] in Hbody; try discriminate.
  injection Hbody as <-. cbn [data_url].
  eexists. split; [reflexivity|]. now apply normalizeVideoUrl_nonempty.
Qed.

Lemma success_has_media_url_witness :
  parse probe_only (body_of page_url) []
  = (Ok {| code := 200; body := BSuccess probed |}, strategy_requests)
  /\ exists s, data_url probed = NStr s /\ s <> "".
Proof.
  assert (H : parse probe_only (body_of page_url) []
              = (Ok {| code := 200; body := BSuccess probed |}, strategy_requests))
    by (vm_compute; reflexivity).
  split; [exact H|].
  exact (success_has_media_url probe_only (body_of page_url) [] _ _ probed H eq_refl).
Defined.

(** C10. In every success payload only the media URL is normalized.  One
    strategy wins: the strategies before it leave the variables as they
    were initialized, the strategies after it change nothing, and the
    payload carries the cover exactly as the winner left it, the
    description as the winner left it or the placeholder text when that is
    empty, and the normalized form of the winner's media URL. *)
Theorem success_frame (env : Env) (req_body : Node json) (log : Net)
    (reply : HttpReply) (log' : Net) (d : VideoData) :
  parse env req_body log = (Ok reply, log') ->
  body reply = BSuccess d ->
  exists id pre winner post log0 log1 v src,
    strategies env id = (pre ++ winner :: post)%list
    /\ run pre (initial_vars, log0) = (Ok tt, (initial_vars, log1))
    /\ winner (initial_vars, log1) = (Ok tt, (v, log'))
    /\ run post (v, log') = (Ok tt, (v, log'))
    /\ var_videoSrc v = NStr src
    /\ data_url d = NStr (normalizeVideoUrl src)
    /\ data_cover d = var_coverSrc v
    /\ data_desc d = or_else (var_desc v) (NStr DEFAULT_DESC).
Proof.
  intros Hparse Hbody.
  destruct (parse_course env req_body log) as (reply0 & log0 & H0 & Hcourse).
  rewrite H0 in Hparse. injection Hparse as <- <-.
  destruct Hcourse as [| | | | | | |text r log1 id v log2 src Hurl Htext Hres Hid Hne Hex Hsrc Hnonempty];
    cbn [body] in Hbody; try discriminate.
  injection Hbody as <-.
  destruct (run_strategies env id log1) as (v' & log2' & Hrun & Hcase).
  rewrite (extract_run _ _ _ _ _ Hrun) in Hex. injection Hex as -> ->.
  destruct Hcase as [-> | (pre & s & post & log1' & Hsplit & Hpre & Hs & Hv & Hpost)].
  { cbn in Hsrc. congruence. }
  exists id, pre, s, post, log1, log1', v, src. repeat split; assumption.
Qed.

Lemma success_frame_witness :
  parse detail_api (body_of page_url) []
  = (Ok {| code := 200; body := BSuccess detailed |}, [detail_request])
  /\ exists id pre winner post log0 log1 v src,
       strategies detail_api id = (pre ++ winner :: post)%list
       /\ run pre (initial_vars, log0) = (Ok tt, (initial_vars, log1))
       /\ winner (initial_vars, log1) = (Ok tt, (v, [detail_request]))
       /\ run post (v, [detail_request]) = (Ok tt, (v, [detail_request]))
       /\ var_videoSrc v = NStr src
       /\ data_url detailed = NStr (normalizeVideoUrl src)
       /\ data_cover detailed = var_coverSrc v
       /\ data_desc detailed = or_else (var_desc v) (NStr DEFAULT_DESC).
Proof.
  assert (H : parse detail_api (body_of page_url) []
              = (Ok {| code := 200; body := BSuccess detailed |}, [detail_request]))
    by (vm_compute; reflexivity).
  split; [exact H|].
  exact (success_frame detail_api (body_of page_url) [] _ _ detailed H eq_refl).
Defined.

(** The cover of that reply is on a host the table rewrites: it went
    through no normalization. *)
Example cover_left_alone :
  data_cover detailed = NStr "https://aweme.snssdk.com/cover.jpg"
  /\ normalizeVideoUrl "https://aweme.snssdk.com/cover.jpg"
     = "https://www.douyin.com/cover.jpg".
Proof. split; reflexivity. Qed.

(** C1, as stated, fails: with an identifier in hand and every strategy
    failing, the handler answers [{ success: false, error }], not a
    placeholder record. *)
Lemma no_placeholder_when_all_fail :
  resolveShortUrl offline (target_of page_url) []
  = (Ok {| finalUrl := page_url; videoId := Some "123" |}, [])
  /\ extract offline "123" [] = (Ok initial_vars, strategy_requests)
  /\ truthy (var_videoSrc initial_vars) = false
  /\ parse offline (body_of page_url) []
     = (Ok {| code := 200; body := BFailure AllStrategiesFailed |}, strategy_requests)
  /\ is_demo_success (BFailure AllStrategiesFailed) = false.
Proof. repeat split; vm_compute; reflexivity. Qed.

(** C1, amended.  When an identifier was obtained and the strategies leave
    no media URL, the handler of [server.ts] answers with the explicit
    failure [{ success: false, error }] and no record.  The compiled
    [server.js] answers in that state with the placeholder record, flagged
    [isDemo] and carrying a non-empty media URL. *)
Theorem all_strategies_failed_reply (env : Env) (req_body : Node json) (text : string)
    (log : Net) (r : Resolved) (log1 : Net) (id : string) (v : Vars) (log2 : Net) :
  tget req_body "url" = Ok (NStr text) ->
  text <> "" ->
  resolveShortUrl env (target_of text) log = (Ok r, log1) ->
  videoId r = Some id ->
  id <> "" ->
  extract env id log1 = (Ok v, log2) ->
  truthy (var_videoSrc v) = false ->
  parse env req_body log
  = (Ok {| code := 200; body := BFailure AllStrategiesFailed |}, log2)
  /\ (forall cover description,
        compiled_respond (var_videoSrc v) cover description
        = {| code := 200; body := BSuccess DEMO |})
  /\ is_demo_success (BSuccess DEMO) = true
  /\ truthy (data_url DEMO) = true.
Proof.
  intros Hurl Htext Hres Hid Hne Hex Hv. repeat split.
  - unfold parse, try_catch, parse_body, bind, lift. rewrite Hurl.
    apply (truthy_NStr (V := json)) in Htext. rewrite Htext. cbn [negb].
    rewrite Hres, Hid.
    apply present_Some in Hne. rewrite Hne, Hex.
    unfold respond. rewrite Hv. reflexivity.
  - intros c d. unfold compiled_respond. now rewrite Hv.
Qed.

Lemma all_strategies_failed_reply_witness :
  parse offline (body_of page_url) []
  = (Ok {| code := 200; body := BFailure AllStrategiesFailed |}, strategy_requests)
  /\ (forall cover description,
        compiled_respond (var_videoSrc initial_vars) cover description
        = {| code := 200; body := BSuccess DEMO |})
  /\ is_demo_success (BSuccess DEMO) = true
  /\ truthy (data_url DEMO) = true.
Proof.
  apply (all_strategies_failed_reply offline (body_of page_url) page_url []
           {| finalUrl := page_url; videoId := Some "123" |} [] "123"
           initial_vars strategy_requests).
  - reflexivity.
  - discriminate.
  - vm_compute; reflexivity.
  - reflexivity.
  - discriminate.
  - vm_compute; reflexivity.
  - reflexivity.
Defined.

(** C9, as stated, fails: an identifier was obtained and nothing was
    thrown, yet the reply is an error result. *)
Lemma failure_with_identifier :
  resolveShortUrl offline (target_of page_url) []
  = (Ok {| finalUrl := page_url; videoId := Some "123" |}, [])
  /\ parse_body offline (body_of page_url) []
     = (Ok {| code := 200; body := BFailure AllStrategiesFailed |}, strategy_requests)
  /\ parse offline (body_of page_url) []
     = (Ok {| code := 200; body := BFailure AllStrategiesFailed |}, strategy_requests).
Proof. repeat split; vm_compute; reflexivity. Qed.

(** C9, amended.  The handler always replies, and each reply comes about
    in one of the ways of [Course]: an error result is sent when the URL is
    missing (400), when no identifier was obtained (400), when every
    strategy left no media URL ([success: false]), and on an exception (500)
    from reading the body, from a URL that is not text, from
    [resolveShortUrl], or from a media URL that is not text.  No strategy
    ever throws, so the strategies always run to the end. *)
Theorem error_results (env : Env) (req_body : Node json) (log : Net) :
  (exists reply log',
     parse env req_body log = (Ok reply, log')
     /\ Course env req_body log reply log')
  /\ (forall id, Forall never_raises (strategies env id))
  /\ (forall id log1, exists v log2, extract env id log1 = (Ok v, log2)).
Proof.
  split; [apply parse_course|]. split.
  - intros id. apply strategies_never_raise.
  - intros id log1. apply extract_returns.
Qed.

(** ** The requests of [resolveShortUrl] *)

(** X1. Manual redirect chasing issues at most ten requests, each without
    following redirects; after them [resolveShortUrl] issues at most one
    more, the auto-follow request for the input URL. *)
Theorem resolveShortUrl_hop_bound (env : Env) (shortUrl : string) (log : Net)
    (r : result error Resolved) (log' : Net) :
  resolveShortUrl env shortUrl log = (r, log') ->
  exists hops fallback,
    log' = (log ++ hops ++ fallback)%list
    /\ List.length hops <= 10
    /\ Forall (fun q => method q = GET /\ maxRedirects q = 0) hops
    /\ (fallback = []
        \/ fallback = [{| method := GET; url := shortUrl; maxRedirects := 10 |}]).
Proof.
  unfold resolveShortUrl.
  destruct (present (extractVideoId shortUrl)).
  { intros [= _ <-]. exists [], []. rewrite app_nil_r.
    repeat split; [simpl; lia | constructor | now left]. }
  unfold bind.
  destruct (chase env 10 shortUrl log) as [[res|e] log1] eqn:E;
    apply chase_requests in E as (hops & -> & Hlen & Hall).
  - destruct res as [resolved|].
    + intros [= _ <-]. exists hops, []. rewrite app_nil_r.
      repeat split; try assumption. now left.
    + destruct (auto_follow_returns env shortUrl (log ++ hops)%list) as [res ->].
      intros [= _ <-]. exists hops, [fallback_request shortUrl].
      rewrite app_assoc. repeat split; try assumption. now right.
  - intros [= _ <-]. exists hops, []. rewrite app_nil_r.
    repeat split; try assumption. now left.
Qed.

Lemma resolveShortUrl_hop_bound_witness :
  resolveShortUrl endless_redirects short_url []
  = (Ok {| finalUrl := short_url; videoId := None |},
     snd (resolveShortUrl endless_redirects short_url []))
  /\ exists hops fallback,
       snd (resolveShortUrl endless_redirects short_url []) = ([] ++ hops ++ fallback)%list
       /\ List.length hops <= 10
       /\ Forall (fun q => method q = GET /\ maxRedirects q = 0) hops
       /\ (fallback = []
           \/ fallback = [{| method := GET; url := short_url; maxRedirects := 10 |}]).
Proof.
  assert (H : resolveShortUrl endless_redirects short_url []
              = (Ok {| finalUrl := short_url; videoId := None |},
                 snd (resolveShortUrl endless_redirects short_url [])))
    by (vm_compute; reflexivity).
  split; [exact H|].
  exact (resolveShortUrl_hop_bound endless_redirects short_url [] _ _ H).
Defined.

(** X2. When manual chasing ends without a [return], by a fault or after
    its ten turns, [resolveShortUrl] issues the auto-follow request and
    returns a result. *)
Theorem resolveShortUrl_falls_back (env : Env) (shortUrl : string) (log log1 : Net) :
  extractVideoId shortUrl = None ->
  chase env 10 shortUrl log = (Ok None, log1) ->
  exists resolved,
    resolveShortUrl env shortUrl log
    = (Ok resolved,
       (log1 ++ [{| method := GET; url := shortUrl; maxRedirects := 10 |}])%list).
Proof.
  intros Hid Hchase. unfold resolveShortUrl. rewrite Hid. cbn [present].
  unfold bind. rewrite Hchase. apply auto_follow_returns.
Qed.

Lemma resolveShortUrl_falls_back_witness :
  List.length (snd (chase endless_redirects 10 short_url [])) = 10
  /\ exists resolved,
       resolveShortUrl endless_redirects short_url []
       = (Ok resolved,
          (snd (chase endless_redirects 10 short_url [])
           ++ [{| method := GET; url := short_url; maxRedirects := 10 |}])%list).
Proof.
  split; [vm_compute; reflexivity|].
  apply (resolveShortUrl_falls_back endless_redirects short_url []).
  - reflexivity.
  - vm_compute; reflexivity.
Defined.

(** C4. A redirect whose relative [Location] the URL parser rejects makes
    [resolveShortUrl] throw from the [catch] block of the first turn: no
    fallback request is issued, and the handler answers with status 500. *)
Theorem resolveShortUrl_raises_on_unparsable_location :
  resolveShortUrl broken_location short_url []
  = (Raise TypeError, [{| method := GET; url := short_url; maxRedirects := 0 |}])
  /\ parse broken_location (body_of short_url) []
     = (Ok {| code := 500; body := BError (Unhandled TypeError) |},
        [{| method := GET; url := short_url; maxRedirects := 0 |}]).
Proof. split; vm_compute; reflexivity. Qed.

(** ** Redirect chains *)

(** One turn along a chain: the request, then the [catch] block with a
    redirect. *)
Lemma hop_redirected (env : Env) (log : Net) (current next : string) (rest : list string) :
  redirects env log current (next :: rest) ->
  try_catch (hop_try env current) (hop_catch env current) log
  = (Ok (if present (extractVideoId next)
         then Return {| finalUrl := next; videoId := extractVideoId next |}
         else Continue next),
     (log ++ [hop_request current])%list).
Proof.
  intros [(response & ru & loc & Hax & Hst & Hloc & Hne & Hnext) _].
  unfold try_catch, hop_try, bind, request. fold (hop_request current). rewrite Hax.
  unfold hop_catch.
  assert (Hs : (negb (status response =? 0) && (300 <=? status response)
                && (status response <? 400))%Z = true).
  { rewrite !andb_true_iff, negb_true_iff. repeat split; lia. }
  rewrite Hs, Hloc. apply present_Some in Hne. rewrite Hne.
  unfold bind, lift, ret.
  destruct (Str.startsWith loc "http").
  - subst next. now destruct (present (extractVideoId loc)).
  - rewrite Hnext. now destruct (present (extractVideoId next)).
Qed.

Lemma chase_chain (env : Env) (before : list string) :
  forall turns log current last,
    List.length before < turns ->
    Forall (fun u => extractVideoId u = None) before ->
    extractVideoId last <> None ->
    redirects env log current (before ++ [last]) ->
    chase env turns current log
    = (Ok (Some {| finalUrl := last; videoId := extractVideoId last |}),
       (log ++ map hop_request (current :: before))%list).
Proof.
  induction before as [|next before IH]; intros turns log current last Hlen Hnone Hid Hred.
  - destruct turns as [|turns]; [simpl in Hlen; lia|].
    cbn [chase]. unfold bind. cbn [app] in Hred.
    rewrite (hop_redirected _ _ _ _ _ Hred).
    apply extractVideoId_present in Hid. rewrite Hid. reflexivity.
  - destruct turns as [|turns]; [simpl in Hlen; lia|].
    cbn [chase]. unfold bind. cbn [app] in Hred.
    rewrite (hop_redirected _ _ _ _ _ Hred).
    inversion Hnone as [|? ? Hnext Hrest]; subst.
    rewrite Hnext. cbn [present].
    destruct Hred as [_ Hred].
    rewrite (IH turns _ next last); [|simpl in Hlen; lia|assumption..].
    cbn [map]. now rewrite <- app_assoc.
Qed.

(** X3. Along a chain of [k] redirects, [k] at most ten, whose last URL is
    the first to show an identifier, [resolveShortUrl] returns that URL and
    that identifier after exactly [k] requests: the manual hops, and no
    fallback. *)
Theorem resolveShortUrl_chain (env : Env) (shortUrl : string) (before : list string)
    (last id : string) (log : Net) :
  extractVideoId shortUrl = None ->
  Forall (fun u => extractVideoId u = None) before ->
  extractVideoId last = Some id ->
  List.length (before ++ [last]) <= 10 ->
  redirects env log shortUrl (before ++ [last]) ->
  resolveShortUrl env shortUrl log
  = (Ok {| finalUrl := last; videoId := Some id |},
     (log ++ map hop_request (shortUrl :: before))%list)
  /\ List.length (map hop_request (shortUrl :: before)) = List.length (before ++ [last]).
Proof.
  intros Hshort Hbefore Hlast Hlen Hred. split.
  - unfold resolveShortUrl. rewrite Hshort. cbn [present]. unfold bind.
    rewrite (chase_chain env before 10 log shortUrl last);
      [now rewrite Hlast | | assumption | congruence | assumption].
    rewrite length_app in Hlen. simpl in Hlen. lia.
  - rewrite length_map, length_app. simpl. lia.
Qed.

Lemma resolveShortUrl_chain_witness :
  redirects two_hops [] short_url [share_url; page_url]
  /\ resolveShortUrl two_hops short_url []
     = (Ok {| finalUrl := page_url; videoId := Some "123" |},
        [hop_request short_url; hop_request share_url])
  /\ List.length (map hop_request [short_url; share_url])
     = List.length [share_url; page_url].
Proof.
  assert (H : redirects two_hops [] short_url [share_url; page_url]).
  { split; [|split; [|exact I]].
    - eexists _, _, _. repeat split; try reflexivity; try discriminate; cbn; lia.
    - eexists _, _, _. repeat split; try reflexivity; try discriminate; cbn; lia. }
  split; [exact H|].
  apply (resolveShortUrl_chain two_hops short_url [share_url] page_url "123" []).
  - reflexivity.
  - repeat constructor.
  - reflexivity.
  - simpl; lia.
  - exact H.
Defined.

(* ================================================================= *)
(** ** More on [extractVideoId] *)

Lemma startsWith_empty (s : string) : Str.startsWith s "" = true.
Proof. destruct s; reflexivity. Qed.

Lemma startsWith_take_while (p : ascii -> bool) (s : string) :
  Str.startsWith s (Str.take_while p s) = true.
Proof.
  induction s as [|c t IH]; simpl; [reflexivity|].
  destruct (p c); simpl; [|reflexivity].
  now rewrite Ascii.eqb_refl, IH.
Qed.

Lemma take_while_stops (p : ascii -> bool) (s : string) :
  Str.take_while p (Str.drop (String.length (Str.take_while p s)) s) = "".
Proof.
  induction s as [|c t IH]; simpl; [reflexivity|].
  destruct (p c) eqn:E; simpl; [exact IH|]. now rewrite E.
Qed.


Lemma startsWith_append_both (p a b : string) :
  Str.startsWith a b = true -> Str.startsWith (p ++ a) (p ++ b) = true.
Proof.
  intros H. induction p as [|c p IH]; simpl; [exact H|].
  now rewrite Ascii.eqb_refl, IH.
Qed.

(** What a capture of [lit(\d+)] at one position is. *)
Lemma digits_after_run (p s d : string) :
  Re.digits_after p s = Some d ->
  d <> "" /\ Str.all Re.is_digit d = true
  /\ Str.startsWith s (p ++ d) = true
  /\ Str.take_while Re.is_digit (Str.drop (String.length (p ++ d)) s) = "".
Proof.
  unfold Re.digits_after. destruct (Str.startsWith s p) eqn:Hp; [|discriminate].
  pose proof (take_while_all Re.is_digit (Str.drop (String.length p) s)) as Hall.
  pose proof (startsWith_take_while Re.is_digit (Str.drop (String.length p) s)) as Hpre.
  pose proof (take_while_stops Re.is_digit (Str.drop (String.length p) s)) as Hstop.
  destruct (Str.take_while Re.is_digit (Str.drop (String.length p) s)) as [|c r] eqn:E;
    [discriminate|].
  intros [= <-]. split; [discriminate|]. split; [exact Hall|].
  split.
  - rewrite (startsWith_split s p Hp). now apply startsWith_append_both.
  - rewrite length_append, <- drop_drop. exact Hstop.
Qed.

Lemma extractVideoId_marker (url id : string) :
  extractVideoId url = Some id ->
  exists marker,
    In marker ["/video/"; "/note/"; "modal_id="]
    /\ Re.search (Re.digits_after marker) url = Some id.
Proof.
  unfold extractVideoId.
  destruct (Re.search (Re.digits_after "/video/") url) eqn:E1.
  { intros [= <-]. exists "/video/". split; [now left | exact E1]. }
  destruct (Re.search (Re.digits_after "/note/") url) eqn:E2.
  { intros [= <-]. exists "/note/". split; [right; now left | exact E2]. }
  intros E3. exists "modal_id=". split; [right; right; now left | exact E3].
Qed.

Lemma extractVideoId_run (url id : string) :
  extractVideoId url = Some id -> id <> "" /\ Str.all Re.is_digit id = true.
Proof.
  intros H. destruct (extractVideoId_marker url id H) as (marker & _ & Hs).
  destruct (search_found _ _ _ Hs) as (k & Hk).
  destruct (digits_after_run _ _ _ Hk) as (Hne & Hall & _). now split.
Qed.

(** X4. An identifier that [extractVideoId] returns is a non-empty run of
    decimal digits: it stands in the URL right after one of the three
    markers, and the character after it, if any, is not a digit. *)
Theorem extractVideoId_digits (url id : string) :
  extractVideoId url = Some id ->
  id <> "" /\ Str.all Re.is_digit id = true
  /\ exists k marker,
       In marker ["/video/"; "/note/"; "modal_id="]
       /\ Str.startsWith (Str.drop k url) (marker ++ id) = true
       /\ Str.take_while Re.is_digit
            (Str.drop (k + String.length (marker ++ id)) url) = "".
Proof.
  intros H. destruct (extractVideoId_marker url id H) as (marker & Hin & Hs).
  destruct (search_found _ _ _ Hs) as (k & Hk).
  destruct (digits_after_run _ _ _ Hk) as (Hne & Hall & Hpre & Hstop).
  split; [exact Hne|]. split; [exact Hall|].
  exists k, marker. split; [exact Hin|]. split; [exact Hpre|].
  rewrite <- drop_drop. exact Hstop.
Qed.

Lemma extractVideoId_digits_witness :
  extractVideoId page_url = Some "123"
  /\ "123" <> "" /\ Str.all Re.is_digit "123" = true
  /\ exists k marker,
       In marker ["/video/"; "/note/"; "modal_id="]
       /\ Str.startsWith (Str.drop k page_url) (marker ++ "123") = true
       /\ Str.take_while Re.is_digit
            (Str.drop (k + String.length (marker ++ "123")) page_url) = "".
Proof.
  split; [reflexivity|]. apply (extractVideoId_digits page_url "123"). reflexivity.
Defined.

Lemma digits_after_here (p id rest : string) :
  id <> "" -> Str.all Re.is_digit id = true ->
  Str.take_while Re.is_digit rest = "" ->
  Re.digits_after p (p ++ id ++ rest) = Some id.
Proof.
  intros Hne Hall Hrest. unfold Re.digits_after.
  rewrite startsWith_append, drop_append, take_while_append, Hall, Hrest, append_empty_r.
  destruct id; [contradiction|reflexivity].
Qed.

Lemma search_here {A : Type} (m : string -> option A) (s : string) (a : A) :
  m s = Some a -> Re.search m s = Some a.
Proof. intros H. destruct s; simpl; now rewrite H. Qed.

Lemma present_digits (id : string) : id <> "" -> present (Some id) = true.
Proof. intros H. now apply present_Some. Qed.

(** X5. The page URLs the handler builds from an identifier lead back to
    it: from the desktop page URL and from the mobile share URL of a
    non-empty run of digits, [extractVideoId] returns that run; and given
    the desktop page URL, [resolveShortUrl] returns it with that run at
    once, with no request. *)
Theorem extractVideoId_page_url (id : string) :
  id <> "" -> Str.all Re.is_digit id = true ->
  extractVideoId ("https://www.douyin.com/video/" ++ id) = Some id
  /\ extractVideoId ("https://m.douyin.com/share/video/" ++ id) = Some id
  /\ forall env log,
       resolveShortUrl env ("https://www.douyin.com/video/" ++ id) log
       = (Ok {| finalUrl := "https://www.douyin.com/video/" ++ id;
                videoId := Some id |}, log).
Proof.
  intros Hne Hall.
  assert (Hhere : Re.digits_after "/video/" ("/video/" ++ id) = Some id).
  { rewrite <- (append_empty_r id) at 1. apply digits_after_here; auto. }
  assert (H1 : extractVideoId ("https://www.douyin.com/video/" ++ id) = Some id).
  { unfold extractVideoId.
    replace (Re.search (Re.digits_after "/video/") ("https://www.douyin.com/video/" ++ id))
      with (Re.search (Re.digits_after "/video/") ("/video/" ++ id)) by reflexivity.
    now rewrite (search_here _ _ _ Hhere). }
  split; [exact H1|]. split.
  - unfold extractVideoId.
    replace (Re.search (Re.digits_after "/video/")
                       ("https://m.douyin.com/share/video/" ++ id))
      with (Re.search (Re.digits_after "/video/") ("/video/" ++ id)) by reflexivity.
    now rewrite (search_here _ _ _ Hhere).
  - intros env log. unfold resolveShortUrl. rewrite H1.
    now rewrite (present_digits id Hne).
Qed.

Lemma extractVideoId_page_url_witness :
  extractVideoId ("https://www.douyin.com/video/" ++ "7123456789") = Some "7123456789"
  /\ extractVideoId ("https://m.douyin.com/share/video/" ++ "7123456789")
     = Some "7123456789"
  /\ forall env log,
       resolveShortUrl env ("https://www.douyin.com/video/" ++ "7123456789") log
       = (Ok {| finalUrl := "https://www.douyin.com/video/" ++ "7123456789";
                videoId := Some "7123456789" |}, log).
Proof. apply (extractVideoId_page_url "7123456789"); [discriminate | reflexivity]. Defined.

(* ================================================================= *)
(** ** What [resolveShortUrl] returns *)

Lemma extractVideoId_absent (u : string) :
  present (extractVideoId u) = false -> extractVideoId u = None.
Proof.
  intros H. destruct (extractVideoId u) eqn:E; [|reflexivity].
  assert (Hp : present (extractVideoId u) = true)
    by (apply extractVideoId_present; congruence).
  rewrite E in Hp. congruence.
Qed.

Lemma hop_consistent (env : Env) (u : string) (log : Net) (r : Resolved) (log' : Net) :
  try_catch (hop_try env u) (hop_catch env u) log = (Ok (Return r), log') ->
  videoId r = extractVideoId (finalUrl r).
Proof.
  unfold try_catch, hop_try, hop_catch, bind, request, ret, lift.
  destruct (axios env log _) as [resp | [response|] requestUrl].
  - destruct (present (extractVideoId u)) eqn:Pu; [now intros [= <- _]|].
    apply extractVideoId_absent in Pu.
    destruct (responseUrl resp) as [respUrl|]; [|intros [= <- _]; cbn [videoId finalUrl]; now rewrite Pu].
    destruct (present (Some respUrl)); [|intros [= <- _]; cbn [videoId finalUrl]; now rewrite Pu].
    destruct (present (extractVideoId respUrl));
      intros [= <- _]; [reflexivity | cbn [videoId finalUrl]; now rewrite Pu].
  - destruct (negb (status response =? 0)%Z && (300 <=? status response)%Z
              && (status response <? 400)%Z); [|discriminate].
    destruct (location response) as [loc|]; [|discriminate].
    destruct (present (Some loc)); [|discriminate].
    destruct (Str.startsWith loc "http").
    + destruct (present (extractVideoId loc)); [now intros [= <- _] | discriminate].
    + destruct (new_URL env loc u) as [nextUrl|e]; [|discriminate].
      destruct (present (extractVideoId nextUrl)); [now intros [= <- _] | discriminate].
  - discriminate.
Qed.

Lemma chase_consistent (env : Env) (turns : nat) :
  forall u log r log',
    chase env turns u log = (Ok (Some r), log') ->
    videoId r = extractVideoId (finalUrl r).
Proof.
  induction turns as [|turns IH]; intros u log r log'; simpl; [discriminate|].
  unfold bind at 1.
  destruct (try_catch (hop_try env u) (hop_catch env u) log) as [[[r0|nextUrl|]|e] log1] eqn:E.
  - intros [= <- _]. exact (hop_consistent _ _ _ _ _ E).
  - apply IH.
  - discriminate.
  - discriminate.
Qed.

Lemma auto_follow_consistent (env : Env) (u : string) (log : Net) (r : Resolved)
    (log' : Net) :
  auto_follow env u log = (Ok r, log') -> videoId r = extractVideoId (finalUrl r).
Proof.
  unfold auto_follow, try_catch, bind, request, ret.
  destruct (axios env log _) as [resp | response requestUrl]; now intros [= <- _].
Qed.

Lemma resolveShortUrl_agrees (env : Env) (shortUrl : string) (log : Net)
    (r : Resolved) (log' : Net) :
  resolveShortUrl env shortUrl log = (Ok r, log') ->
  videoId r = extractVideoId (finalUrl r).
Proof.
  unfold resolveShortUrl.
  destruct (present (extractVideoId shortUrl)); [now intros [= <- _]|].
  unfold bind.
  destruct (chase env 10 shortUrl log) as [[[r0|]|e] log1] eqn:E; [| |discriminate].
  - intros [= <- _]. exact (chase_consistent _ _ _ _ _ _ E).
  - apply auto_follow_consistent.
Qed.

(** X6. The two fields [resolveShortUrl] returns agree: the identifier is
    the one [extractVideoId] reads from the returned final URL, and is
    absent exactly when that URL shows none.  This holds on every path: the
    direct return, each manual hop, and the fallback. *)
Theorem resolveShortUrl_consistent (env : Env) (shortUrl : string) (log : Net)
    (r : Resolved) (log' : Net) :
  resolveShortUrl env shortUrl log = (Ok r, log') ->
  videoId r = extractVideoId (finalUrl r).
Proof. apply resolveShortUrl_agrees. Qed.

Lemma resolveShortUrl_consistent_witness :
  resolveShortUrl two_hops short_url []
  = (Ok {| finalUrl := page_url; videoId := Some "123" |},
     [hop_request short_url; hop_request share_url])
  /\ Some "123" = extractVideoId page_url.
Proof.
  split; [reflexivity|].
  exact (resolveShortUrl_consistent two_hops short_url [] _ _ eq_refl).
Defined.

(** X7. A manual request that is answered 2xx ends the resolution: when the
    input URL shows no identifier and its request is fulfilled,
    [resolveShortUrl] returns after that one request, without a further hop
    and without the fallback.  The result is the URL of the response with
    its identifier when that URL shows one, and otherwise the input URL
    with no identifier. *)
Theorem resolveShortUrl_settles_on_2xx (env : Env) (shortUrl : string) (log : Net)
    (resp : Response) :
  extractVideoId shortUrl = None ->
  axios env log (hop_request shortUrl) = Fulfilled resp ->
  resolveShortUrl env shortUrl log
  = (Ok match responseUrl resp with
        | Some respUrl =>
            match extractVideoId respUrl with
            | Some id => {| finalUrl := respUrl; videoId := Some id |}
            | None => {| finalUrl := shortUrl; videoId := None |}
            end
        | None => {| finalUrl := shortUrl; videoId := None |}
        end,
     (log ++ [hop_request shortUrl])%list).
Proof.
  intros Hid Hax. unfold resolveShortUrl. rewrite Hid.
  change (present None) with false. cbv iota.
  unfold bind at 1. cbn [chase]. unfold bind at 1, try_catch, hop_try.
  unfold bind at 1, request. fold (hop_request shortUrl).
  rewrite Hax, Hid. change (present None) with false. cbv iota.
  destruct (responseUrl resp) as [respUrl|]; [|reflexivity].
  destruct (present (Some respUrl)) eqn:Hr.
  - destruct (extractVideoId respUrl) as [id|] eqn:E; [|reflexivity].
    assert (Hp : present (Some id) = true).
    { rewrite <- E. apply extractVideoId_present. congruence. }
    now rewrite Hp.
  - destruct respUrl; [reflexivity | discriminate Hr].
Qed.

Lemma resolveShortUrl_settles_on_2xx_witness :
  resolveShortUrl landing short_url []
  = (Ok {| finalUrl := page_url; videoId := Some "123" |}, [hop_request short_url]).
Proof.
  exact (resolveShortUrl_settles_on_2xx landing short_url []
           {| status := 200; location := None;
              responseUrl := Some page_url; data := NStr "" |}
           eq_refl eq_refl).
Defined.

(* ================================================================= *)
(** ** More on [normalizeVideoUrl] *)

Lemma normalizeVideoUrl_free (u : string) (rule : Re.regex * string) :
  In rule DOMAIN_REPLACEMENTS -> free (Re.exec (fst rule)) (normalizeVideoUrl u).
Proof.
  intros Hr.
  apply (fold_makes_free _ DOMAIN_REPLACEMENTS_inert); [apply incl_refl | exact Hr].
Qed.

Lemma normalizeVideoUrl_again (u : string) :
  normalizeVideoUrl (normalizeVideoUrl u) = normalizeVideoUrl u.
Proof. apply (fold_idempotent _ DOMAIN_REPLACEMENTS_inert). Qed.

(** X8. The URLs [normalizeVideoUrl] returns unchanged are exactly those in
    which no pattern of [DOMAIN_REPLACEMENTS] matches at any position. *)
Theorem normalizeVideoUrl_fixed (u : string) :
  normalizeVideoUrl u = u
  <-> Forall (fun rule => forall k, Re.exec (fst rule) (Str.drop k u) = None)
             DOMAIN_REPLACEMENTS.
Proof.
  split.
  - intros H. apply Forall_forall. intros rule Hr. rewrite <- H.
    now apply normalizeVideoUrl_free.
  - intros H. apply fold_fixed. intros rule Hr.
    exact (proj1 (Forall_forall _ _) H rule Hr).
Qed.

(** ** The URL inside pasted text *)



(** ** The scheme of a stored media URL *)

Lemma replace_first_keeps_http (s : string) :
  Str.startsWith s "http" = true ->
  Str.startsWith (Str.replace_first "playwm" "play" s) "http" = true.
Proof.
  intros H. destruct s as [|a [|b [|c [|d rest]]]]; cbn [Str.startsWith] in H;
    try (rewrite ?andb_false_r in H; discriminate H).
  apply andb_true_iff in H as [Ha H]. apply andb_true_iff in H as [Hb H].
  apply andb_true_iff in H as [Hc H]. apply andb_true_iff in H as [Hd _].
  apply Ascii.eqb_eq in Ha, Hb, Hc, Hd. subst a b c d.
  cbn [Str.replace_first Str.startsWith Ascii.eqb Bool.eqb andb].
  destruct (Str.startsWith rest "laywm");
    cbn [Str.startsWith append Ascii.eqb Bool.eqb andb];
    first [reflexivity | apply startsWith_empty].
Qed.

Lemma with_scheme_http (src : string) : Str.startsWith (with_scheme src) "http" = true.
Proof.
  unfold with_scheme.
  destruct (Str.startsWith src "//"); [reflexivity|].
  destruct (Str.startsWith src "http") eqn:E; [exact E | reflexivity].
Qed.

(** X10. A media URL found under [playApi], or stored by the mobile-page
    callback for a pattern capture, starts with [http]: a scheme-relative
    or bare address is completed with [https:], and replacing the
    watermark marker leaves the scheme as it is. *)
Theorem media_url_has_scheme :
  (forall (obj : Node json) (info : VideoInfo),
      shape_playApi view_tree (E := error) TypeError obj = Ok (Some info) ->
      exists s, videoSrc info = NStr s /\ Str.startsWith s "http" = true)
  /\ (forall capture, Str.startsWith (mobile_src capture) "http" = true)
  /\ (forall env content capture v log,
         truthy (var_videoSrc v) = false ->
         Str.includes content "playAddr" || Str.includes content "play_addr"
         || Str.includes content "playApi" = true ->
         first_capture [match_playApi env content; match_play_addr env content;
                        match_playAddr env content] = Some capture ->
         exists s,
           mobile_script env content (v, log)
           = (Ok tt, ({| var_videoSrc := NStr s;
                         var_coverSrc := var_coverSrc v;
                         var_desc := var_desc v |}, log))
           /\ Str.startsWith s "http" = true).
Proof.
  split; [|split].
  - intros obj info. unfold shape_playApi.
    destruct (get view_tree TypeError obj "video") as [video|e]; [|discriminate].
    destruct (truthy video); [|discriminate].
    destruct (get view_tree TypeError video "playApi") as [p|e]; [|discriminate].
    destruct (truthy p); [|discriminate].
    destruct p as [| | | |p| |]; try discriminate.
    intros [= <-]. cbn [videoSrc].
    destruct (Str.startsWith p "http") eqn:E; eexists; split; try reflexivity.
    exact E.
  - intros capture. unfold mobile_src.
    apply replace_first_keeps_http, with_scheme_http.
  - intros env content capture v log Hv Hinc Hcap.
    exists (mobile_src capture). split.
    + unfold mobile_script, unless_found, bind, read_vars. cbn [fst].
      rewrite Hv, Hinc, Hcap. reflexivity.
    + unfold mobile_src. apply replace_first_keeps_http, with_scheme_http.
Qed.

(* ================================================================= *)
(** ** Steps of the handler, by what they leave of the state *)

Section Respects.

Variable R : St -> St -> Prop.
Hypothesis R_refl : forall st, R st st.
Hypothesis R_trans : forall a b c, R a b -> R b c -> R a c.

Lemma respects_ret {A : Type} (a : A) : respects R (ret a).
Proof. intros st r st' [= _ <-]. apply R_refl. Qed.

Lemma respects_raise {A : Type} (e : error) : respects R (raise (A := A) e).
Proof. intros st r st' [= _ <-]. apply R_refl. Qed.

Lemma respects_lift {A : Type} (x : result error A) : respects R (lift x).
Proof. intros st r st' [= _ <-]. apply R_refl. Qed.

Lemma respects_read_vars : respects R read_vars.
Proof. intros st r st' [= _ <-]. apply R_refl. Qed.

Lemma respects_bind {A B : Type} (m : M St A) (k : A -> M St B) :
  respects R m -> (forall a, respects R (k a)) -> respects R (bind m k).
Proof.
  intros Hm Hk st r st'. unfold bind.
  destruct (m st) as [[a|e] st1] eqn:E.
  - intros H. apply Hm in E. apply Hk in H. now apply (R_trans _ st1).
  - intros [= _ <-]. now apply Hm in E.
Qed.

Lemma respects_bind_lift {A B : Type} (x : result error A) (k : A -> M St B) :
  (forall a, x = Ok a -> respects R (k a)) -> respects R (bind (lift x) k).
Proof.
  intros Hk st r st'. unfold bind, lift.
  destruct x as [a|e]; [apply (Hk a eq_refl)|].
  intros [= _ <-]. apply R_refl.
Qed.

Lemma respects_try_catch {A : Type} (m : M St A) (h : error -> M St A) :
  respects R m -> (forall e, respects R (h e)) -> respects R (try_catch m h).
Proof.
  intros Hm Hh st r st'. unfold try_catch.
  destruct (m st) as [[a|e] st1] eqn:E.
  - intros [= _ <-]. now apply Hm in E.
  - intros H. apply Hm in E. apply Hh in H. now apply (R_trans _ st1).
Qed.

Lemma respects_unless_found (m : M St unit) :
  respects R m -> respects R (unless_found m).
Proof.
  intros Hm. unfold unless_found. apply respects_bind; [apply respects_read_vars|].
  intros v. destruct (truthy (var_videoSrc v)); [apply respects_ret | exact Hm].
Qed.

Lemma respects_each (cb : string -> M St unit) (contents : list string) :
  (forall c, respects R (cb c)) -> respects R (each cb contents).
Proof.
  intros H. induction contents as [|c cs IH]; simpl; [apply respects_ret|].
  apply respects_bind; [apply H | intros _; exact IH].
Qed.

Lemma respects_run (ms : list (M St unit)) :
  Forall (respects R (A := unit)) ms -> respects R (run ms).
Proof.
  induction 1 as [|m ms Hm _ IH]; cbn [run]; [apply respects_ret|].
  apply respects_bind; [exact Hm | intros _; exact IH].
Qed.

End Respects.

(** Walks through a step of the handler along its syntax. *)
Ltac respects_step refl trans :=
  match goal with
  | |- respects _ (bind (lift _) _) => apply (respects_bind_lift _ refl); intros ? ?
  | |- respects _ (bind _ _) => apply (respects_bind _ trans); [|intros ?]
  | |- respects _ (try_catch _ _) => apply (respects_try_catch _ trans); [|intros ?]
  | |- respects _ (unless_found _) => apply (respects_unless_found _ refl trans)
  | |- respects _ (each _ _) => apply (respects_each _ refl trans); intros ?
  | |- respects _ (ret _) => apply (respects_ret _ refl)
  | |- respects _ (raise _) => apply (respects_raise _ refl)
  | |- respects _ (lift _) => apply (respects_lift _ refl)
  | |- respects _ read_vars => apply (respects_read_vars _ refl)
  | |- respects _ (if ?b then _ else _) => destruct b eqn:?
  | |- respects _ (match ?x with _ => _ end) => destruct x eqn:?
  end.

(** ** The requests of the strategies *)

Lemma same_log_refl (st : St) : same_log st st.
Proof. reflexivity. Qed.

Lemma same_log_trans (a b c : St) : same_log a b -> same_log b c -> same_log a c.
Proof. unfold same_log. congruence. Qed.

Ltac silent_step := respects_step same_log_refl same_log_trans.

Lemma silent_write_vars (w : Vars) : respects same_log (write_vars w).
Proof. now intros st r st' [= _ <-]. Qed.

Lemma silent_set_videoSrc (src : Node json) : respects same_log (set_videoSrc src).
Proof. unfold set_videoSrc. repeat silent_step. apply silent_write_vars. Qed.

Lemma silent_keep_if_usable (r : option (VideoInfo (V := json))) :
  respects same_log (keep_if_usable r).
Proof.
  unfold keep_if_usable, assign. repeat silent_step. apply silent_write_vars.
Qed.

Lemma silent_try_patterns (env : Env) (captures : list (option string)) :
  respects same_log (try_patterns env captures).
Proof.
  induction captures as [|[text|] rest IH]; cbn [try_patterns];
    [silent_step | | exact IH].
  repeat silent_step; first [apply silent_keep_if_usable | exact IH].
Qed.

Lemma silent_mobile_script (env : Env) (content : string) :
  respects same_log (mobile_script env content).
Proof. unfold mobile_script. repeat silent_step. apply silent_set_videoSrc. Qed.

(** A [try] block that opens with a request, where nothing after the
    request and nothing in the [catch] block issues another. *)
Lemma one_request (env : Env) (q : Request) (k : Response -> M St unit)
    (h : error -> M St unit) :
  (forall a, respects same_log (k a)) -> (forall e, respects same_log (h e)) ->
  forall v log r st',
    try_catch (bind (on_net (request env q)) k) h (v, log) = (r, st') ->
    snd st' = (log ++ [q])%list.
Proof.
  intros Hk Hh v log r st'. unfold try_catch, bind at 1, on_net, request. cbn [fst snd].
  destruct (axios env log q) as [resp|resp ru].
  - match goal with |- context [k resp ?s] =>
      destruct (k resp s) as [[a|e] st1] eqn:E end.
    + intros [= _ <-]. exact (Hk _ _ _ _ E).
    + intros H. apply Hk in E. apply Hh in H. unfold same_log in *. cbn in E. congruence.
  - intros H. apply Hh in H. exact H.
Qed.

Lemma issues_unless_found (m : M St unit) (q : Request) :
  (forall v log r st', m (v, log) = (r, st') -> snd st' = (log ++ [q])%list) ->
  issues (unless_found m) q.
Proof.
  intros H v log r v' log' Hv. unfold unless_found, bind, read_vars. cbn [fst].
  rewrite Hv. intros E. exact (H _ _ _ _ E).
Qed.

Lemma strategies_issue (env : Env) (id : string) :
  Forall2 issues (strategies env id) (requests_of_strategies id).
Proof.
  unfold strategies, requests_of_strategies.
  repeat apply Forall2_cons; [| | | | |apply Forall2_nil].
  - intros v log r v' log' _ E. unfold strategy1 in E.
    apply one_request in E; [exact E| |intros e; silent_step].
    intros a. repeat silent_step. apply silent_keep_if_usable.
  - unfold strategy2. apply issues_unless_found. intros v log r st'.
    apply one_request; [|intros e; silent_step].
    intros a. repeat silent_step;
      first [apply silent_keep_if_usable | apply silent_try_patterns].
  - unfold strategy3. apply issues_unless_found. intros v log r st'.
    apply one_request; [|intros e; silent_step].
    intros a. repeat silent_step;
      first [apply silent_mobile_script | apply silent_set_videoSrc].
  - unfold strategy4. apply issues_unless_found. intros v log r st'.
    apply one_request; [|intros e; silent_step].
    intros a. repeat silent_step. apply silent_write_vars.
  - unfold strategy5. apply issues_unless_found. intros v log r st'.
    apply one_request; [|intros e; silent_step].
    intros a. repeat silent_step. apply silent_set_videoSrc.
Qed.

(** Steps that each issue one request while [videoSrc] is falsy issue, run
    one after the other, the requests up to that of the first step that
    leaves a truthy [videoSrc]. *)
Lemma run_requests (ms : list (M St unit)) (qs : list Request) :
  Forall2 issues ms qs ->
  Forall never_raises ms -> Forall (keeps (A := unit)) ms -> Forall guarded (tl ms) ->
  forall v log,
    truthy (var_videoSrc v) = false ->
    exists n v',
      run ms (v, log) = (Ok tt, (v', (log ++ firstn n qs)%list))
      /\ n <= List.length qs
      /\ (ms <> [] -> 1 <= n)
      /\ (truthy (var_videoSrc v') = false -> n = List.length qs).
Proof.
  induction 1 as [|m q ms qs Hq _ IH]; intros Hn Hk Hg v log Hv.
  { exists 0, v. cbn. rewrite app_nil_r.
    split; [reflexivity|]. split; [lia|]. split; [congruence | reflexivity]. }
  inversion Hn as [|? ? Hm Hn']; subst. inversion Hk as [|? ? Hkm Hk']; subst.
  cbn [tl] in Hg.
  destruct (Hm (v, log)) as [[v1 log1] E1].
  pose proof (Hq _ _ _ _ _ Hv E1) as ->.
  cbn [run]. unfold bind. rewrite E1.
  destruct (truthy (var_videoSrc v1)) eqn:Hv1.
  - rewrite (run_guarded ms v1 _ Hg Hv1).
    exists 1, v1. cbn [firstn List.length].
    split; [reflexivity|]. split; [lia|]. split; [lia|]. intros; congruence.
  - assert (Hg' : Forall guarded (tl ms)) by (destruct Hg; [constructor | assumption]).
    destruct (IH Hn' Hk' Hg' v1 (log ++ [q])%list Hv1) as (n & v' & Hrun & Hle & _ & Hall).
    exists (S n), v'. cbn [firstn List.length].
    replace (log ++ q :: firstn n qs)%list with ((log ++ [q]) ++ firstn n qs)%list
      by now rewrite <- app_assoc.
    split; [exact Hrun|]. split; [lia|]. split; [lia|]. intros H; now rewrite Hall.
Qed.

Lemma extract_requests (env : Env) (id : string) (log : Net) (v : Vars) (log' : Net) :
  extract env id log = (Ok v, log') ->
  exists n,
    log' = (log ++ firstn n (requests_of_strategies id))%list
    /\ 1 <= n <= 5
    /\ (truthy (var_videoSrc v) = false -> n = 5).
Proof.
  destruct (run_requests _ _ (strategies_issue env id) (strategies_never_raise env id)
              (strategies_keep env id) (strategies_guarded env id)
              initial_vars log eq_refl) as (n & v' & Hrun & Hle & H1 & Hall).
  unfold extract. rewrite Hrun. intros [= <- <-].
  exists n. split; [reflexivity|]. split; [|exact Hall].
  split; [apply H1; discriminate | exact Hle].
Qed.

Lemma resolveShortUrl_requests (env : Env) (shortUrl : string) (log : Net)
    (r : result error Resolved) (log' : Net) :
  resolveShortUrl env shortUrl log = (r, log') ->
  exists resolving, log' = (log ++ resolving)%list /\ List.length resolving <= 11.
Proof.
  unfold resolveShortUrl.
  destruct (present (extractVideoId shortUrl)).
  { intros [= _ <-]. exists []. rewrite app_nil_r. split; [reflexivity | simpl; lia]. }
  unfold bind.
  destruct (chase env 10 shortUrl log) as [[res|e] log1] eqn:E;
    apply chase_requests in E as (hops & -> & Hlen & _).
  - destruct res as [resolved|].
    + intros [= _ <-]. exists hops. split; [reflexivity | lia].
    + destruct (auto_follow_returns env shortUrl (log ++ hops)%list) as [res ->].
      intros [= _ <-]. exists (hops ++ [fallback_request shortUrl])%list.
      rewrite app_assoc. split; [reflexivity|]. rewrite length_app. simpl. lia.
  - intros [= _ <-]. exists hops. split; [reflexivity | lia].
Qed.

(* ================================================================= *)
(** ** The requests of the handler *)

(** X11. The handler always replies, after at most sixteen requests: at
    most eleven to resolve the link, then the requests of the strategies for
    one identifier, a non-empty run of digits, in their fixed order and up
    to the strategy that found a media URL.  No strategy request is issued
    before a 400 reply; all five have been issued before the reply that
    every strategy failed; at least one before a success. *)
Theorem parse_requests (env : Env) (req_body : Node json) (log : Net) :
  exists reply resolving extracting,
    parse env req_body log = (Ok reply, (log ++ resolving ++ extracting)%list)
    /\ List.length resolving <= 11
    /\ (extracting = []
        \/ exists id n,
             id <> "" /\ Str.all Re.is_digit id = true /\ 1 <= n <= 5
             /\ extracting = firstn n (requests_of_strategies id))
    /\ List.length (resolving ++ extracting) <= 16
    /\ (code reply = 400%Z -> extracting = [])
    /\ (forall e, body reply = BFailure e ->
                  exists id, extracting = requests_of_strategies id)
    /\ (forall d, body reply = BSuccess d -> extracting <> []).
Proof.
  destruct (parse_course env req_body log) as (reply & log' & Hparse & Hcourse).
  exists reply.
  assert (Hnone : forall resolving,
             log' = (log ++ resolving)%list -> List.length resolving <= 11 ->
             (forall e, body reply <> BFailure e) ->
             (forall d, body reply <> BSuccess d) ->
             exists resolving extracting,
               parse env req_body log = (Ok reply, (log ++ resolving ++ extracting)%list)
               /\ List.length resolving <= 11
               /\ (extracting = []
                   \/ exists id n,
                        id <> "" /\ Str.all Re.is_digit id = true /\ 1 <= n <= 5
                        /\ extracting = firstn n (requests_of_strategies id))
               /\ List.length (resolving ++ extracting) <= 16
               /\ (code reply = 400%Z -> extracting = [])
               /\ (forall e, body reply = BFailure e ->
                             exists id, extracting = requests_of_strategies id)
               /\ (forall d, body reply = BSuccess d -> extracting <> [])).
  { intros resolving -> Hlen Hf Hs. exists resolving, [].
    rewrite app_nil_r. split; [exact Hparse|]. split; [exact Hlen|].
    split; [now left|]. split; [lia|]. split; [reflexivity|].
    split; [intros e He; now destruct (Hf e) | intros d Hd; now destruct (Hs d)]. }
  assert (Hsome : forall text r log1 id v,
             resolveShortUrl env (target_of text) log = (Ok r, log1) ->
             videoId r = Some id ->
             extract env id log1 = (Ok v, log') ->
             code reply <> 400%Z ->
             (forall e, body reply = BFailure e -> truthy (var_videoSrc v) = false) ->
             exists resolving extracting,
               parse env req_body log = (Ok reply, (log ++ resolving ++ extracting)%list)
               /\ List.length resolving <= 11
               /\ (extracting = []
                   \/ exists id n,
                        id <> "" /\ Str.all Re.is_digit id = true /\ 1 <= n <= 5
                        /\ extracting = firstn n (requests_of_strategies id))
               /\ List.length (resolving ++ extracting) <= 16
               /\ (code reply = 400%Z -> extracting = [])
               /\ (forall e, body reply = BFailure e ->
                             exists id, extracting = requests_of_strategies id)
               /\ (forall d, body reply = BSuccess d -> extracting <> [])).
  { intros text r log1 id v Hres Hid Hex Hcode Hfail.
    pose proof (resolveShortUrl_agrees _ _ _ _ _ Hres) as Hagree.
    rewrite Hid in Hagree. symmetry in Hagree.
    destruct (extractVideoId_run _ _ Hagree) as (Hne & Hdigits).
    destruct (resolveShortUrl_requests _ _ _ _ _ Hres) as (resolving & -> & Hlen).
    destruct (extract_requests _ _ _ _ _ Hex) as (n & Hlog & Hn & Hall).
    exists resolving, (firstn n (requests_of_strategies id)).
    rewrite app_assoc, <- Hlog. split; [exact Hparse|]. split; [exact Hlen|].
    assert (Hcount : List.length (firstn n (requests_of_strategies id)) = n).
    { rewrite length_firstn. cbn [requests_of_strategies List.length]. lia. }
    split; [right; exists id, n; now repeat split|].
    split; [rewrite length_app, Hcount; lia|].
    split; [intros H; now destruct Hcode|].
    split.
    - intros e He. exists id. rewrite (Hall (Hfail e He)). reflexivity.
    - intros d _ H. rewrite H in Hcount. cbn in Hcount. lia. }
  inversion Hcourse; subst.
  - apply (Hnone []); [now rewrite app_nil_r | simpl; lia | discriminate | discriminate].
  - apply (Hnone []); [now rewrite app_nil_r | simpl; lia | discriminate | discriminate].
  - apply (Hnone []); [now rewrite app_nil_r | simpl; lia | discriminate | discriminate].
  - match goal with H : resolveShortUrl _ _ _ = _ |- _ =>
      destruct (resolveShortUrl_requests _ _ _ _ _ H) as (resolving & -> & Hlen) end.
    apply (Hnone resolving); [reflexivity | exact Hlen | discriminate | discriminate].
  - match goal with H : resolveShortUrl _ _ _ = _ |- _ =>
      destruct (resolveShortUrl_requests _ _ _ _ _ H) as (resolving & -> & Hlen) end.
    apply (Hnone resolving); [reflexivity | exact Hlen | discriminate | discriminate].
  - eapply Hsome; try eassumption; [discriminate | intros; assumption].
  - eapply Hsome; try eassumption; [discriminate | discriminate].
  - eapply Hsome; try eassumption; [discriminate | discriminate].
Qed.

(** ** The cover and the description of a found record *)

Lemma defaulted_or_else {V : Type} (a b : Node V) :
  defaulted b -> defaulted (or_else a b).
Proof.
  intros Hb. unfold or_else. destruct (truthy a) eqn:E; [now left | exact Hb].
Qed.

Lemma defaulted_empty {V : Type} : defaulted (NStr "" : Node V).
Proof. now right. Qed.

Section Tidy.

Variable env : Env.

Local Abbreviation shapes := (match_shapes view_tree TypeError (to_number_gt0 env)).

Lemma shapes_tidy (o : Node json) (info : VideoInfo) :
  shapes o = Ok (Some info) -> defaulted (coverSrc info) /\ defaulted (desc info).
Proof.
  unfold match_shapes, shape_playApi, shape_play_addr, shape_download_addr.
  destruct (get view_tree TypeError o "video") as [video|e]; [|discriminate].
  destruct (truthy video); [|discriminate].
  destruct (get view_tree TypeError video "playApi") as [p|e]; [|discriminate].
  assert (Hmodern : forall s,
             defaulted (or_else (first_url view_tree video "cover" "urlList")
                          (or_else (first_url view_tree video "dynamicCover" "urlList")
                             (NStr s)))
             \/ s <> "").
  { intros s. destruct s; [left|right; discriminate].
    apply defaulted_or_else, defaulted_or_else, defaulted_empty. }
  destruct (truthy p).
  { destruct p; try discriminate. intros [= <-]. cbn [coverSrc desc]. split.
    - destruct (Hmodern "") as [H|H]; [exact H | now destruct H].
    - apply defaulted_or_else, defaulted_empty. }
  destruct (has_url_list view_tree TypeError (to_number_gt0 env) video "play_addr")
    as [[|]|e]; [| |discriminate].
  { destruct (call_replace TypeError _ "playwm" "play") as [src|e]; [|discriminate].
    intros [= <-]. cbn [coverSrc desc].
    split; apply defaulted_or_else, defaulted_empty. }
  destruct (has_url_list view_tree TypeError (to_number_gt0 env) video "download_addr")
    as [[|]|e]; [| discriminate |discriminate].
  intros [= <-]. cbn [coverSrc desc].
  split; apply defaulted_or_else, defaulted_empty.
Qed.

Lemma first_usable_origin {V E : Type} (f : V -> option (result E (option (VideoInfo (V := V)))))
    (cs : list V) (info : VideoInfo) :
  first_usable f cs = Some (Ok (Some info)) ->
  exists c, In c cs /\ f c = Some (Ok (Some info)).
Proof.
  induction cs as [|c cs IH]; cbn [first_usable]; [discriminate|].
  destruct (f c) as [[r|e]|] eqn:Ec; [| discriminate | discriminate].
  destruct (usable r).
  - intros [= ->]. exists c. split; [now left | exact Ec].
  - intros H. destruct (IH H) as (c' & Hin & Hc'). exists c'. split; [now right | exact Hc'].
Qed.

Lemma find_fuel_tidy (fuel : nat) :
  forall (o : Node json) (info : VideoInfo),
    findVideoInObject view_tree TypeError (to_number_gt0 env) fuel o = Some (Ok (Some info)) ->
    defaulted (coverSrc info) /\ defaulted (desc info).
Proof.
  induction fuel as [|fuel IH]; intros o info; cbn [findVideoInObject]; [discriminate|].
  destruct (negb (truthy o) || negb (typeof_object o)); [discriminate|].
  destruct (shapes o) as [[found|]|e] eqn:E; [| |discriminate].
  - intros [= <-]. exact (shapes_tidy _ _ E).
  - intros H. apply first_usable_origin in H as (c & _ & Hc). exact (IH _ _ Hc).
Qed.

Lemma find_tidy (o : Node json) (info : VideoInfo) :
  findVideoInTree env o = Ok (Some info) ->
  defaulted (coverSrc info) /\ defaulted (desc info).
Proof.
  unfold findVideoInTree.
  destruct (findVideoInObject view_tree TypeError (to_number_gt0 env)
              (S (height (J o))) o) as [r|] eqn:E; [|discriminate].
  intros ->. exact (find_fuel_tidy _ _ _ E).
Qed.

End Tidy.

Lemma stays_tidy_refl (st : St) : stays_tidy st st.
Proof. now intros H. Qed.

Lemma stays_tidy_trans (a b c : St) : stays_tidy a b -> stays_tidy b c -> stays_tidy a c.
Proof. unfold stays_tidy. auto. Qed.

Ltac tidy_step := respects_step stays_tidy_refl stays_tidy_trans.

Lemma tidy_on_net {A : Type} (m : M Net A) : respects stays_tidy (on_net m).
Proof.
  intros [v log] r st'. unfold on_net. cbn [fst snd].
  destruct (m log) as [r0 log0]. now intros [= _ <-].
Qed.

Lemma tidy_write_vars (w : Vars) : tidy w -> respects stays_tidy (write_vars w).
Proof. intros H st r st' [= _ <-] _. exact H. Qed.

Lemma tidy_set_videoSrc (src : Node json) : respects stays_tidy (set_videoSrc src).
Proof.
  intros [v log] r st'. unfold set_videoSrc, bind, read_vars, write_vars. cbn [fst snd].
  now intros [= _ <-].
Qed.

Lemma tidy_keep_if_usable (env : Env) (o : Node json)
    (r : option (VideoInfo (V := json))) :
  findVideoInTree env o = Ok r -> respects stays_tidy (keep_if_usable r).
Proof.
  intros H. unfold keep_if_usable, assign. repeat tidy_step.
  apply tidy_write_vars. exact (find_tidy _ _ _ H).
Qed.

Lemma tidy_try_patterns (env : Env) (captures : list (option string)) :
  respects stays_tidy (try_patterns env captures).
Proof.
  induction captures as [|[text|] rest IH]; cbn [try_patterns];
    [tidy_step | | exact IH].
  repeat tidy_step; first [eapply tidy_keep_if_usable; eassumption | exact IH].
Qed.

Lemma tidy_mobile_script (env : Env) (content : string) :
  respects stays_tidy (mobile_script env content).
Proof. unfold mobile_script. repeat tidy_step. apply tidy_set_videoSrc. Qed.

Lemma strategies_stay_tidy (env : Env) (id : string) :
  Forall (respects stays_tidy (A := unit)) (strategies env id).
Proof.
  unfold strategies. repeat apply Forall_cons; [| | | | |apply Forall_nil].
  - unfold strategy1. repeat tidy_step;
      first [apply tidy_on_net | eapply tidy_keep_if_usable; eassumption].
  - unfold strategy2. repeat tidy_step;
      first [apply tidy_on_net | eapply tidy_keep_if_usable; eassumption
            | apply tidy_try_patterns].
  - unfold strategy3. repeat tidy_step;
      first [apply tidy_on_net | apply tidy_mobile_script | apply tidy_set_videoSrc].
  - unfold strategy4. repeat tidy_step; [apply tidy_on_net|].
    apply tidy_write_vars. split; apply defaulted_or_else, defaulted_empty.
  - unfold strategy5. repeat tidy_step;
      first [apply tidy_on_net | apply tidy_set_videoSrc].
Qed.

Lemma extract_tidy (env : Env) (id : string) (log : Net) (v : Vars) (log' : Net) :
  extract env id log = (Ok v, log') -> tidy v.
Proof.
  unfold extract.
  destruct (run (strategies env id) (initial_vars, log)) as [[[]|e] [v' l']] eqn:E;
    [|discriminate].
  intros [= <- _].
  apply (respects_run _ stays_tidy_refl stays_tidy_trans _ (strategies_stay_tidy env id))
    in E.
  apply E. split; apply defaulted_empty.
Qed.

(** X12. A success payload is complete.  Its cover is a truthy value or
    the empty string and its description is truthy, so neither is ever
    [null] or [undefined]; and the handler of [server.ts] never sets the
    demo flag. *)
Theorem success_payload_complete (env : Env) (req_body : Node json) (log : Net)
    (reply : HttpReply) (log' : Net) (d : VideoData) :
  parse env req_body log = (Ok reply, log') ->
  body reply = BSuccess d ->
  defaulted (data_cover d)
  /\ is_nullish (data_cover d) = false
  /\ truthy (data_desc d) = true
  /\ data_isDemo d = None.
Proof.
  intros Hparse Hbody.
  destruct (parse_course env req_body log) as (reply' & log'' & Hparse' & Hcourse).
  rewrite Hparse in Hparse'. injection Hparse' as <- <-.
  inversion Hcourse; subst; cbn [body] in Hbody; try discriminate.
  injection Hbody as <-. cbn [data_cover data_desc data_isDemo].
  match goal with H : extract _ _ _ = _ |- _ => apply extract_tidy in H as [Hc Hd] end.
  split; [exact Hc|]. split.
  - destruct Hc as [Hc | ->]; [|reflexivity].
    destruct (var_coverSrc v); try reflexivity; discriminate.
  - split; [|reflexivity]. unfold or_else.
    destruct (truthy (var_desc v)) eqn:E; [exact E | reflexivity].
Qed.

Lemma success_payload_complete_witness :
  parse detail_api (body_of page_url) []
  = (Ok {| code := 200; body := BSuccess detailed |}, [detail_request])
  /\ defaulted (data_cover detailed)
  /\ is_nullish (data_cover detailed) = false
  /\ truthy (data_desc detailed) = true
  /\ data_isDemo detailed = None.
Proof.
  split; [reflexivity|].
  exact (success_payload_complete detail_api (body_of page_url) [] _ _ detailed
           eq_refl eq_refl).
Defined.

(* ================================================================= *)
(** ** [generateMsToken] *)

Lemma all_append (p : ascii -> bool) (a b : string) :
  Str.all p (a ++ b) = Str.all p a && Str.all p b.
Proof.
  induction a as [|c a IH]; simpl; [reflexivity|].
  now rewrite IH, andb_assoc.
Qed.

(** The character a byte selects is one of the alphabet. *)
Lemma byte_selects (b : Byte.byte) :
  exists c,
    char_at MS_TOKEN_CHARS (Byte.to_nat b mod String.length MS_TOKEN_CHARS) = String c ""
    /\ Str.includes MS_TOKEN_CHARS (String c "") = true.
Proof. destruct b; eexists; split; vm_compute; reflexivity. Qed.

Lemma token_loop (f : nat -> string) (ok : ascii -> bool) (indices : list nat) :
  (forall i, In i indices -> exists c, f i = String c "" /\ ok c = true) ->
  forall result,
    String.length (fold_left (fun result i => result ++ f i) indices result)
    = String.length result + List.length indices
    /\ (Str.all ok result = true ->
        Str.all ok (fold_left (fun result i => result ++ f i) indices result) = true).
Proof.
  induction indices as [|i indices IH]; intros H result; cbn [fold_left List.length].
  { split; [lia | auto]. }
  destruct (H i (or_introl eq_refl)) as (c & Hc & Hok).
  destruct (IH (fun j Hj => H j (or_intror Hj)) (result ++ f i)) as [Hlen Hall].
  split.
  - rewrite Hlen, length_append, Hc. simpl. lia.
  - intros Hr. apply Hall. rewrite all_append, Hr, Hc. simpl. now rewrite Hok.
Qed.

(** X13. A token has the requested number of characters, 107 where the
    caller names none, and each of them is a character of the alphabet of
    [generateMsToken]: a letter, a digit, a hyphen or an underscore. *)
Theorem generateMsToken_alphabet (randomBytes : nat -> list Byte.byte)
    (length : option nat) :
  (forall n, List.length (randomBytes n) = n) ->
  String.length (generateMsToken randomBytes length)
  = match length with
    | Some n => n
    | None => 107
    end
  /\ Str.all (fun c => Str.includes MS_TOKEN_CHARS (String c ""))
             (generateMsToken randomBytes length) = true.
Proof.
  intros Hrandom. unfold generateMsToken.
  set (n := match length with Some n => n | None => 107 end).
  destruct (token_loop (token_char MS_TOKEN_CHARS (randomBytes n))
              (fun c => Str.includes MS_TOKEN_CHARS (String c ""))
              (seq 0 n)) with (result := "") as [Hlen Hall].
  - intros i Hi. apply in_seq in Hi. unfold token_char.
    destruct (nth_error (randomBytes n) i) as [b|] eqn:E.
    + apply byte_selects.
    + apply nth_error_None in E. rewrite Hrandom in E. lia.
  - split; [|now apply Hall]. rewrite Hlen, length_seq. reflexivity.
Qed.

Lemma generateMsToken_alphabet_witness :
  String.length (generateMsToken constant_bytes None) = 107
  /\ Str.all (fun c => Str.includes MS_TOKEN_CHARS (String c ""))
             (generateMsToken constant_bytes None) = true.
Proof.
  apply (generateMsToken_alphabet constant_bytes None).
  intros n. apply repeat_length.
Defined.



(* ================================================================= *)
(** ** [GET /api/proxy] *)


(** X16. The proxy fetches what the handler served.  For the media URL of
    any success payload of [POST /api/parse], the proxy requests exactly
    that URL: normalizing it once more changes nothing. *)
Theorem proxy_serves_parsed_url (env : Env) (req_body : Node json) (log : Net)
    (reply : HttpReply) (log' : Net) (d : VideoData)
    (download : Net -> Request -> Download) (proxy_log : Net) :
  parse env req_body log = (Ok reply, log') ->
  body reply = BSuccess d ->
  exists s,
    data_url d = NStr s
    /\ snd (proxy download (data_url d) proxy_log)
       = (proxy_log ++ [{| method := GET; url := s; maxRedirects := 10 |}])%list.
Proof.
  intros Hparse Hbody.
  destruct (parse_course env req_body log) as (reply' & log'' & Hparse' & Hcourse).
  rewrite Hparse in Hparse'. injection Hparse' as <- <-.
  inversion Hcourse; subst; cbn [body] in Hbody; try discriminate.
  injection Hbody as <-. cbn [data_url].
  exists (normalizeVideoUrl src). split; [reflexivity|].
  assert (Hs : truthy (NStr (normalizeVideoUrl src) : Node json) = true).
  { apply truthy_NStr. now apply normalizeVideoUrl_nonempty. }
  unfold proxy. rewrite Hs. cbn [negb orb typeof_string].
  rewrite normalizeVideoUrl_again. unfold proxy_request.
  destruct (download proxy_log _); reflexivity.
Qed.

Lemma proxy_serves_parsed_url_witness :
  parse detail_api (body_of page_url) []
  = (Ok {| code := 200; body := BSuccess detailed |}, [detail_request])
  /\ proxy bare_upstream (data_url detailed) []
     = (ProxyStream [("Content-Type", "video/mp4"); ("Content-Disposition", ATTACHMENT)]
                    "abc",
        [{| method := GET; url := "https://www.douyin.com/aweme/v1/play/?video_id=v1";
            maxRedirects := 10 |}])
  /\ exists s,
       data_url detailed = NStr s
       /\ snd (proxy bare_upstream (data_url detailed) [])
          = ([] ++ [{| method := GET; url := s; maxRedirects := 10 |}])%list.
Proof.
  split; [reflexivity|]. split; [reflexivity|].
  exact (proxy_serves_parsed_url detail_api (body_of page_url) [] _ _ detailed
           bare_upstream [] eq_refl eq_refl).
Defined.

(* ================================================================= *)
(** ** The history of the front end *)

Lemma In_firstn {A : Type} (n : nat) (l : list A) (x : A) :
  In x (firstn n l) -> In x l.
Proof.
  revert l. induction n as [|n IH]; intros [|a l]; simpl; try contradiction.
  intros [-> | H]; [now left | right; now apply IH].
Qed.

Lemma NoDup_firstn {A : Type} (n : nat) (l : list A) :
  NoDup l -> NoDup (firstn n l).
Proof.
  intros H. revert n. induction H as [|a l Ha _ IH]; intros [|n]; simpl;
    try constructor.
  - intros Hin. apply Ha. now apply In_firstn in Hin.
  - apply IH.
Qed.

(** Leaving out the entries for one URL brings in no duplicate. *)
Lemma others_no_duplicates (u : string) (history : list Entry) :
  NoDup (map entry_url history) ->
  NoDup (map entry_url (filter (fun h => negb (entry_url h =? u)) history)).
Proof.
  induction history as [|e history IH]; cbn [map filter]; [auto|].
  intros H. inversion H as [|? ? He Hrest]; subst.
  destruct (negb (entry_url e =? u)); [|now apply IH].
  cbn [map]. constructor; [|now apply IH].
  intros Hin. apply He. apply in_map_iff in Hin as (x & Hx & Hin).
  apply filter_In in Hin as [Hin _]. apply in_map_iff. now exists x.
Qed.

Lemma filter_all {A : Type} (p : A -> bool) (l : list A) :
  (forall x, In x l -> p x = true) -> filter p l = l.
Proof.
  induction l as [|a l IH]; simpl; [reflexivity|].
  intros H. rewrite (H a (or_introl eq_refl)). f_equal. apply IH.
  intros x Hx. apply H. now right.
Qed.

(** The other entries: those [saveToHistory] keeps of the history. *)
Lemma saveToHistory_cons (history : list Entry) (data : Entry) :
  saveToHistory history data
  = data :: firstn 19 (filter (fun h => negb (entry_url h =? entry_url data)) history).
Proof. reflexivity. Qed.

Lemma kept_is_other (history : list Entry) (data h : Entry) :
  In h (firstn 19 (filter (fun h => negb (entry_url h =? entry_url data)) history)) ->
  In h history /\ entry_url h <> entry_url data.
Proof.
  intros H. apply In_firstn, filter_In in H as [Hin Hneq]. split; [exact Hin|].
  apply negb_true_iff, String.eqb_neq in Hneq. exact Hneq.
Qed.

(** X17. The new history starts with the saved entry and holds at most
    twenty entries, at most one more than before.  The entries after the
    first are entries of the old history with another URL, so the URL of
    the saved entry occurs once; and while the old history holds fewer than
    twenty entries, every entry with another URL is kept. *)
Theorem saveToHistory_newest_first (history : list Entry) (data : Entry) :
  hd_error (saveToHistory history data) = Some data
  /\ List.length (saveToHistory history data) <= 20
  /\ List.length (saveToHistory history data) <= S (List.length history)
  /\ (forall h, In h (tl (saveToHistory history data)) ->
                In h history /\ entry_url h <> entry_url data)
  /\ count_occ string_dec (map entry_url (saveToHistory history data)) (entry_url data) = 1
  /\ (List.length history < 20 ->
      forall h, In h history -> entry_url h <> entry_url data ->
                In h (saveToHistory history data)).
Proof.
  rewrite saveToHistory_cons. cbn [hd_error tl List.length map].
  split; [reflexivity|].
  pose proof (filter_length_le (fun h => negb (entry_url h =? entry_url data)) history)
    as Hfilter.
  split; [rewrite length_firstn; lia|]. split; [rewrite length_firstn; lia|].
  split; [intros h; apply kept_is_other|]. split.
  - rewrite count_occ_cons_eq by reflexivity. f_equal.
    apply count_occ_not_In. intros Hin.
    apply in_map_iff in Hin as (h & Hurl & Hin).
    apply kept_is_other in Hin as [_ Hneq]. contradiction.
  - intros Hroom h Hin Hneq. right.
    rewrite firstn_all2 by lia. apply filter_In. split; [exact Hin|].
    now apply negb_true_iff, String.eqb_neq.
Qed.

(** X18. Saving keeps the history free of duplicates: when no two entries
    of the history share a URL, no two entries of the new history do. *)
Theorem saveToHistory_no_duplicates (history : list Entry) (data : Entry) :
  NoDup (map entry_url history) ->
  NoDup (map entry_url (saveToHistory history data)).
Proof.
  intros H. rewrite saveToHistory_cons. cbn [map]. constructor.
  - intros Hin. apply in_map_iff in Hin as (h & Hurl & Hin).
    apply kept_is_other in Hin as [_ Hneq]. contradiction.
  - rewrite <- firstn_map. apply NoDup_firstn. now apply others_no_duplicates.
Qed.

Lemma saveToHistory_no_duplicates_witness :
  NoDup (map entry_url [entry "a"; entry "b"; entry "c"])
  /\ saveToHistory [entry "a"; entry "b"; entry "c"] (entry "b")
     = [entry "b"; entry "a"; entry "c"]
  /\ NoDup (map entry_url (saveToHistory [entry "a"; entry "b"; entry "c"] (entry "b"))).
Proof.
  assert (H : NoDup (map entry_url [entry "a"; entry "b"; entry "c"])).
  { repeat constructor; simpl; intuition discriminate. }
  split; [exact H|]. split; [reflexivity|].
  apply (saveToHistory_no_duplicates [entry "a"; entry "b"; entry "c"] (entry "b")).
  exact H.
Defined.

(** X19. Saving again an entry for the URL just saved replaces the first
    entry and leaves the others as they are; saving the same entry twice is
    saving it once. *)
Theorem saveToHistory_again (history : list Entry) (data data' : Entry) :
  entry_url data' = entry_url data ->
  saveToHistory (saveToHistory history data) data'
  = data' :: tl (saveToHistory history data).
Proof.
  intros Hurl. rewrite (saveToHistory_cons history data). cbn [tl].
  rewrite saveToHistory_cons. f_equal. cbn [filter].
  rewrite Hurl, String.eqb_refl. cbn [negb].
  rewrite filter_all.
  - rewrite firstn_firstn. reflexivity.
  - intros h Hin. apply kept_is_other in Hin as [_ Hneq].
    now apply negb_true_iff, String.eqb_neq.
Qed.

Lemma saveToHistory_again_witness :
  saveToHistory (saveToHistory [entry "a"; entry "b"] (entry "b")) (entry "b")
  = saveToHistory [entry "a"; entry "b"] (entry "b").
Proof.
  exact (saveToHistory_again [entry "a"; entry "b"] (entry "b") (entry "b") eq_refl).
Defined.

(* ================================================================= *)
(** ** Where a result of the deep search comes from *)

(** X20. A record the deep search returns carries a truthy media URL,
    unless the searched value itself matches a shape: only a shape match at
    the root can return a record whose media URL is empty. *)
Theorem findVideoInObject_result_usable (env : Env) (o : Node json)
    (info : VideoInfo) :
  findVideoInTree env o = Ok (Some info) ->
  truthy (videoSrc info) = true
  \/ match_shapes view_tree TypeError (to_number_gt0 env) o = Ok (Some info).
Proof.
  rewrite findVideoInTree_unfold.
  destruct (negb (truthy o) || negb (typeof_object o)); [discriminate|].
  destruct (match_shapes view_tree TypeError (to_number_gt0 env) o) as [[found|]|e];
    [now right | | discriminate].
  destruct (first_usable _ (children o)) as [r|] eqn:E; [|discriminate].
  intros ->. left. revert E. generalize (children o) as cs.
  induction cs as [|c cs IH]; cbn [first_usable]; [discriminate|].
  destruct (findVideoInTree env (view_tree c)) as [r|e]; [|discriminate].
  destruct (usable r) eqn:Hu; [|exact IH].
  intros [= ->]. exact Hu.
Qed.

Lemma findVideoInObject_result_usable_witness :
  findVideoInTree offline siblings
  = Ok (Some {| videoSrc := NStr "https://v.example/x.mp4";
                coverSrc := NStr ""; desc := NStr "" |})
  /\ (truthy (NStr "https://v.example/x.mp4" : Node json) = true
      \/ match_shapes view_tree TypeError (to_number_gt0 offline) siblings
         = Ok (Some {| videoSrc := NStr "https://v.example/x.mp4";
                       coverSrc := NStr ""; desc := NStr "" |})).
Proof.
  split; [reflexivity|].
  exact (findVideoInObject_result_usable offline siblings _ eq_refl).
Defined.

(** ** What [resolveShortUrl] throws *)

Lemma hop_raises (env : Env) (u : string) (log : Net) (e : error) (log' : Net) :
  try_catch (hop_try env u) (hop_catch env u) log = (Raise e, log') ->
  exists loc, Str.startsWith loc "http" = false /\ new_URL env loc u = Raise e.
Proof.
  unfold try_catch, hop_try, hop_catch, bind, request, ret, lift.
  destruct (axios env log _) as [resp | [response|] requestUrl].
  - destruct (present (extractVideoId u)); [discriminate|].
    destruct (responseUrl resp) as [respUrl|]; [|discriminate].
    destruct (present (Some respUrl)); [|discriminate].
    destruct (present (extractVideoId respUrl)); discriminate.
  - destruct (negb (status response =? 0)%Z && (300 <=? status response)%Z
              && (status response <? 400)%Z); [|discriminate].
    destruct (location response) as [loc|]; [|discriminate].
    destruct (present (Some loc)); [|discriminate].
    destruct (Str.startsWith loc "http") eqn:Habs.
    + destruct (present (extractVideoId loc)); discriminate.
    + destruct (new_URL env loc u) as [nextUrl|e'] eqn:Hnew.
      * destruct (present (extractVideoId nextUrl)); discriminate.
      * intros [= <- _]. now exists loc.
  - discriminate.
Qed.

Lemma chase_raises (env : Env) (turns : nat) :
  forall u log e log',
    chase env turns u log = (Raise e, log') ->
    exists loc base, Str.startsWith loc "http" = false /\ new_URL env loc base = Raise e.
Proof.
  induction turns as [|turns IH]; intros u log e log'; cbn [chase]; [discriminate|].
  unfold bind at 1.
  destruct (try_catch (hop_try env u) (hop_catch env u) log) as [[[r0|nextUrl|]|e0] log1] eqn:E.
  - discriminate.
  - apply IH.
  - discriminate.
  - intros [= <- _]. apply hop_raises in E as (loc & Hrel & Hnew). now exists loc, u.
Qed.

(** X21. [resolveShortUrl] throws nothing of its own: an exception that
    leaves it was thrown by the URL parser, on a [Location] that does not
    start with [http].  A failed request, a missing header or a fault of
    the fallback never makes it throw. *)
Theorem resolveShortUrl_raises_only_from_URL (env : Env) (shortUrl : string)
    (log : Net) (e : error) (log' : Net) :
  resolveShortUrl env shortUrl log = (Raise e, log') ->
  exists loc base, Str.startsWith loc "http" = false /\ new_URL env loc base = Raise e.
Proof.
  unfold resolveShortUrl.
  destruct (present (extractVideoId shortUrl)); [discriminate|].
  unfold bind.
  destruct (chase env 10 shortUrl log) as [[[r0|]|e0] log1] eqn:E.
  - discriminate.
  - destruct (auto_follow_returns env shortUrl log1) as [r ->]. discriminate.
  - intros [= <- _]. exact (chase_raises _ _ _ _ _ _ E).
Qed.

Lemma resolveShortUrl_raises_only_from_URL_witness :
  resolveShortUrl broken_location short_url []
  = (Raise TypeError, [hop_request short_url])
  /\ exists loc base,
       Str.startsWith loc "http" = false
       /\ new_URL broken_location loc base = Raise TypeError.
Proof.
  split; [reflexivity|].
  exact (resolveShortUrl_raises_only_from_URL broken_location short_url []
           TypeError _ eq_refl).
Defined.

(* ================================================================= *)
(** ** The first strategy, end to end *)

Lemma truthy_object_needed (env : Env) (o : Node json) (info : VideoInfo) :
  findVideoInTree env o = Ok (Some info) -> truthy o = true.
Proof.
  rewrite findVideoInTree_unfold. destruct (truthy o); [reflexivity|].
  cbn [negb orb]. discriminate.
Qed.

(** X22. When the pasted text holds a URL that shows an identifier and the
    detail API answers with data in which the deep search finds a record
    with a non-empty media URL, the handler replies with success after that
    one request: the media URL normalized, the cover as found, and the
    description as found or the placeholder. *)
Theorem parse_detail_api_success (env : Env) (text id : string) (log : Net)
    (resp : Response) (info : VideoInfo) (src : string) :
  extractVideoId (target_of text) = Some id ->
  axios env log
        {| method := GET;
           url := "https://www.douyin.com/aweme/v1/web/aweme/detail/?aweme_id="
                  ++ id ++ "&aid=6383&cookie_enabled=true&platform=PC&downlink=10";
           maxRedirects := 5 |}
  = Fulfilled resp ->
  findVideoInTree env (tget_opt (data resp) "aweme_detail") = Ok (Some info) ->
  videoSrc info = NStr src ->
  src <> "" ->
  parse env (body_of text) log
  = (Ok {| code := 200;
           body := BSuccess {| data_url := NStr (normalizeVideoUrl src);
                               data_cover := coverSrc info;
                               data_desc := or_else (desc info) (NStr DEFAULT_DESC);
                               data_isDemo := None |} |},
     (log ++ [{| method := GET;
                 url := "https://www.douyin.com/aweme/v1/web/aweme/detail/?aweme_id="
                        ++ id ++ "&aid=6383&cookie_enabled=true&platform=PC&downlink=10";
                 maxRedirects := 5 |}])%list).
Proof.
  intros Hid Hax Hfind Hsrc Hne.
  assert (Htext : truthy (NStr text : Node json) = true).
  { apply truthy_NStr. intros ->. discriminate Hid. }
  assert (Hpresent : present (Some id) = true).
  { rewrite <- Hid. apply extractVideoId_present. congruence. }
  assert (Husable : truthy (videoSrc info) = true).
  { rewrite Hsrc. now apply truthy_NStr. }
  set (q := {| method := GET;
               url := "https://www.douyin.com/aweme/v1/web/aweme/detail/?aweme_id="
                      ++ id ++ "&aid=6383&cookie_enabled=true&platform=PC&downlink=10";
               maxRedirects := 5 |}) in *.
  set (v := {| var_videoSrc := videoSrc info; var_coverSrc := coverSrc info;
               var_desc := desc info |}).
  assert (Hfirst : strategy1 env id (initial_vars, log) = (Ok tt, (v, (log ++ [q])%list))).
  { unfold strategy1, try_catch, bind at 1, on_net, request. cbn [fst snd]. fold q.
    rewrite Hax. rewrite (truthy_object_needed _ _ _ Hfind).
    unfold bind at 1, lift. rewrite Hfind.
    unfold bind, keep_if_usable. rewrite Husable. reflexivity. }
  assert (Hextract : extract env id log = (Ok v, (log ++ [q])%list)).
  { assert (Hrun : run (strategies env id) (initial_vars, log)
                   = (Ok tt, (v, (log ++ [q])%list))).
    { change (strategies env id) with (strategy1 env id :: tl (strategies env id)).
      cbn [run]. unfold bind. rewrite Hfirst.
      apply run_guarded; [apply strategies_guarded | exact Husable]. }
    unfold extract. now rewrite Hrun. }
  unfold parse, try_catch, parse_body, bind at 1, lift, body_of, tget, get. cbn [is_nullish].
  change (own view_tree (NObj [("url", jstr text)]) "url") with (NStr text : Node json).
  rewrite Htext. cbn [negb]. unfold bind at 1, resolveShortUrl.
  rewrite Hid, Hpresent. unfold ret at 1. cbn [videoId]. rewrite Hpresent.
  unfold bind. rewrite Hextract. unfold respond. subst v. cbn [var_videoSrc var_coverSrc var_desc].
  rewrite Husable, Hsrc. reflexivity.
Qed.

Lemma parse_detail_api_success_witness :
  parse detail_api (body_of page_url) []
  = (Ok {| code := 200; body := BSuccess detailed |}, ([] ++ [detail_request])%list).
Proof.
  exact (parse_detail_api_success detail_api page_url "123" []
           {| status := 200; location := None; responseUrl := None; data := detail_body |}
           {| videoSrc := NStr "https://aweme.snssdk.com/aweme/v1/play/?video_id=v1";
              coverSrc := NStr "https://aweme.snssdk.com/cover.jpg";
              desc := NStr "" |}
           "https://aweme.snssdk.com/aweme/v1/play/?video_id=v1"
           eq_refl eq_refl eq_refl eq_refl ltac:(discriminate)).
Defined.

(* ================================================================= *)
(** ** What [normalizeVideoUrl] replaces *)

Lemma drop_past (k : nat) (s : string) : String.length s <= k -> Str.drop k s = "".
Proof.
  revert k. induction s as [|c s IH]; intros k H; [apply drop_empty|].
  destruct k as [|k]; simpl in *; [lia | apply IH; lia].
Qed.

Lemma match_positions_spec (re : Re.regex) (s : string) (k : nat) :
  Re.exec re "" = None ->
  ~ In k (match_positions re s) -> Re.exec re (Str.drop k s) = None.
Proof.
  intros Hempty Hnot.
  destruct (Nat.le_gt_cases k (String.length s)) as [Hk|Hk].
  - destruct (Re.exec re (Str.drop k s)) eqn:E; [|reflexivity].
    destruct Hnot. apply filter_In. split; [apply in_seq; lia | now rewrite E].
  - rewrite drop_past by lia. exact Hempty.
Qed.

(** A global replacement where the pattern matches at one position only. *)
Lemma replace_single (m : Re.matcher) (rep w post : string) :
  w <> "" ->
  m (w ++ post) = Some (String.length w) ->
  forall pre,
    (forall k, k <> String.length pre -> m (Str.drop k (pre ++ w ++ post)) = None) ->
    Re.replace_all m rep (pre ++ w ++ post) = pre ++ rep ++ post.
Proof.
  intros Hw Hm. induction pre as [|c pre IH]; intros Hone.
  - cbn [append String.length] in *. destruct w as [|c w]; [contradiction|].
    cbn [append String.length] in *.
    rewrite (replace_all_match rep m c (w ++ post) (String.length w) Hm).
    rewrite drop_append. f_equal. apply replace_all_free.
    intros k. specialize (Hone (S (String.length w + k))).
    cbn [Str.drop] in Hone. rewrite <- drop_drop, drop_append in Hone.
    apply Hone. lia.
  - cbn [append String.length] in *.
    rewrite replace_all_copy.
    + f_equal. apply IH. intros k Hk. apply (Hone (S k)). lia.
    + intros n. pose proof (Hone 0) as H0. cbn [Str.drop] in H0.
      rewrite H0 by lia. discriminate.
Qed.

(** X23. A URL in which the patterns of [DOMAIN_REPLACEMENTS] match at one
    position only, where the pattern of one rule matches the host [w], is
    normalized by replacing [w] with the host of that rule: the text before
    and the text after stay as they are. *)
Theorem normalizeVideoUrl_replaces (i : nat) (re : Re.regex) (rep pre w post : string) :
  nth_error DOMAIN_REPLACEMENTS i = Some (re, rep) ->
  Re.exec re (w ++ post) = Some (String.length w) ->
  (forall j rule,
      nth_error DOMAIN_REPLACEMENTS j = Some rule ->
      match_positions (fst rule) (pre ++ w ++ post)
      = if (j =? i)%nat then [String.length pre] else []) ->
  normalizeVideoUrl (pre ++ w ++ post) = pre ++ rep ++ post.
Proof.
  intros Hi Hw Hpos.
  assert (Hinert : forall rule rule',
             In rule DOMAIN_REPLACEMENTS -> In rule' DOMAIN_REPLACEMENTS ->
             inert (snd rule') (Re.exec (fst rule))).
  { intros rule rule' Hr Hr'. apply exec_inert.
    exact (table_pair _ DOMAIN_REPLACEMENTS_inert rule rule' Hr Hr'). }
  assert (Hin : In (re, rep) DOMAIN_REPLACEMENTS) by exact (nth_error_In _ _ Hi).
  assert (Hother : forall j rule, nth_error DOMAIN_REPLACEMENTS j = Some rule -> j <> i ->
                                  free (Re.exec (fst rule)) (pre ++ w ++ post)).
  { intros j rule Hj Hne k. apply match_positions_spec.
    - exact (inert_empty (Hinert rule rule (nth_error_In _ _ Hj) (nth_error_In _ _ Hj))).
    - rewrite (Hpos j rule Hj). apply Nat.eqb_neq in Hne. rewrite Hne. intros []. }
  assert (Hhere : forall k, k <> String.length pre ->
                            Re.exec re (Str.drop k (pre ++ w ++ post)) = None).
  { intros k Hk. apply (match_positions_spec re).
    - exact (inert_empty (Hinert _ _ Hin Hin)).
    - pose proof (Hpos i (re, rep) Hi) as Hp. cbn [fst] in Hp.
      rewrite Hp, Nat.eqb_refl. intros [H|[]]. congruence. }
  assert (Hne : w <> "").
  { intros ->. cbn [append String.length] in Hw.
    pose proof (table_pair _ DOMAIN_REPLACEMENTS_inert _ _ Hin Hin) as Hok.
    unfold inert_ok in Hok. apply andb_true_iff in Hok as [Hok _].
    apply andb_true_iff in Hok as [Hok _].
    exact (exec_nonempty _ _ _ Hok _ Hw eq_refl). }
  assert (Hstep : rewrite_step (pre ++ w ++ post) (re, rep) = pre ++ rep ++ post).
  { unfold rewrite_step. cbn [fst snd]. now apply replace_single. }
  change (normalizeVideoUrl (pre ++ w ++ post))
    with (fold_left rewrite_step DOMAIN_REPLACEMENTS (pre ++ w ++ post)).
  rewrite <- (firstn_skipn_middle i DOMAIN_REPLACEMENTS Hi) at 1.
  rewrite fold_left_app. cbn [fold_left].
  rewrite (fold_fixed (firstn i DOMAIN_REPLACEMENTS)).
  - rewrite Hstep. apply fold_fixed. intros rule Hr.
    apply In_nth_error in Hr as [j Hj]. rewrite nth_error_skipn in Hj.
    rewrite <- Hstep.
    apply (step_keeps_free _ DOMAIN_REPLACEMENTS_inert rule (re, rep));
      [exact (nth_error_In _ _ Hj) | exact Hin|].
    apply (Hother _ _ Hj). lia.
  - intros rule Hr. apply In_nth_error in Hr as [j Hj].
    rewrite nth_error_firstn in Hj.
    destruct (j <? i)%nat eqn:Hlt; [|discriminate]. apply Nat.ltb_lt in Hlt.
    apply (Hother _ _ Hj). lia.
Qed.

Lemma normalizeVideoUrl_replaces_witness :
  normalizeVideoUrl ("https://" ++ "v26-web.douyinvod.com" ++ "/video/x.mp4")
  = "https://" ++ "www.douyin.com" ++ "/video/x.mp4".
Proof.
  apply (normalizeVideoUrl_replaces 3
           [Re.Lit "v"; Re.Plus Re.is_digit; Re.Lit "-"; Re.Plus Re.is_lower;
            Re.Lit ".douyinvod.com"]).
  - reflexivity.
  - reflexivity.
  - intros [|[|[|[|j]]]] rule H; try (injection H as <-; reflexivity).
    destruct j; discriminate H.
Defined.

(* ================================================================= *)
(** ** The compiled handler [server.js] *)

Lemma json_induction (P : json -> Prop) :
  (forall n, (forall c, In c (children n) -> P c) -> P (J n)) ->
  forall t, P t.
Proof.
  intros Hstep.
  assert (H : forall h t, height t < h -> P t).
  { induction h as [|h IH]; intros [n] Hh; [lia|].
    apply Hstep. intros c Hc. apply IH.
    pose proof (height_child n c Hc). lia. }
  intros t. apply (H (S (height t))). lia.
Qed.

Lemma silent_set_coverSrc (cover : Node json) : respects same_log (set_coverSrc cover).
Proof. unfold set_coverSrc. repeat silent_step. apply silent_write_vars. Qed.

Lemma silent_set_desc (description : Node json) : respects same_log (set_desc description).
Proof. unfold set_desc. repeat silent_step. apply silent_write_vars. Qed.

Lemma silent_keep_desc (obj : Node json) : respects same_log (keep_desc obj).
Proof. unfold keep_desc. repeat silent_step. apply silent_set_desc. Qed.

Lemma silent_keep_cover (video : Node json) (list_key : string) :
  respects same_log (keep_cover video list_key).
Proof. unfold keep_cover. repeat silent_step. apply silent_set_coverSrc. Qed.

Lemma silent_findVideoInfo (to_text : Node json -> string) (t : json) :
  respects same_log (findVideoInfo to_text t).
Proof.
  induction t as [n IH] using json_induction. cbn [findVideoInfo].
  repeat silent_step;
    try first [apply silent_set_videoSrc | apply silent_keep_desc
              | apply silent_keep_cover].
  - clear - IH. cbn [children] in IH. revert IH.
    induction elems as [|c cs IHcs]; intros IH; [silent_step|].
    repeat silent_step.
    + apply IH. now left.
    + apply IHcs. intros c' Hc'. apply IH. now right.
  - clear - IH. cbn [children map] in IH. revert IH.
    induction fields as [|[k c] fs IHfs]; intros IH; [silent_step|].
    repeat silent_step.
    + apply IH. now left.
    + apply IHfs. intros c' Hc'. apply IH. now right.
Qed.

Section CompiledRequests.

Variable env : Env.
Variable to_text : Node json -> string.
Variable match_playAddr_list : string -> option string.

Lemma silent_compiled_strategy1 (dom : Dom) :
  respects same_log (compiled_strategy1 env to_text dom).
Proof. unfold compiled_strategy1. repeat silent_step. apply silent_findVideoInfo. Qed.

Lemma silent_compiled_script (content : string) :
  respects same_log (compiled_script env match_playAddr_list content).
Proof. unfold compiled_script. repeat silent_step; apply silent_set_videoSrc. Qed.

Lemma silent_compiled_strategy2 (dom : Dom) :
  respects same_log (compiled_strategy2 env match_playAddr_list dom).
Proof. unfold compiled_strategy2. repeat silent_step. apply silent_compiled_script. Qed.

Lemma silent_compiled_strategy4 (html : Node json) :
  respects same_log (compiled_strategy4 html).
Proof. unfold compiled_strategy4. repeat silent_step. apply silent_set_videoSrc. Qed.

(** The old API is asked at most once. *)
Lemma compiled_strategy3_requests (videoId : option string) (st : St)
    (r : result error unit) (st' : St) :
  compiled_strategy3 env videoId st = (r, st') ->
  exists extra, snd st' = (snd st ++ extra)%list /\ List.length extra <= 1.
Proof.
  destruct st as [v log]. unfold compiled_strategy3, bind at 1, read_vars. cbn [fst snd].
  assert (Hnone : forall r0, (r0, (v, log)) = (r, st') ->
                  exists extra, snd st' = (log ++ extra)%list /\ List.length extra <= 1).
  { intros r0 [= _ <-]. exists []. rewrite app_nil_r. split; [reflexivity | simpl; lia]. }
  destruct videoId as [id|]; [|apply Hnone].
  destruct (negb (truthy (var_videoSrc v)) && present (Some id)); [|apply Hnone].
  intros H. apply one_request in H.
  - eexists. split; [exact H | simpl; lia].
  - intros a. repeat silent_step;
      first [apply silent_set_videoSrc | apply silent_set_coverSrc | apply silent_set_desc].
  - intros e. silent_step.
Qed.

Lemma compiled_strategies_requests (dom : Dom) (videoId : option string)
    (html : Node json) (v : Vars) (log : Net) (r : result error unit) (st' : St) :
  run (compiled_strategies env to_text match_playAddr_list dom videoId html) (v, log)
  = (r, st') ->
  exists extra, snd st' = (log ++ extra)%list /\ List.length extra <= 1.
Proof.
  unfold compiled_strategies. cbn [run].
  assert (Hnone : forall st1 : St, snd st1 = log ->
                  exists extra, snd st1 = (log ++ extra)%list /\ List.length extra <= 1).
  { intros st1 ->. exists []. rewrite app_nil_r. split; [reflexivity | simpl; lia]. }
  unfold bind at 1.
  destruct (compiled_strategy1 env to_text dom (v, log)) as [[[]|e1] st1] eqn:E1;
    apply silent_compiled_strategy1 in E1; unfold same_log in E1; cbn [snd] in E1.
  2:{ intros [= _ <-]. now apply Hnone. }
  unfold bind at 1.
  destruct (compiled_strategy2 env match_playAddr_list dom st1) as [[[]|e2] st2] eqn:E2;
    apply silent_compiled_strategy2 in E2; unfold same_log in E2; rewrite E1 in E2.
  2:{ intros [= _ <-]. now apply Hnone. }
  unfold bind at 1.
  destruct (compiled_strategy3 env videoId st2) as [[[]|e3] st3] eqn:E3;
    apply compiled_strategy3_requests in E3 as (extra & E3 & Hlen); rewrite E2 in E3.
  2:{ intros [= _ <-]. now exists extra. }
  unfold bind at 1.
  destruct (compiled_strategy4 html st3) as [[[]|e4] st4] eqn:E4;
    apply silent_compiled_strategy4 in E4; unfold same_log in E4; rewrite E3 in E4.
  - intros [= _ <-]. now exists extra.
  - intros [= _ <-]. now exists extra.
Qed.

Lemma compiled_respond_success (videoSrc coverSrc desc : Node json) :
  exists d,
    compiled_respond videoSrc coverSrc desc = {| code := 200; body := BSuccess d |}
    /\ truthy (data_url d) = true.
Proof.
  unfold compiled_respond. destruct (truthy videoSrc) eqn:E; cbn [negb].
  - eexists. split; [reflexivity | exact E].
  - exists DEMO. split; reflexivity.
Qed.

Lemma compiled_parse_body_replies (req_body : Node json) (log : Net)
    (r : result error CompiledReply) (log' : Net) :
  compiled_parse_body env to_text match_playAddr_list req_body log = (r, log') ->
  exists requests,
    log' = (log ++ requests)%list
    /\ List.length requests <= 2
    /\ match r with
       | Ok reply =>
           (reply = CompiledError 400 URL_REQUIRED /\ requests = [])
           \/ exists d,
                reply = CompiledJson {| code := 200; body := BSuccess d |}
                /\ truthy (data_url d) = true
                /\ requests <> []
       | Raise _ => True
       end.
Proof.
  unfold compiled_parse_body, bind at 1, lift.
  assert (Hnone : forall e, (Raise e, log) = (r, log') ->
             exists requests,
               log' = (log ++ requests)%list /\ List.length requests <= 2
               /\ match r with
                  | Ok reply =>
                      (reply = CompiledError 400 URL_REQUIRED /\ requests = [])
                      \/ exists d,
                           reply = CompiledJson {| code := 200; body := BSuccess d |}
                           /\ truthy (data_url d) = true
                           /\ requests <> []
                  | Raise _ => True
                  end).
  { intros e [= <- <-]. exists []. rewrite app_nil_r.
    split; [reflexivity|]. split; [simpl; lia | exact I]. }
  destruct (tget req_body "url") as [url|e]; [|apply Hnone].
  destruct (truthy url); cbn [negb].
  2:{ intros [= <- <-]. exists []. rewrite app_nil_r.
      split; [reflexivity|]. split; [simpl; lia|]. now left. }
  destruct url as [| | | |text| |]; try apply Hnone.
  unfold bind at 1, request.
  set (q := {| method := GET; url := target_of text; maxRedirects := 5 |}).
  assert (Hone : forall e, (Raise e, (log ++ [q])%list) = (r, log') ->
             exists requests,
               log' = (log ++ requests)%list /\ List.length requests <= 2
               /\ match r with
                  | Ok reply =>
                      (reply = CompiledError 400 URL_REQUIRED /\ requests = [])
                      \/ exists d,
                           reply = CompiledJson {| code := 200; body := BSuccess d |}
                           /\ truthy (data_url d) = true
                           /\ requests <> []
                  | Raise _ => True
                  end).
  { intros e [= <- <-]. exists [q]. split; [reflexivity|]. split; [simpl; lia | exact I]. }
  destruct (axios env log q) as [response|response requestUrl]; [|apply Hone].
  unfold bind at 1, lift.
  destruct (cheerio_load env (data response)) as [dom|e]; [|apply Hone].
  match goal with |- context [run ?ms ?st] =>
    destruct (run ms st) as [[[]|e] [v l']] eqn:E end;
    apply compiled_strategies_requests in E as (extra & E & Hlen); cbn [snd] in E; subst l'.
  - intros [= <- <-]. exists (q :: extra). rewrite <- app_assoc.
    split; [reflexivity|]. split; [simpl; lia|]. right.
    destruct (compiled_respond_success (var_videoSrc v) (var_coverSrc v) (var_desc v))
      as (d & -> & Hd).
    exists d. split; [reflexivity|]. split; [exact Hd | discriminate].
  - intros [= <- <-]. exists (q :: extra). rewrite <- app_assoc.
    split; [reflexivity|]. split; [simpl; lia | exact I].
Qed.

End CompiledRequests.

(** X24. The compiled handler always replies, after at most two requests,
    in one of three ways: with status 400 when the URL is missing, before
    any request; with status 500; or with a success payload whose media
    URL is truthy, after at least one request.  It has no reply for an
    explicit failure: where its strategies find nothing it sends the
    placeholder. *)
Theorem compiled_parse_replies (env : Env) (to_text : Node json -> string)
    (match_playAddr_list : string -> option string) (req_body : Node json)
    (log : Net) :
  exists reply requests,
    compiled_parse env to_text match_playAddr_list req_body log
    = (Ok reply, (log ++ requests)%list)
    /\ List.length requests <= 2
    /\ ((reply = CompiledError 400 URL_REQUIRED /\ requests = [])
        \/ reply = CompiledError 500 CHECK_THE_LINK
        \/ exists d,
             reply = CompiledJson {| code := 200; body := BSuccess d |}
             /\ truthy (data_url d) = true
             /\ requests <> []).
Proof.
  unfold compiled_parse, try_catch.
  destruct (compiled_parse_body env to_text match_playAddr_list req_body log)
    as [[reply|e] log'] eqn:E;
    apply compiled_parse_body_replies in E as (requests & -> & Hlen & Hcase).
  - exists reply, requests. split; [reflexivity|]. split; [exact Hlen|].
    destruct Hcase as [H|H]; [now left | right; now right].
  - exists (CompiledError 500 CHECK_THE_LINK), requests.
    split; [reflexivity|]. split; [exact Hlen|]. right. now left.
Qed.

Example compiled_parse_demo :
  compiled_parse landing no_text no_list (body_of short_url) []
  = (Ok (CompiledJson {| code := 200; body := BSuccess DEMO |}), compiled_requests).
Proof. reflexivity. Qed.

(** X25. When the request for the link itself fails, the compiled handler
    answers with status 500 after that one request: the placeholder is
    sent only for a page that was fetched. *)
Theorem compiled_parse_unreachable (env : Env) (to_text : Node json -> string)
    (match_playAddr_list : string -> option string) (text : string) (log : Net)
    (response : option Response) (requestUrl : option string) :
  text <> "" ->
  axios env log {| method := GET; url := target_of text; maxRedirects := 5 |}
  = Rejected response requestUrl ->
  compiled_parse env to_text match_playAddr_list (body_of text) log
  = (Ok (CompiledError 500 CHECK_THE_LINK),
     (log ++ [{| method := GET; url := target_of text; maxRedirects := 5 |}])%list).
Proof.
  intros Htext Hax.
  assert (Ht : truthy (NStr text : Node json) = true) by now apply truthy_NStr.
  unfold compiled_parse, try_catch, compiled_parse_body, bind at 1, lift, body_of, tget, get.
  cbn [is_nullish].
  change (own view_tree (NObj [("url", jstr text)]) "url") with (NStr text : Node json).
  rewrite Ht. cbn [negb]. unfold bind at 1, request. rewrite Hax. reflexivity.
Qed.

Lemma compiled_parse_unreachable_witness :
  compiled_parse offline no_text no_list (body_of short_url) []
  = (Ok (CompiledError 500 CHECK_THE_LINK),
     ([] ++ [{| method := GET; url := target_of short_url; maxRedirects := 5 |}])%list).
Proof.
  exact (compiled_parse_unreachable offline no_text no_list short_url [] None None
           ltac:(discriminate) eq_refl).
Defined.

(* ================================================================= *)
(** ** Worked instances *)

Example generateMsToken_constant :
  generateMsToken constant_bytes (Some 4) = "qqqq".
Proof. reflexivity. Qed.

Example compiled_mp4_url_last :
  Re.search compiled_mp4_url "see http://a.b/x.mp4?y.mp4z' and more"
  = Some "http://a.b/x.mp4?y.mp4".
Proof. reflexivity. Qed.

Example compiled_mp4_url_needs_a_character :
  Re.search compiled_mp4_url "http://.mp4" = None.
Proof. reflexivity. Qed.

Example proxy_without_url :
  proxy bare_upstream NUndef [] = (ProxyError 400 URL_PARAMETER_REQUIRED, [])
  /\ proxy bare_upstream (NArr [jstr page_url]) []
     = (ProxyError 400 URL_PARAMETER_REQUIRED, []).
Proof. split; reflexivity. Qed.

Example proxy_refused :
  proxy no_upstream (NStr "https://api.amemv.com/x") []
  = (ProxyError 500 DOWNLOAD_FAILED, [proxy_request "https://www.douyin.com/x"]).
Proof. reflexivity. Qed.

Example saveToHistory_moves_to_front :
  saveToHistory [entry "a"; entry "b"; entry "c"] (entry "c")
  = [entry "c"; entry "a"; entry "b"].
Proof. reflexivity. Qed.
